(** * Pipeline planner: union-find, graph store, Kruskal solver and the
    application's event handlers of [script.js], as a shallow embedding.

    JavaScript values that the union-find arrays can hold or be indexed by
    are modelled by [jsval]; arrays used as property maps are [gmap]s whose
    missing properties read as [undefined].  The graph store and the
    application compute on exact rationals; where the code compares a
    distance it computed ([addVertex], [findClosestVertex]) the rounding of
    IEEE doubles matters, and these tests are embedded a second time on
    binary64 floats in module [Double], where the statements about
    distances are made. *)

From Stdlib Require Import ZArith QArith Qround Lia List Sorted Reals Qreals Lra.
From Stdlib Require Floats.
From stdpp Require Import gmap list fin_maps sorting.

Local Open Scope Z_scope.

(** ** JavaScript values *)

Inductive jsval : Type :=
| JUndef : jsval
| JNaN : jsval
| JNum : Z -> jsval.

#[global] Instance jsval_eq_dec : EqDecision jsval.
Proof. solve_decision. Defined.

Definition jsval_to_sum (v : jsval) : Z + bool :=
  match v with
  | JNum z => inl z
  | JUndef => inr false
  | JNaN => inr true
  end.

Definition jsval_of_sum (s : Z + bool) : jsval :=
  match s with
  | inl z => JNum z
  | inr false => JUndef
  | inr true => JNaN
  end.

#[global] Instance jsval_countable : Countable jsval.
Proof.
  apply (inj_countable' jsval_to_sum jsval_of_sum).
  intros []; reflexivity.
Defined.

(** [a === b]: NaN is not equal to itself. *)
Definition js_strict_eq (a b : jsval) : bool :=
  match a, b with
  | JNaN, _ | _, JNaN => false
  | _, _ => bool_decide (a = b)
  end.

(** [a < b] on numbers; a comparison with [undefined] or NaN is false. *)
Definition js_lt (a b : jsval) : bool :=
  match a, b with
  | JNum p, JNum q => p <? q
  | _, _ => false
  end.

(** [v++] stores ToNumber(v) + 1. *)
Definition js_incr (v : jsval) : jsval :=
  match v with
  | JNum p => JNum (p + 1)
  | _ => JNaN
  end.

(** Property read [arr[k]]: an absent property is [undefined]. *)
Definition js_get (arr : gmap jsval jsval) (k : jsval) : jsval :=
  default JUndef (arr !! k).

(** ** class UnionFind *)

Record UnionFind : Type := mkUnionFind {
  parent : gmap jsval jsval;
  rank : gmap jsval jsval
}.

Definition set_parent (uf : UnionFind) (k v : jsval) : UnionFind :=
  {| parent := <[k := v]> (parent uf); rank := rank uf |}.

Definition set_rank (uf : UnionFind) (k v : jsval) : UnionFind :=
  {| parent := parent uf; rank := <[k := v]> (rank uf) |}.

(** [Array(size).fill().map((_, i) => i)] and [Array(size).fill(0)]. *)
Definition indices (size : nat) : list Z := seqZ 0 (Z.of_nat size).

Definition new_UnionFind (size : nat) : UnionFind :=
  {| parent := list_to_map ((fun i => (JNum i, JNum i)) <$> indices size);
     rank := list_to_map ((fun i => (JNum i, JNum 0)) <$> indices size) |}.

(** [find(x)]: recursion on the parent chain, which need not end on an
    arbitrary store; [fuel] bounds the depth of the calls and [None] is the
    run that exceeds it. *)
Fixpoint find (fuel : nat) (uf : UnionFind) (x : jsval)
  : option (jsval * UnionFind) :=
  match fuel with
  | O => None
  | S fuel' =>
      if js_strict_eq (js_get (parent uf) x) x then Some (x, uf)
      else
        match find fuel' uf (js_get (parent uf) x) with
        | Some (r, uf') => Some (r, set_parent uf' x r)
        | None => None
        end
  end.

Definition union (fuel : nat) (uf : UnionFind) (x y : jsval)
  : option (bool * UnionFind) :=
  match find fuel uf x with
  | None => None
  | Some (rootX, uf1) =>
      match find fuel uf1 y with
      | None => None
      | Some (rootY, uf2) =>
          if js_strict_eq rootX rootY then Some (false, uf2)
          else if js_lt (js_get (rank uf2) rootX) (js_get (rank uf2) rootY)
          then Some (true, set_parent uf2 rootX rootY)
          else if js_lt (js_get (rank uf2) rootY) (js_get (rank uf2) rootX)
          then Some (true, set_parent uf2 rootY rootX)
          else
            let uf3 := set_parent uf2 rootY rootX in
            Some (true, set_rank uf3 rootX (js_incr (js_get (rank uf3) rootX)))
      end
  end.

(** ** class Graph *)

Module Vertex.
Record t : Type := mk { x : Q; y : Q }.
End Vertex.

Module Edge.
Record t : Type := mk { v1 : Z; v2 : Z; weight : Z }.
End Edge.

#[global] Instance Edge_eq_dec : EqDecision Edge.t.
Proof. solve_decision. Defined.

Record Graph : Type := mkGraph {
  vertices : list Vertex.t;
  edges : list Edge.t
}.

Definition new_Graph : Graph := {| vertices := []; edges := [] |}.

Definition Qltb (a b : Q) : bool :=
  (Qnum a * QDen b <? Qnum b * QDen a)%Z.

(** Squared length of the vector [(dx, dy)]. *)
Definition norm2 (dx dy : Q) : Q := (dx * dx + dy * dy)%Q.

(** [Math.sqrt(q) < d] for [0 <= d] in exact arithmetic, decided on the
    squares. *)
Definition sqrt_lt (q d : Q) : bool := Qltb q (d * d)%Q.

(** [Math.round(Math.sqrt(q))] in exact arithmetic: the integer [k] with
    [k - 1/2 <= sqrt q < k + 1/2]. *)
Definition round_sqrt (q : Q) : Z :=
  (Z.sqrt (Qfloor (4 * q)%Q) + 1) / 2.

Definition MIN_DISTANCE : Q := 30%Q.

Definition tooClose (vs : list Vertex.t) (x y : Q) : bool :=
  existsb (fun v =>
    let dx := (Vertex.x v - x)%Q in
    let dy := (Vertex.y v - y)%Q in
    sqrt_lt (norm2 dx dy) MIN_DISTANCE) vs.

(** [addVertex(x, y)]: the returned index (or -1) and the graph after. *)
Definition addVertex (g : Graph) (x y : Q) : Z * Graph :=
  if tooClose (vertices g) x y then (-1, g)
  else
    let g' := {| vertices := vertices g ++ [Vertex.mk x y]; edges := edges g |} in
    (Z.of_nat (length (vertices g')) - 1, g').

(** What [addEdge] writes to the console. *)
Inductive LogMsg : Type :=
| InvalidVertices (v1 v2 : Z)
| AddedEdge (v1 v2 weight : Z)
| ErrorAddingEdge
| EdgeAlreadyExists (v1 v2 : Z).

Definition edge_exists (es : list Edge.t) (v1 v2 : Z) : bool :=
  existsb (fun edge =>
    (Z.eqb (Edge.v1 edge) v1 && Z.eqb (Edge.v2 edge) v2) ||
    (Z.eqb (Edge.v1 edge) v2 && Z.eqb (Edge.v2 edge) v1)) es.

(** [vertices[i]] for an integer [i]. *)
Definition vertex_at (vs : list Vertex.t) (i : Z) : option Vertex.t :=
  if i <? 0 then None else vs !! Z.to_nat i.

(** [addEdge(v1, v2)]: returned boolean, console line, graph after. *)
Definition addEdge (g : Graph) (v1 v2 : Z) : bool * LogMsg * Graph :=
  if (v1 =? v2) || (v1 <? 0) || (v2 <? 0)
     || (v1 >=? Z.of_nat (length (vertices g)))
     || (v2 >=? Z.of_nat (length (vertices g)))
  then (false, InvalidVertices v1 v2, g)
  else if negb (edge_exists (edges g) v1 v2) then
    match vertex_at (vertices g) v1, vertex_at (vertices g) v2 with
    | Some vertex1, Some vertex2 =>
        let dx := (Vertex.x vertex1 - Vertex.x vertex2)%Q in
        let dy := (Vertex.y vertex1 - Vertex.y vertex2)%Q in
        let weight := round_sqrt (norm2 dx dy) in
        (true, AddedEdge v1 v2 weight,
         {| vertices := vertices g;
            edges := edges g ++ [Edge.mk (Z.min v1 v2) (Z.max v1 v2) weight] |})
    | _, _ => (false, ErrorAddingEdge, g)
    end
  else (false, EdgeAlreadyExists v1 v2, g).

(** [[...edges].sort((a, b) => a.weight - b.weight)]: the sort is stable, so
    an edge goes before the first sorted edge that is not lighter. *)
Fixpoint insert_edge (e : Edge.t) (l : list Edge.t) : list Edge.t :=
  match l with
  | [] => [e]
  | h :: t =>
      if Edge.weight e <=? Edge.weight h then e :: h :: t
      else h :: insert_edge e t
  end.

Fixpoint sort_edges (l : list Edge.t) : list Edge.t :=
  match l with
  | [] => []
  | e :: t => insert_edge e (sort_edges t)
  end.

(** The [for (const edge of sortedEdges)] loop of [findMST]; [n] is
    [this.vertices.length]. *)
Fixpoint mst_loop (fuel : nat) (n : nat) (uf : UnionFind)
  (mstEdges sortedEdges : list Edge.t) : option (list Edge.t) :=
  match sortedEdges with
  | [] => Some mstEdges
  | edge :: rest =>
      match find fuel uf (JNum (Edge.v1 edge)) with
      | None => None
      | Some (r1, uf1) =>
          match find fuel uf1 (JNum (Edge.v2 edge)) with
          | None => None
          | Some (r2, uf2) =>
              if negb (js_strict_eq r1 r2) then
                match union fuel uf2 (JNum (Edge.v1 edge)) (JNum (Edge.v2 edge)) with
                | None => None
                | Some (_, uf3) =>
                    let mstEdges' := mstEdges ++ [edge] in
                    if Z.of_nat (length mstEdges') =? Z.of_nat n - 1
                    then Some mstEdges'
                    else mst_loop fuel n uf3 mstEdges' rest
                end
              else mst_loop fuel n uf2 mstEdges rest
          end
      end
  end.

(** [findMST()] on [n] vertices and the edge list [es]. *)
Definition findMST_on (fuel : nat) (n : nat) (es : list Edge.t)
  : option (list Edge.t) :=
  if Z.of_nat n <? 2 then Some []
  else mst_loop fuel n (new_UnionFind n) [] (sort_edges es).

Definition findMST (fuel : nat) (g : Graph) : option (list Edge.t) :=
  findMST_on fuel (length (vertices g)) (edges g).

Definition total_weight (es : list Edge.t) : Z :=
  fold_left (fun sum edge => sum + Edge.weight edge) es 0.

(** ** class PipelineApp

    The fields that only feed the drawing code ([canvas], [ctx],
    [hoveredVertex], [lastMouseX], [lastMouseY]) and the status line are left
    out; [null] is [None]. *)

Inductive Mode : Type := addBuilding | addConnection.

Record PipelineApp : Type := mkPipelineApp {
  graph : Graph;
  selectedVertex : option Z;
  mode : Mode;
  mstEdges : list Edge.t;
  totalCost : Z
}.

Definition new_PipelineApp : PipelineApp :=
  {| graph := new_Graph; selectedVertex := None; mode := addBuilding;
     mstEdges := []; totalCost := 0 |}.

(** The [forEach] of [findClosestVertex], from position [index] on. *)
Fixpoint closest_from (index : Z) (vs : list Vertex.t) (x y : Q)
  (closestDist : Q) (closestIndex : option Z) : option Z :=
  match vs with
  | [] => closestIndex
  | vertex :: rest =>
      let baseY := (Vertex.y vertex + 32 / 2)%Q in
      let dx := (Vertex.x vertex - x)%Q in
      let dy := (baseY - y)%Q in
      let distanceSq := norm2 dx dy in
      if Qltb distanceSq closestDist
      then closest_from (index + 1) rest x y distanceSq (Some index)
      else closest_from (index + 1) rest x y closestDist closestIndex
  end.

Definition findClosestVertex (g : Graph) (x y : Q) : option Z :=
  closest_from 0 (vertices g) x y (40 * 40)%Q None.

Definition with_selected (app : PipelineApp) (sel : option Z) : PipelineApp :=
  {| graph := graph app; selectedVertex := sel; mode := mode app;
     mstEdges := mstEdges app; totalCost := totalCost app |}.

(** [handleCanvasClick(e)] with the click at canvas position [(x, y)]. *)
Definition handleCanvasClick (app : PipelineApp) (x y : Q) : PipelineApp :=
  match mode app with
  | addBuilding =>
      let '(_, g') := addVertex (graph app) x y in
      {| graph := g'; selectedVertex := selectedVertex app; mode := mode app;
         mstEdges := mstEdges app; totalCost := totalCost app |}
  | addConnection =>
      match findClosestVertex (graph app) x y with
      | None => app
      | Some vertexIndex =>
          match selectedVertex app with
          | Some selected =>
              if selected =? vertexIndex then with_selected app None
              else if edge_exists (edges (graph app)) selected vertexIndex
              then with_selected app None
              else
                let '(ok, _, g') := addEdge (graph app) selected vertexIndex in
                if ok then
                  {| graph := g'; selectedVertex := None; mode := mode app;
                     mstEdges := []; totalCost := totalCost app |}
                else
                  {| graph := g'; selectedVertex := None; mode := mode app;
                     mstEdges := mstEdges app; totalCost := totalCost app |}
          | None => with_selected app (Some vertexIndex)
          end
      end
  end.

(** What the user can do: click the canvas or one of the four buttons. *)
Inductive Event : Type :=
| CanvasClick (x y : Q)
| AddBuildingClick
| AddConnectionClick
| FindMSTClick
| ResetClick.

(** One event handler run to its end; [None] only when [findMST] exceeds
    [fuel]. *)
Definition step (fuel : nat) (app : PipelineApp) (ev : Event) : option PipelineApp :=
  match ev with
  | CanvasClick x y => Some (handleCanvasClick app x y)
  | AddBuildingClick =>
      Some {| graph := graph app; selectedVertex := None; mode := addBuilding;
              mstEdges := mstEdges app; totalCost := totalCost app |}
  | AddConnectionClick =>
      if Z.of_nat (length (vertices (graph app))) <? 2 then Some app
      else Some {| graph := graph app; selectedVertex := None; mode := addConnection;
                   mstEdges := mstEdges app; totalCost := totalCost app |}
  | FindMSTClick =>
      if Z.of_nat (length (vertices (graph app))) <? 2 then Some app
      else
        match findMST fuel (graph app) with
        | None => None
        | Some mst =>
            Some {| graph := graph app; selectedVertex := selectedVertex app;
                    mode := mode app; mstEdges := mst; totalCost := total_weight mst |}
        end
  | ResetClick =>
      Some {| graph := new_Graph; selectedVertex := None; mode := addBuilding;
              mstEdges := []; totalCost := 0 |}
  end.

Fixpoint run (fuel : nat) (app : PipelineApp) (evs : list Event) : option PipelineApp :=
  match evs with
  | [] => Some app
  | ev :: rest =>
      match step fuel app ev with
      | None => None
      | Some app' => run fuel app' rest
      end
  end.

(** Requests to the graph store alone. *)
Inductive Request : Type :=
| ReqVertex (x y : Q)
| ReqEdge (a b : Z).

Definition serve (g : Graph) (r : Request) : Graph :=
  match r with
  | ReqVertex x y => snd (addVertex g x y)
  | ReqEdge a b => snd (addEdge g a b)
  end.

Definition serve_all (g : Graph) (rs : list Request) : Graph := fold_left serve rs g.

(** ** Scenarios *)

Definition triangle_vertices : list Vertex.t :=
  [Vertex.mk 0 0; Vertex.mk 10 0; Vertex.mk 10 10].

Definition triangle : Graph :=
  let g0 := {| vertices := triangle_vertices; edges := [] |} in
  let g1 := snd (addEdge g0 0 1) in
  let g2 := snd (addEdge g1 1 2) in
  snd (addEdge g2 0 2).

Definition one_site : Graph := {| vertices := [Vertex.mk 0 0]; edges := [] |}.

Definition two_sites : list Request := [ReqVertex 0 0; ReqVertex 100 0].

(** The store left by a [union] call. *)
Definition after_union (fuel : nat) (uf : UnionFind) (x y : Z) : UnionFind :=
  match union fuel uf (JNum x) (JNum y) with
  | Some (_, uf') => uf'
  | None => uf
  end.

(** Four elements after [union(0, 1)] and [union(2, 3)]. *)
Definition two_pairs : UnionFind :=
  after_union 4 (after_union 4 (new_UnionFind 4) 0 1) 2 3.

(** The application after the given events. *)
Definition after_events (fuel : nat) (evs : list Event) : PipelineApp :=
  match run fuel new_PipelineApp evs with
  | Some app => app
  | None => new_PipelineApp
  end.

(** Two buildings, a pipe between them, and the tree computed. *)
Definition linked_pair : list Event :=
  [CanvasClick 0 0; CanvasClick 100 0; AddConnectionClick;
   CanvasClick 0 16; CanvasClick 100 16; FindMSTClick].

(** Three buildings, a pipe between the first two, the tree computed, and
    the second building selected for another pipe. *)
Definition pending_pipe : list Event :=
  [CanvasClick 0 0; CanvasClick 100 0; CanvasClick 200 0; AddConnectionClick;
   CanvasClick 0 16; CanvasClick 100 16; FindMSTClick; CanvasClick 100 16].

(** ** Reading the union-find store at integer indices *)

Definition parZ (uf : UnionFind) (i : Z) : Z :=
  match js_get (parent uf) (JNum i) with JNum p => p | _ => -1 end.

Definition rkZ (uf : UnionFind) (i : Z) : Z :=
  match js_get (rank uf) (JNum i) with JNum r => r | _ => -1 end.

Definition in_range (n : nat) (i : Z) : Prop := 0 <= i < Z.of_nat n.

(** Indices of [0 .. n-1] that are their own parent. *)
Definition roots (n : nat) (uf : UnionFind) : list Z :=
  filter (fun i => parZ uf i = i) (indices n).

Definition num_roots (n : nat) (uf : UnionFind) : Z :=
  Z.of_nat (length (roots n uf)).

(** [root_of uf i r]: the parent chain of [i] ends at the root [r]. *)
Inductive root_of (uf : UnionFind) : Z -> Z -> Prop :=
| root_self i : parZ uf i = i -> root_of uf i i
| root_step i r : parZ uf i <> i -> root_of uf (parZ uf i) r -> root_of uf i r.

(** The store of a union-find over [n] elements as the class keeps it:
    parents are indices, ranks grow strictly towards the root and are
    bounded by the number of merges done so far. *)
Record uf_inv (n : nat) (uf : UnionFind) : Prop := mk_uf_inv {
  inv_parent : forall i, in_range n i -> in_range n (parZ uf i);
  inv_rank : forall i, in_range n i -> 0 <= rkZ uf i;
  inv_rank_inc : forall i, in_range n i ->
    parZ uf i <> i -> rkZ uf i < rkZ uf (parZ uf i);
  inv_rank_bound : forall i, in_range n i ->
    rkZ uf i + num_roots n uf <= Z.of_nat n
}.

(** Two stores that describe the same partition with the same ranks. *)
Record same_forest (uf uf' : UnionFind) : Prop := mk_same_forest {
  sf_rank : rank uf' = rank uf;
  sf_root : forall i r, root_of uf' i r <-> root_of uf i r;
  sf_is_root : forall i, parZ uf' i = i <-> parZ uf i = i
}.

Definition same_set (uf : UnionFind) (i j : Z) : Prop :=
  exists r, root_of uf i r /\ root_of uf j r.

(** What a merge does to the roots: the elements below the losing root [a]
    move to the winning root [w]. *)
Definition merged (uf uf' : UnionFind) (a w : Z) : Prop :=
  forall i r, root_of uf' i r <->
    (root_of uf i r /\ r <> a) \/ (root_of uf i a /\ r = w).

(** ** Graphs as the solver sees them *)

Definition adjacent (es : list Edge.t) (i j : Z) : Prop :=
  exists e, e ∈ es /\
    ((Edge.v1 e = i /\ Edge.v2 e = j) \/ (Edge.v1 e = j /\ Edge.v2 e = i)).

(** The graph on the vertices [0 .. n-1] with edge list [es] is connected. *)
Definition graph_connected (n : nat) (es : list Edge.t) : Prop :=
  forall i j, in_range n i -> in_range n j -> rtc (adjacent es) i j.

(** Every edge joins two vertices of [0 .. n-1]. *)
Definition valid_edges (n : nat) (es : list Edge.t) : Prop :=
  forall e, e ∈ es -> in_range n (Edge.v1 e) /\ in_range n (Edge.v2 e).

Definition valid_edgesb (n : nat) (es : list Edge.t) : bool :=
  forallb (fun e =>
    (0 <=? Edge.v1 e) && (Edge.v1 e <? Z.of_nat n) &&
    (0 <=? Edge.v2 e) && (Edge.v2 e <? Z.of_nat n)) es.

Definition weight_le (a b : Edge.t) : Prop := Edge.weight a <= Edge.weight b.

(** The edges of weight [w], in list order. *)
Definition of_weight (w : Z) (l : list Edge.t) : list Edge.t :=
  filter (fun e => Edge.weight e = w) l.

(** ** Distances *)

(** Euclidean distance from the vertex [v] to the point [(x, y)]. *)
Definition distance (v : Vertex.t) (x y : Q) : R :=
  sqrt (Q2R (norm2 (Vertex.x v - x) (Vertex.y v - y))).

(** ** Outcomes of edge creation as the specification names them *)



(** The value [addEdge] hands back to its caller. *)
Definition addEdge_ret (g : Graph) (a b : Z) : bool := fst (fst (addEdge g a b)).

Definition addEdge_log (g : Graph) (a b : Z) : LogMsg := snd (fst (addEdge g a b)).

Definition addEdge_graph (g : Graph) (a b : Z) : Graph := snd (addEdge g a b).

(** Two edges join the same unordered pair of vertices. *)
Definition same_pair (e1 e2 : Edge.t) : Prop :=
  (Edge.v1 e1 = Edge.v1 e2 /\ Edge.v2 e1 = Edge.v2 e2) \/
  (Edge.v1 e1 = Edge.v2 e2 /\ Edge.v2 e1 = Edge.v1 e2).

Definition no_self_loop (g : Graph) : Prop :=
  forall e, e ∈ edges g -> Edge.v1 e <> Edge.v2 e.

Definition no_duplicate_pair (g : Graph) : Prop :=
  forall (i j : nat) e1 e2,
    edges g !! i = Some e1 -> edges g !! j = Some e2 -> i <> j -> ~ same_pair e1 e2.

(** What the edge list of a graph built by requests satisfies. *)
Record graph_inv (g : Graph) : Prop := mk_graph_inv {
  gi_ordered : forall e, e ∈ edges g ->
    0 <= Edge.v1 e /\ Edge.v1 e < Edge.v2 e /\ Edge.v2 e < Z.of_nat (length (vertices g));
  gi_nodup : NoDup ((fun e => (Edge.v1 e, Edge.v2 e)) <$> edges g)
}.

(** The stores a union-find over [n] elements can be in: fresh, or after a
    [find] or a [union] on elements of [0 .. n-1]. *)
Inductive reachable (fuel n : nat) : UnionFind -> Prop :=
| reach_new : reachable fuel n (new_UnionFind n)
| reach_find uf x r uf' :
    reachable fuel n uf -> in_range n x ->
    find fuel uf (JNum x) = Some (r, uf') -> reachable fuel n uf'
| reach_union uf x y b uf' :
    reachable fuel n uf -> in_range n x -> in_range n y ->
    union fuel uf (JNum x) (JNum y) = Some (b, uf') -> reachable fuel n uf'.

(** The store [uf] over [n] elements with one more element [n], alone in
    its set. *)
Definition extend (n : nat) (uf : UnionFind) : UnionFind :=
  {| parent := <[JNum (Z.of_nat n) := JNum (Z.of_nat n)]> (parent uf);
     rank := <[JNum (Z.of_nat n) := JNum 0]> (rank uf) |}.

(** ** Further notions used to state what the code keeps *)

(** The squared distance [findClosestVertex] measures: from the click to
    the base of the building, sixteen pixels below the vertex. *)
Definition base_dist2 (v : Vertex.t) (x y : Q) : Q :=
  norm2 (Vertex.x v - x) (Vertex.y v + 32 / 2 - y).

(** The [isMST] test of [render]: some edge of the cached tree joins the
    same two vertices as [edge]. *)
Definition isMST (mst : list Edge.t) (edge : Edge.t) : bool :=
  existsb (fun e =>
    (Z.eqb (Edge.v1 e) (Edge.v1 edge) && Z.eqb (Edge.v2 e) (Edge.v2 edge)) ||
    (Z.eqb (Edge.v1 e) (Edge.v2 edge) && Z.eqb (Edge.v2 e) (Edge.v1 edge))) mst.

(** An edge list without cycle: each edge joins two vertices that the edges
    before it leave apart. *)
Inductive forest : list Edge.t -> Prop :=
| forest_nil : forest []
| forest_snoc l e :
    forest l -> ~ rtc (adjacent l) (Edge.v1 e) (Edge.v2 e) -> forest (l ++ [e]).

(** Any two stored vertices are at least [MIN_DISTANCE] apart. *)
Definition separated (vs : list Vertex.t) : Prop :=
  forall (i j : nat) vi vj,
    vs !! i = Some vi -> vs !! j = Some vj -> i <> j ->
    (30 <= distance vi (Vertex.x vj) (Vertex.y vj))%R.

(** The weight of [e] is the rounded distance between its two vertices. *)
Definition weight_of_distance (vs : list Vertex.t) (e : Edge.t) : Prop :=
  exists va vb,
    vertex_at vs (Edge.v1 e) = Some va /\ vertex_at vs (Edge.v2 e) = Some vb /\
    (IZR (Edge.weight e) - / 2 <= distance va (Vertex.x vb) (Vertex.y vb)
       < IZR (Edge.weight e) + / 2)%R.

(** What a graph built by requests keeps, beyond the shape of its edge list. *)
Record store_inv (g : Graph) : Prop := mk_store_inv {
  si_graph : graph_inv g;
  si_separated : separated (vertices g);
  si_weights : forall e, e ∈ edges g -> weight_of_distance (vertices g) e
}.

(** What the application's state satisfies after any events. *)
Record app_inv (fuel : nat) (app : PipelineApp) : Prop := mk_app_inv {
  ai_graph : store_inv (graph app);
  ai_building : mode app = addBuilding -> selectedVertex app = None;
  ai_connection : mode app = addConnection ->
    2 <= Z.of_nat (length (vertices (graph app)));
  ai_selected : forall s, selectedVertex app = Some s ->
    0 <= s < Z.of_nat (length (vertices (graph app)));
  ai_cache : mstEdges app = [] \/ findMST fuel (graph app) = Some (mstEdges app)
}.

(** ** The numeric tests in IEEE doubles

    The graph store above computes with exact rationals.  JavaScript numbers
    are binary64 doubles, and near a threshold the rounding of [dx * dx],
    of the sum and of [Math.sqrt] can decide the other way.  The functions
    that compare a computed distance are embedded here once more on Rocq's
    primitive binary64 floats, operation by operation as the source writes
    them. *)

Module Double.

Import PrimFloat FloatOps SpecFloat.

Module Vertex.
Record t : Type := mk { x : float; y : float }.
End Vertex.

(** [Math.sqrt(dx * dx + dy * dy)] for [dx = v.x - x], [dy = v.y - y]. *)
Definition computed_distance (v : Vertex.t) (x y : float) : float :=
  let dx := (Vertex.x v - x)%float in
  let dy := (Vertex.y v - y)%float in
  sqrt (dx * dx + dy * dy)%float.

Definition MIN_DISTANCE : float := 30%float.

(** [d < MIN_DISTANCE] and [a < b], [a <= b] on doubles. *)
Definition below_MIN_DISTANCE (d : float) : bool := (d <? MIN_DISTANCE)%float.

Definition lt (a b : float) : bool := (a <? b)%float.

Definition le (a b : float) : bool := (a <=? b)%float.

Definition tooClose (vs : list Vertex.t) (x y : float) : bool :=
  existsb (fun v =>
    let dx := (Vertex.x v - x)%float in
    let dy := (Vertex.y v - y)%float in
    (sqrt (dx * dx + dy * dy) <? MIN_DISTANCE)%float) vs.

(** [addVertex(x, y)] on the vertex list: the returned index (or -1) and
    the list after. *)
Definition addVertex (vs : list Vertex.t) (x y : float) : Z * list Vertex.t :=
  if tooClose vs x y then (-1, vs)
  else
    let vs' := vs ++ [Vertex.mk x y] in
    (Z.of_nat (length vs') - 1, vs').

(** The vertex list after [addVertex] at each of the given points in turn. *)
Definition insert_all (vs : list Vertex.t) (pts : list (float * float))
  : list Vertex.t :=
  fold_left (fun vs p => snd (addVertex vs (fst p) (snd p))) pts vs.

(** [distanceSq] of [findClosestVertex]. *)
Definition base_dist2 (vertex : Vertex.t) (x y : float) : float :=
  let baseY := (Vertex.y vertex + 32 / 2)%float in
  let dx := (Vertex.x vertex - x)%float in
  let dy := (baseY - y)%float in
  (dx * dx + dy * dy)%float.

(** [maxDistance * maxDistance] for the default [maxDistance = 40]. *)
Definition maxDistance2 : float := (40 * 40)%float.

(** The [forEach] of [findClosestVertex], from position [index] on. *)
Fixpoint closest_from (index : Z) (vs : list Vertex.t) (x y : float)
  (closestDist : float) (closestIndex : option Z) : option Z :=
  match vs with
  | [] => closestIndex
  | vertex :: rest =>
      let baseY := (Vertex.y vertex + 32 / 2)%float in
      let dx := (Vertex.x vertex - x)%float in
      let dy := (baseY - y)%float in
      let distanceSq := (dx * dx + dy * dy)%float in
      if (distanceSq <? closestDist)%float
      then closest_from (index + 1) rest x y distanceSq (Some index)
      else closest_from (index + 1) rest x y closestDist closestIndex
  end.

Definition findClosestVertex (vs : list Vertex.t) (x y : float) : option Z :=
  closest_from 0 vs x y maxDistance2 None.


(** Some doubles: 0, 30, the double just below 30, 1.75 * 2^-22, the double
    nearest to 29.999, -2^-50, 16.638671875, 24.963064680364948, 100 and
    16. *)
Definition zero : float := 0%float.
Definition hundred : float := 100%float.
Definition sixteen : float := 16%float.

End Double.


(** A vertex list in which every vertex passed the test of [addVertex]
    against each vertex before it. *)
Definition passes_test (vs : list Double.Vertex.t) : Prop :=
  forall (i j : nat) (vi vj : Double.Vertex.t),
    (i < j)%nat -> vs !! i = Some vi -> vs !! j = Some vj ->
    Double.below_MIN_DISTANCE
      (Double.computed_distance vi (Double.Vertex.x vj) (Double.Vertex.y vj)) = false.

(** What the loop of [findClosestVertex] knows after the vertices [pre]. *)
Definition closest_state (x y : PrimFloat.float) (pre : list Double.Vertex.t)
  (closestDist : PrimFloat.float) (closestIndex : option Z) : Prop :=
  (forall w, w ∈ pre -> Double.lt (Double.base_dist2 w x y) closestDist = false) /\
  match closestIndex with
  | None => closestDist = Double.maxDistance2
  | Some i =>
      exists v, 0 <= i /\ pre !! Z.to_nat i = Some v /\
        closestDist = Double.base_dist2 v x y /\
        Double.lt (Double.base_dist2 v x y) Double.maxDistance2 = true /\
        (forall j w, (j < Z.to_nat i)%nat -> pre !! j = Some w ->
           Double.le (Double.base_dist2 w x y) (Double.base_dist2 v x y) = false)
  end.

(** What [findClosestVertex] answers on the vertices [vs]. *)
Definition closest_answer (x y : PrimFloat.float) (vs : list Double.Vertex.t)
  (r : option Z) : Prop :=
  match r with
  | None =>
      forall w, w ∈ vs -> Double.lt (Double.base_dist2 w x y) Double.maxDistance2 = false
  | Some i =>
      exists v, 0 <= i /\ vs !! Z.to_nat i = Some v /\
        Double.lt (Double.base_dist2 v x y) Double.maxDistance2 = true /\
        (forall w, w ∈ vs ->
           Double.lt (Double.base_dist2 w x y) (Double.base_dist2 v x y) = false) /\
        (forall j w, (j < Z.to_nat i)%nat -> vs !! j = Some w ->
           Double.le (Double.base_dist2 w x y) (Double.base_dist2 v x y) = false)
  end.

(** ** [addEdge] called with any two numbers

    [addEdge] above takes two integers, which is what the click handler
    passes.  JavaScript lets a caller pass any number; here the two
    arguments are finite numbers, integers or not.  [this.vertices[v]] is
    [undefined] when [v] is not an integer, and reading [.x] of [undefined]
    throws inside the [try]. *)

(** The branch [addEdge] leaves by. *)
Inductive Branch : Type :=
| Invalid
| AlreadyExists
| Added
| Caught.

Definition is_integer (q : Q) : bool := Qeq_bool q (inject_Z (Qfloor q)).

(** [vertices[q]] for a number [q]. *)
Definition number_vertex_at (vs : list Vertex.t) (q : Q) : option Vertex.t :=
  if is_integer q then vertex_at vs (Qfloor q) else None.

Definition edge_exists_number (es : list Edge.t) (v1 v2 : Q) : bool :=
  existsb (fun edge =>
    (Qeq_bool (inject_Z (Edge.v1 edge)) v1 && Qeq_bool (inject_Z (Edge.v2 edge)) v2) ||
    (Qeq_bool (inject_Z (Edge.v1 edge)) v2 && Qeq_bool (inject_Z (Edge.v2 edge)) v1)) es.

(** [addEdge(v1, v2)]: returned boolean, branch, graph after. *)
Definition addEdge_number (g : Graph) (v1 v2 : Q) : bool * Branch * Graph :=
  if Qeq_bool v1 v2 || Qltb v1 0 || Qltb v2 0
     || Qle_bool (inject_Z (Z.of_nat (length (vertices g)))) v1
     || Qle_bool (inject_Z (Z.of_nat (length (vertices g)))) v2
  then (false, Invalid, g)
  else if negb (edge_exists_number (edges g) v1 v2) then
    match number_vertex_at (vertices g) v1, number_vertex_at (vertices g) v2 with
    | Some vertex1, Some vertex2 =>
        let dx := (Vertex.x vertex1 - Vertex.x vertex2)%Q in
        let dy := (Vertex.y vertex1 - Vertex.y vertex2)%Q in
        let weight := round_sqrt (norm2 dx dy) in
        (true, Added,
         {| vertices := vertices g;
            edges := edges g ++
              [Edge.mk (Z.min (Qfloor v1) (Qfloor v2)) (Z.max (Qfloor v1) (Qfloor v2))
                 weight] |})
    | _, _ => (false, Caught, g)
    end
  else (false, AlreadyExists, g).

(** The branch that a console line of [addEdge] tells. *)
Definition branch_of (m : LogMsg) : Branch :=
  match m with
  | InvalidVertices _ _ => Invalid
  | AddedEdge _ _ _ => Added
  | ErrorAddingEdge => Caught
  | EdgeAlreadyExists _ _ => AlreadyExists
  end.

Section UnionFindFacts.

Lemma js_get_insert (m : gmap jsval jsval) k v k' :
  js_get (<[k := v]> m) k' = if decide (k = k') then v else js_get m k'.
Proof.
  unfold js_get. rewrite lookup_insert. destruct (decide (k = k')); reflexivity.
Qed.

Lemma js_strict_eq_num a b : js_strict_eq (JNum a) (JNum b) = bool_decide (a = b).
Proof.
  unfold js_strict_eq. apply bool_decide_ext. split; [intros [= ->]|intros ->]; auto.
Qed.

Lemma get_parent uf i :
  0 <= parZ uf i -> js_get (parent uf) (JNum i) = JNum (parZ uf i).
Proof. unfold parZ. destruct (js_get (parent uf) (JNum i)); intros; try lia; reflexivity. Qed.

Lemma get_rank uf i :
  0 <= rkZ uf i -> js_get (rank uf) (JNum i) = JNum (rkZ uf i).
Proof. unfold rkZ. destruct (js_get (rank uf) (JNum i)); intros; try lia; reflexivity. Qed.

Lemma parZ_set_parent uf i r j :
  parZ (set_parent uf (JNum i) (JNum r)) j = if decide (j = i) then r else parZ uf j.
Proof.
  unfold parZ, set_parent; simpl. rewrite js_get_insert.
  destruct (decide (j = i)) as [->|Hne].
  - rewrite decide_True; reflexivity.
  - rewrite decide_False; [reflexivity|congruence].
Qed.

Lemma rkZ_set_rank uf i r j :
  rkZ (set_rank uf (JNum i) (JNum r)) j = if decide (j = i) then r else rkZ uf j.
Proof.
  unfold rkZ, set_rank; simpl. rewrite js_get_insert.
  destruct (decide (j = i)) as [->|Hne].
  - rewrite decide_True; reflexivity.
  - rewrite decide_False; [reflexivity|congruence].
Qed.

Lemma root_of_is_root uf i r : root_of uf i r -> parZ uf r = r.
Proof. induction 1; auto. Qed.

Lemma root_of_fun uf i r s : root_of uf i r -> root_of uf i s -> r = s.
Proof.
  intros Hr. revert s. induction Hr as [i Hi|i r Hi Hr IH]; intros s Hs.
  - inversion Hs; subst; [reflexivity|contradiction].
  - inversion Hs; subst; [contradiction|]. auto.
Qed.

Lemma root_of_root uf r s : parZ uf r = r -> root_of uf r s -> s = r.
Proof. intros Hr Hs. symmetry. eapply root_of_fun; [apply root_self|]; eauto. Qed.

Lemma filter_ext_in {A} (P Q : A -> Prop)
  `{forall a, Decision (P a)} `{forall a, Decision (Q a)} (l : list A) :
  (forall a, a ∈ l -> (P a <-> Q a)) -> filter P l = filter Q l.
Proof.
  induction l as [|a l IH]; intros Hl; [reflexivity|].
  rewrite !filter_cons.
  assert (P a <-> Q a) as Ha by (apply Hl; left).
  rewrite IH by (intros; apply Hl; right; assumption).
  destruct (decide (P a)), (decide (Q a)); tauto.
Qed.

(** Dropping one element of a duplicate-free list from a filter. *)
Lemma filter_drop_one {A} (P Q : A -> Prop)
  `{forall a, Decision (P a)} `{forall a, Decision (Q a)} (l : list A) (x : A) :
  NoDup l -> x ∈ l -> P x -> ~ Q x ->
  (forall a, a ∈ l -> a <> x -> (P a <-> Q a)) ->
  length (filter P l) = S (length (filter Q l)).
Proof.
  induction 1 as [|a l Ha Hnd IH]; intros Hx HP HQ Hext.
  - inversion Hx.
  - rewrite !filter_cons. apply elem_of_cons in Hx as [->|Hx].
    + rewrite decide_True by assumption. rewrite decide_False by assumption.
      simpl. f_equal. f_equal. apply filter_ext_in.
      intros b Hb. apply Hext; [right; assumption|]. intros ->. contradiction.
    + assert (a <> x) as Hax by (intros ->; contradiction).
      assert (P a <-> Q a) as Hpq by (apply Hext; [left|assumption]).
      assert (length (filter P l) = S (length (filter Q l))) as E.
      { apply IH; try assumption.
        intros b Hb Hbx. apply Hext; [right; assumption|assumption]. }
      destruct (decide (P a)), (decide (Q a)); try tauto; simpl; lia.
Qed.

Variable n : nat.

Lemma elem_of_roots uf r : r ∈ roots n uf <-> in_range n r /\ parZ uf r = r.
Proof.
  unfold roots, indices, in_range. rewrite list_elem_of_filter, elem_of_seqZ. lia.
Qed.

Lemma roots_ext uf uf' :
  (forall i, parZ uf' i = i <-> parZ uf i = i) -> roots n uf' = roots n uf.
Proof. intros H. apply filter_ext_in. intros a _. apply H. Qed.

Lemma root_of_in_range uf i r :
  uf_inv n uf -> in_range n i -> root_of uf i r -> in_range n r.
Proof.
  intros Hinv Hi Hr. induction Hr as [i Hp|i r Hp Hr IH]; [exact Hi|].
  apply IH. apply (inv_parent _ _ Hinv i Hi).
Qed.

Lemma root_of_rank uf i r :
  uf_inv n uf -> in_range n i -> root_of uf i r ->
  rkZ uf i <= rkZ uf r /\ (parZ uf i <> i -> rkZ uf i < rkZ uf r).
Proof.
  intros Hinv Hi Hr. induction Hr as [i Hp|i r Hp Hr IH].
  - split; [lia|contradiction].
  - pose proof (inv_rank_inc _ _ Hinv i Hi Hp) as Hlt.
    destruct IH as [IH _]; [apply (inv_parent _ _ Hinv i Hi)|]. lia.
Qed.

Lemma root_of_neq uf i r :
  uf_inv n uf -> in_range n i -> root_of uf i r -> parZ uf i <> i -> r <> i.
Proof.
  intros Hinv Hi Hr Hp ->. destruct (root_of_rank _ _ _ Hinv Hi Hr) as [_ H].
  specialize (H Hp). lia.
Qed.

(** Every element has a root, reached in at most [n - rank] steps. *)
Lemma root_exists uf :
  uf_inv n uf ->
  forall (k : nat) i, in_range n i -> Z.of_nat n - rkZ uf i <= Z.of_nat k ->
  exists r, root_of uf i r.
Proof.
  intros Hinv. induction k as [|k IH]; intros i Hi Hk.
  - pose proof (inv_rank_bound _ _ Hinv i Hi) as Hb.
    destruct (decide (parZ uf i = i)) as [Hp|Hp].
    + exists i. apply root_self, Hp.
    + pose proof (inv_rank_inc _ _ Hinv i Hi Hp).
      pose proof (inv_parent _ _ Hinv i Hi) as Hpr.
      pose proof (inv_rank_bound _ _ Hinv _ Hpr). unfold num_roots in *. lia.
  - destruct (decide (parZ uf i = i)) as [Hp|Hp].
    + exists i. apply root_self, Hp.
    + pose proof (inv_rank_inc _ _ Hinv i Hi Hp).
      pose proof (inv_parent _ _ Hinv i Hi) as Hpr.
      destruct (IH _ Hpr) as [r Hr]; [lia|].
      exists r. apply root_step; assumption.
Qed.

Lemma root_total uf i :
  uf_inv n uf -> in_range n i -> exists r, root_of uf i r.
Proof.
  intros Hinv Hi. apply (root_exists uf Hinv (n + Z.to_nat (Z.abs (rkZ uf i))) i Hi). lia.
Qed.

Lemma num_roots_pos uf i : uf_inv n uf -> in_range n i -> 1 <= num_roots n uf.
Proof.
  intros Hinv Hi. destruct (root_total uf i Hinv Hi) as [r Hr].
  assert (r ∈ roots n uf) as Hin.
  { apply elem_of_roots. split; [eapply root_of_in_range|eapply root_of_is_root]; eauto. }
  unfold num_roots. destruct (roots n uf); [inversion Hin|simpl; lia].
Qed.

(** Path compression: pointing a non-root element at its root. *)
Lemma compress_spec uf uf' i r :
  uf_inv n uf -> in_range n i -> root_of uf i r -> parZ uf i <> i ->
  (forall j, parZ uf' j = if decide (j = i) then r else parZ uf j) ->
  rank uf' = rank uf ->
  uf_inv n uf' /\ same_forest uf uf'.
Proof.
  intros Hinv Hi Hr Hp Hpar Hrk.
  assert (r <> i) as Hri by (eapply root_of_neq; eauto).
  assert (parZ uf r = r) as Hrr by (eapply root_of_is_root; eauto).
  assert (forall j, rkZ uf' j = rkZ uf j) as Hrkz by (intros; unfold rkZ; rewrite Hrk; reflexivity).
  assert (forall j, parZ uf' j = j <-> parZ uf j = j) as Hroot.
  { intros j. rewrite Hpar. destruct (decide (j = i)) as [->|]; [|tauto]. split; congruence. }
  assert (same_forest uf uf') as Hsf.
  { split; [assumption| |assumption].
    intros j s. split.
    - induction 1 as [j Hj|j s Hj Hs IH].
      + apply root_self. apply Hroot, Hj.
      + rewrite Hpar in IH. destruct (decide (j = i)) as [->|Hne].
        * apply (root_of_root _ _ _ Hrr) in IH. subst s. exact Hr.
        * apply root_step; [rewrite <- Hroot; exact Hj|exact IH].
    - induction 1 as [j Hj|j s Hj Hs IH].
      + apply root_self. apply Hroot, Hj.
      + destruct (decide (j = i)) as [->|Hne].
        * assert (s = r) as -> by (eapply root_of_fun; [eapply root_step|]; eauto).
          apply root_step; [rewrite Hroot; exact Hj|].
          rewrite Hpar, decide_True by reflexivity.
          apply root_self. apply Hroot, Hrr.
        * apply root_step; [rewrite Hroot; exact Hj|].
          rewrite Hpar, decide_False by assumption. exact IH. }
  split; [|exact Hsf].
  assert (num_roots n uf' = num_roots n uf) as Hnr.
  { unfold num_roots. rewrite (roots_ext uf uf' Hroot). reflexivity. }
  split.
  - intros j Hj. rewrite Hpar. destruct (decide (j = i)).
    + exact (root_of_in_range uf i r Hinv Hi Hr).
    + apply (inv_parent _ _ Hinv j Hj).
  - intros j Hj. rewrite Hrkz. apply (inv_rank _ _ Hinv j Hj).
  - intros j Hj. rewrite Hpar, !Hrkz. destruct (decide (j = i)) as [->|Hne].
    + intros _. apply (root_of_rank _ _ _ Hinv Hi Hr), Hp.
    + apply (inv_rank_inc _ _ Hinv j Hj).
  - intros j Hj. rewrite Hrkz, Hnr. apply (inv_rank_bound _ _ Hinv j Hj).
Qed.

Lemma same_forest_refl uf : same_forest uf uf.
Proof. split; intros; tauto. Qed.

Lemma same_forest_trans uf1 uf2 uf3 :
  same_forest uf1 uf2 -> same_forest uf2 uf3 -> same_forest uf1 uf3.
Proof.
  intros [R1 T1 P1] [R2 T2 P2]. split.
  - congruence.
  - intros i r. rewrite T2. apply T1.
  - intros i. rewrite P2. apply P1.
Qed.

(** [find] on an element of a well-formed store returns its root, within
    [n - rank] nested calls, and only compresses paths. *)
Lemma find_spec fuel : forall uf i,
  uf_inv n uf -> in_range n i -> Z.of_nat n - rkZ uf i <= Z.of_nat fuel ->
  exists r uf', find fuel uf (JNum i) = Some (JNum r, uf') /\
    root_of uf i r /\ uf_inv n uf' /\ same_forest uf uf'.
Proof.
  induction fuel as [|fuel IH]; intros uf i Hinv Hi Hfuel.
  - pose proof (inv_rank_bound _ _ Hinv i Hi).
    pose proof (num_roots_pos uf i Hinv Hi). lia.
  - pose proof (inv_parent _ _ Hinv i Hi) as Hp.
    simpl. rewrite get_parent by (apply Hp). rewrite js_strict_eq_num.
    destruct (bool_decide_reflect (parZ uf i = i)) as [Heq|Hne].
    + exists i, uf. split; [reflexivity|]. split; [apply root_self, Heq|].
      split; [assumption|apply same_forest_refl].
    + pose proof (inv_rank_inc _ _ Hinv i Hi Hne) as Hlt.
      destruct (IH uf (parZ uf i) Hinv Hp) as (r & uf1 & Hf & Hr & Hinv1 & Hsf1); [lia|].
      rewrite Hf. exists r, (set_parent uf1 (JNum i) (JNum r)).
      assert (root_of uf i r) as Hri by (apply root_step; assumption).
      destruct (compress_spec uf1 (set_parent uf1 (JNum i) (JNum r)) i r) as [Hinv2 Hsf2];
        try assumption.
      * apply (sf_root _ _ Hsf1), Hri.
      * rewrite (sf_is_root _ _ Hsf1). exact Hne.
      * intros j. apply parZ_set_parent.
      * reflexivity.
      * split; [reflexivity|]. split; [assumption|]. split; [assumption|].
        eapply same_forest_trans; eassumption.
Qed.

(** Linking a root [a] under another root [b], whose rank ends above. *)
Lemma link_spec uf uf' a b :
  uf_inv n uf -> in_range n a -> in_range n b ->
  parZ uf a = a -> parZ uf b = b -> a <> b ->
  (forall j, parZ uf' j = if decide (j = a) then b else parZ uf j) ->
  (forall j, j <> b -> rkZ uf' j = rkZ uf j) ->
  rkZ uf b <= rkZ uf' b <= rkZ uf b + 1 -> rkZ uf a < rkZ uf' b ->
  uf_inv n uf' /\ num_roots n uf' = num_roots n uf - 1 /\
  (forall i r, root_of uf' i r <->
     (root_of uf i r /\ r <> a) \/ (root_of uf i a /\ r = b)).
Proof.
  intros Hinv Ha Hb Hpa Hpb Hab Hpar Hrk Hrb Hlt.
  assert (forall j, j <> a -> parZ uf' j = parZ uf j) as Hpar'.
  { intros j Hj. rewrite Hpar, decide_False by assumption. reflexivity. }
  assert (parZ uf' a = b) as Hpa' by (rewrite Hpar, decide_True; reflexivity).
  assert (forall j, rkZ uf j <= rkZ uf' j <= rkZ uf j + 1) as Hrk'.
  { intros j. destruct (decide (j = b)) as [->|Hj]; [lia|]. rewrite Hrk by assumption. lia. }
  assert (num_roots n uf' = num_roots n uf - 1) as Hnr.
  { unfold num_roots, roots.
    rewrite (filter_drop_one (fun i => parZ uf i = i) (fun i => parZ uf' i = i) (indices n) a).
    - lia.
    - apply NoDup_seqZ.
    - unfold indices, in_range in *. apply elem_of_seqZ. lia.
    - exact Hpa.
    - rewrite Hpa'. congruence.
    - intros j _ Hj. rewrite Hpar' by assumption. tauto. }
  split; [|split; [exact Hnr|]].
  - split.
    + intros j Hj. destruct (decide (j = a)) as [->|Hja].
      * rewrite Hpa'. exact Hb.
      * rewrite Hpar' by assumption. apply (inv_parent _ _ Hinv j Hj).
    + intros j Hj. pose proof (inv_rank _ _ Hinv j Hj). specialize (Hrk' j). lia.
    + intros j Hj. destruct (decide (j = a)) as [->|Hja].
      * rewrite Hpa'. intros _. rewrite (Hrk a) by assumption. exact Hlt.
      * rewrite Hpar' by assumption. intros Hne.
        pose proof (inv_rank_inc _ _ Hinv j Hj Hne).
        assert (j <> b) as Hjb by congruence.
        rewrite (Hrk j) by assumption. specialize (Hrk' (parZ uf j)). lia.
    + intros j Hj. pose proof (inv_rank_bound _ _ Hinv j Hj). specialize (Hrk' j). lia.
  - intros i r. split.
    + induction 1 as [i Hi|i r Hi Hr IH].
      * assert (i <> a) as Hia by congruence.
        left. split; [|exact Hia]. apply root_self. rewrite <- Hpar'; assumption.
      * destruct (decide (i = a)) as [->|Hia].
        -- rewrite Hpa' in IH. right. split; [apply root_self, Hpa|].
           destruct IH as [[IH _]|[IH _]].
           ++ eapply root_of_root; eassumption.
           ++ apply (root_of_root _ _ _ Hpb) in IH. congruence.
        -- rewrite Hpar' in Hi, IH by assumption.
           destruct IH as [[IH Hra]|[IH ->]]; [left|right];
             (split; [apply root_step; assumption|auto]).
    + intros [[Hr Hra]|[Hr ->]].
      * induction Hr as [i Hi|i r Hi Hr IH].
        -- apply root_self. rewrite Hpar'; assumption.
        -- assert (i <> a) as Hia by congruence.
           apply root_step; rewrite Hpar' by assumption; auto.
      * assert (forall s, root_of uf i s -> s = a -> root_of uf' i b) as Haux;
          [|exact (Haux a Hr eq_refl)].
        clear Hr. intros s Hs. induction Hs as [i Hi|i s Hi Hs IH]; intros Es.
        -- subst i. apply root_step; [congruence|]. rewrite Hpa'.
           apply root_self. rewrite Hpar' by congruence. exact Hpb.
        -- assert (i <> a) as Hia by congruence.
           apply root_step; rewrite Hpar' by assumption; auto.
Qed.

Lemma union_spec fuel uf x y :
  uf_inv n uf -> in_range n x -> in_range n y -> (n <= fuel)%nat ->
  exists b uf' rx ry,
    union fuel uf (JNum x) (JNum y) = Some (b, uf') /\ uf_inv n uf' /\
    root_of uf x rx /\ root_of uf y ry /\
    ((b = false /\ rx = ry /\ same_forest uf uf') \/
     (b = true /\ rx <> ry /\ num_roots n uf' = num_roots n uf - 1 /\
      (merged uf uf' rx ry \/ merged uf uf' ry rx))).
Proof.
  intros Hinv Hx Hy Hfuel.
  pose proof (inv_rank _ _ Hinv x Hx) as Hrx0.
  destruct (find_spec fuel uf x Hinv Hx) as (rx & uf1 & Hf1 & Hrx & Hinv1 & Hsf1); [lia|].
  pose proof (inv_rank _ _ Hinv1 y Hy) as Hry0.
  destruct (find_spec fuel uf1 y Hinv1 Hy) as (ry & uf2 & Hf2 & Hry & Hinv2 & Hsf2); [lia|].
  pose proof (same_forest_trans _ _ _ Hsf1 Hsf2) as Hsf.
  apply (sf_root _ _ Hsf1) in Hry.
  assert (in_range n rx) as Hrxr by exact (root_of_in_range uf x rx Hinv Hx Hrx).
  assert (in_range n ry) as Hryr by exact (root_of_in_range uf y ry Hinv Hy Hry).
  assert (parZ uf2 rx = rx) as Hprx.
  { apply (sf_is_root _ _ Hsf). eapply root_of_is_root; eauto. }
  assert (parZ uf2 ry = ry) as Hpry.
  { apply (sf_is_root _ _ Hsf). eapply root_of_is_root; eauto. }
  assert (num_roots n uf2 = num_roots n uf) as Hnr.
  { unfold num_roots. rewrite (roots_ext uf uf2); [reflexivity|]. apply (sf_is_root _ _ Hsf). }
  assert (forall a w uf', merged uf2 uf' a w -> merged uf uf' a w) as Hmerged.
  { intros a w uf' Hm i r. rewrite (Hm i r), !(sf_root _ _ Hsf). tauto. }
  unfold union. rewrite Hf1, Hf2, js_strict_eq_num.
  destruct (bool_decide_reflect (rx = ry)) as [Heq|Hne].
  { exists false, uf2, rx, ry. do 4 (split; [auto|]). left. auto. }
  pose proof (inv_rank _ _ Hinv2 rx Hrxr) as H0x.
  pose proof (inv_rank _ _ Hinv2 ry Hryr) as H0y.
  rewrite !get_rank by assumption. simpl js_lt.
  destruct (Z.ltb_spec (rkZ uf2 rx) (rkZ uf2 ry)) as [Hlt|Hge].
  { destruct (link_spec uf2 (set_parent uf2 (JNum rx) (JNum ry)) rx ry)
      as (Hinv3 & Hnr3 & Hm); try assumption.
    - intros j. apply parZ_set_parent.
    - reflexivity.
    - change (rkZ (set_parent uf2 (JNum rx) (JNum ry)) ry) with (rkZ uf2 ry). lia.
    - eexists true, _, rx, ry. do 4 (split; [eauto|]). right.
      split; [reflexivity|]. split; [assumption|]. split; [lia|]. left. apply Hmerged; exact Hm. }
  destruct (Z.ltb_spec (rkZ uf2 ry) (rkZ uf2 rx)) as [Hlt|Hge'].
  { destruct (link_spec uf2 (set_parent uf2 (JNum ry) (JNum rx)) ry rx)
      as (Hinv3 & Hnr3 & Hm); try assumption; try congruence.
    - intros j. apply parZ_set_parent.
    - reflexivity.
    - change (rkZ (set_parent uf2 (JNum ry) (JNum rx)) rx) with (rkZ uf2 rx). lia.
    - eexists true, _, rx, ry. do 4 (split; [eauto|]). right.
      split; [reflexivity|]. split; [assumption|]. split; [lia|]. right. apply Hmerged; exact Hm. }
  cbv zeta. change (rkZ (set_parent uf2 (JNum ry) (JNum rx)) rx) with (rkZ uf2 rx).
  simpl js_incr.
  set (uf3 := set_rank (set_parent uf2 (JNum ry) (JNum rx)) (JNum rx) (JNum (rkZ uf2 rx + 1))).
  assert (forall j, rkZ uf3 j = if decide (j = rx) then rkZ uf2 rx + 1 else rkZ uf2 j) as Hrk3.
  { intros j. unfold uf3. rewrite rkZ_set_rank. reflexivity. }
  destruct (link_spec uf2 uf3 ry rx) as (Hinv3 & Hnr3 & Hm); try assumption; try congruence.
  - intros j. apply parZ_set_parent.
  - intros j Hj. rewrite Hrk3, decide_False by assumption. reflexivity.
  - rewrite Hrk3, decide_True by reflexivity. lia.
  - rewrite Hrk3, decide_True by reflexivity. lia.
  - exists true, uf3, rx, ry. do 4 (split; [eauto|]). right.
    split; [reflexivity|]. split; [assumption|]. split; [lia|]. right. apply Hmerged; exact Hm.
Qed.

End UnionFindFacts.

(** ** A fresh union-find *)

Section FreshUnionFind.

Lemma lookup_init (f : Z -> jsval) (l : list Z) (i : Z) :
  (list_to_map ((fun i => (JNum i, f i)) <$> l) : gmap jsval jsval) !! JNum i
  = if decide (i ∈ l) then Some (f i) else None.
Proof.
  induction l as [|a l IH].
  - rewrite decide_False by apply not_elem_of_nil. apply lookup_empty.
  - rewrite fmap_cons, list_to_map_cons, lookup_insert.
    destruct (decide (JNum a = JNum i)) as [[= ->]|Hne].
    + rewrite decide_True; [reflexivity|left].
    + rewrite IH. assert (i <> a) by congruence.
      destruct (decide (i ∈ l)) as [Hin|Hnin].
      * rewrite decide_True; [reflexivity|right; assumption].
      * rewrite decide_False; [reflexivity|]. rewrite elem_of_cons. tauto.
Qed.

Variable n : nat.

Lemma elem_of_indices i : i ∈ indices n <-> in_range n i.
Proof. unfold indices, in_range. rewrite elem_of_seqZ. lia. Qed.

Lemma parZ_new i : in_range n i -> parZ (new_UnionFind n) i = i.
Proof.
  intros Hi. unfold parZ, js_get, new_UnionFind; simpl.
  rewrite lookup_init, decide_True by (apply elem_of_indices, Hi). reflexivity.
Qed.

Lemma rkZ_new i : in_range n i -> rkZ (new_UnionFind n) i = 0.
Proof.
  intros Hi. unfold rkZ, js_get, new_UnionFind; simpl.
  rewrite lookup_init, decide_True by (apply elem_of_indices, Hi). reflexivity.
Qed.

Lemma roots_new : roots n (new_UnionFind n) = indices n.
Proof.
  unfold roots. rewrite (filter_ext_in _ (fun _ => True)).
  - induction (indices n) as [|a l IH]; [reflexivity|].
    rewrite filter_cons_True by exact I. f_equal. exact IH.
  - intros a Ha. apply elem_of_indices in Ha. split; [auto|intros _; apply parZ_new, Ha].
Qed.

Lemma num_roots_new : num_roots n (new_UnionFind n) = Z.of_nat n.
Proof.
  unfold num_roots. rewrite roots_new. unfold indices. rewrite length_seqZ. lia.
Qed.

Lemma new_UnionFind_inv : uf_inv n (new_UnionFind n).
Proof.
  split.
  - intros i Hi. rewrite parZ_new; assumption.
  - intros i Hi. rewrite rkZ_new by assumption. lia.
  - intros i Hi. rewrite parZ_new by assumption. congruence.
  - intros i Hi. rewrite rkZ_new, num_roots_new by assumption. lia.
Qed.

Lemma same_set_new i j :
  in_range n i -> in_range n j -> same_set (new_UnionFind n) i j -> i = j.
Proof.
  intros Hi Hj (r & Hr1 & Hr2).
  apply root_of_root in Hr1; [|apply parZ_new, Hi].
  apply root_of_root in Hr2; [|apply parZ_new, Hj]. congruence.
Qed.

End FreshUnionFind.

(** ** The partition kept by the union-find *)

Section Partition.

Lemma same_set_sym uf i j : same_set uf i j -> same_set uf j i.
Proof. intros (r & Hi & Hj). exists r. auto. Qed.

Lemma same_set_trans uf i j k : same_set uf i j -> same_set uf j k -> same_set uf i k.
Proof.
  intros (r & Hi & Hj) (s & Hj' & Hk). exists r. split; [assumption|].
  rewrite (root_of_fun _ _ _ _ Hj Hj'). assumption.
Qed.

Lemma same_set_refl n uf i : uf_inv n uf -> in_range n i -> same_set uf i i.
Proof. intros Hinv Hi. destruct (root_total n uf i Hinv Hi) as [r Hr]. exists r. auto. Qed.

Lemma same_set_forest uf uf' i j :
  same_forest uf uf' -> same_set uf' i j <-> same_set uf i j.
Proof.
  intros Hsf. unfold same_set. split; intros (r & Hi & Hj); exists r.
  - rewrite <- !(sf_root _ _ Hsf). auto.
  - rewrite !(sf_root _ _ Hsf). auto.
Qed.

Lemma merged_mono uf uf' a w i j :
  merged uf uf' a w -> same_set uf i j -> same_set uf' i j.
Proof.
  intros Hm (r & Hi & Hj). destruct (decide (r = a)) as [->|Hne].
  - exists w. split; apply Hm; right; auto.
  - exists r. split; apply Hm; left; auto.
Qed.

Lemma merged_sound uf uf' a w i j :
  merged uf uf' a w -> same_set uf' i j ->
  same_set uf i j \/ (root_of uf i a /\ root_of uf j w) \/ (root_of uf i w /\ root_of uf j a).
Proof.
  intros Hm (r & Hi & Hj). apply Hm in Hi, Hj.
  destruct Hi as [[Hi _]|[Hi ->]], Hj as [[Hj _]|[Hj Hw]]; subst.
  - left. exists r. auto.
  - right. right. auto.
  - right. left. auto.
  - left. exists a. auto.
Qed.

Lemma merged_joined uf uf' a w x y :
  merged uf uf' a w -> root_of uf x a -> root_of uf y w -> w <> a -> same_set uf' x y.
Proof. intros Hm Hx Hy Hne. exists w. split; apply Hm; [right|left]; auto. Qed.

Lemma adjacent_sym es i j : adjacent es i j -> adjacent es j i.
Proof. intros (e & He & H). exists e. split; [assumption|tauto]. Qed.

Lemma rtc_adjacent_sym es i j : rtc (adjacent es) i j -> rtc (adjacent es) j i.
Proof.
  induction 1 as [|i k j Hik _ IH]; [apply rtc_refl|].
  eapply rtc_r; [exact IH|]. apply adjacent_sym, Hik.
Qed.

Lemma adjacent_subseteq es es' i j :
  (forall e, e ∈ es -> e ∈ es') -> adjacent es i j -> adjacent es' i j.
Proof. intros Hsub (e & He & H). exists e. auto. Qed.

End Partition.

(** ** The Kruskal loop *)

Section Kruskal.

Variable n : nat.
Variable fuel : nat.
Variable es : list Edge.t.
Hypothesis Hfuel : (n <= fuel)%nat.
Hypothesis Hvalid : valid_edges n es.

Lemma mst_loop_spec : forall sorted uf mst,
  uf_inv n uf -> (forall e, e ∈ sorted -> e ∈ es) ->
  num_roots n uf + Z.of_nat (length mst) = Z.of_nat n ->
  Z.of_nat (length mst) < Z.of_nat n - 1 ->
  (forall i j, in_range n i -> in_range n j -> same_set uf i j -> rtc (adjacent es) i j) ->
  exists picked uf',
    mst_loop fuel n uf mst sorted = Some (mst ++ picked) /\
    picked `sublist_of` sorted /\ uf_inv n uf' /\
    num_roots n uf' + Z.of_nat (length (mst ++ picked)) = Z.of_nat n /\
    (forall i j, in_range n i -> in_range n j -> same_set uf' i j -> rtc (adjacent es) i j) /\
    (forall i j, same_set uf i j -> same_set uf' i j) /\
    (Z.of_nat (length (mst ++ picked)) = Z.of_nat n - 1 \/
     forall e, e ∈ sorted -> same_set uf' (Edge.v1 e) (Edge.v2 e)).
Proof.
  induction sorted as [|e rest IH]; intros uf mst Hinv Hsub Hcount Hlen Hsound.
  - exists [], uf. rewrite app_nil_r. simpl.
    split; [reflexivity|]. split; [constructor|]. split; [assumption|].
    split; [assumption|]. split; [assumption|]. split; [auto|].
    right. intros e He. inversion He.
  - destruct (Hvalid e) as [Ha Hb]; [apply Hsub; left|].
    pose proof (inv_rank _ _ Hinv _ Ha) as Hra0.
    destruct (find_spec n fuel uf _ Hinv Ha) as (r1 & uf1 & Hf1 & Hr1 & Hinv1 & Hsf1); [lia|].
    pose proof (inv_rank _ _ Hinv1 _ Hb) as Hrb0.
    destruct (find_spec n fuel uf1 _ Hinv1 Hb) as (r2 & uf2 & Hf2 & Hr2 & Hinv2 & Hsf2); [lia|].
    pose proof (same_forest_trans _ _ _ Hsf1 Hsf2) as Hsf.
    assert (root_of uf2 (Edge.v1 e) r1) as Hr1' by (apply (sf_root _ _ Hsf), Hr1).
    assert (root_of uf2 (Edge.v2 e) r2) as Hr2' by (apply (sf_root _ _ Hsf2), Hr2).
    assert (num_roots n uf2 = num_roots n uf) as Hnr2.
    { unfold num_roots. rewrite (roots_ext n uf uf2); [reflexivity|]. apply (sf_is_root _ _ Hsf). }
    assert (forall i j, in_range n i -> in_range n j -> same_set uf2 i j -> rtc (adjacent es) i j)
      as Hsound2.
    { intros i j Hi Hj Hs. apply Hsound; try assumption. apply (same_set_forest _ _ _ _ Hsf), Hs. }
    assert (forall e', e' ∈ rest -> e' ∈ es) as Hsub' by (intros; apply Hsub; right; assumption).
    simpl. rewrite Hf1, Hf2, js_strict_eq_num.
    destruct (bool_decide_reflect (r1 = r2)) as [Heq|Hne]; simpl negb; cbv iota.
    + destruct (IH uf2 mst Hinv2 Hsub') as (picked & uf' & Hrun & Hpick & Hinv' & Hcount' & Hsound' & Hmono & Hdone);
        try assumption; [lia|].
      exists picked, uf'. split; [exact Hrun|]. split; [apply sublist_cons, Hpick|].
      split; [assumption|]. split; [assumption|]. split; [assumption|].
      split.
      { intros i j Hs. apply Hmono. apply (same_set_forest _ _ _ _ Hsf), Hs. }
      destruct Hdone as [Hdone|Hdone]; [left; assumption|right].
      intros e' He'. apply elem_of_cons in He' as [->|He']; [|apply Hdone, He'].
      apply Hmono. exists r1. subst r2. auto.
    + destruct (union_spec n fuel uf2 _ _ Hinv2 Ha Hb Hfuel)
        as (b & uf3 & rx & ry & Hu & Hinv3 & Hrx & Hry & Hcase).
      rewrite Hu.
      assert (rx = r1) as -> by (eapply root_of_fun; eassumption).
      assert (ry = r2) as -> by (eapply root_of_fun; eassumption).
      destruct Hcase as [(_ & Heq & _)|(_ & _ & Hnr3 & Hm)]; [contradiction|].
      assert (in_range n r1) as Hr1r by exact (root_of_in_range n uf2 _ _ Hinv2 Ha Hr1').
      assert (in_range n r2) as Hr2r by exact (root_of_in_range n uf2 _ _ Hinv2 Hb Hr2').
      assert (forall i j, same_set uf2 i j -> same_set uf3 i j) as Hmono3.
      { intros i j. destruct Hm as [Hm|Hm]; apply (merged_mono _ _ _ _ _ _ Hm). }
      assert (same_set uf3 (Edge.v1 e) (Edge.v2 e)) as Hjoin.
      { destruct Hm as [Hm|Hm].
        - apply (merged_joined _ _ _ _ _ _ Hm); auto.
        - apply same_set_sym. apply (merged_joined _ _ _ _ _ _ Hm); auto. }
      assert (rtc (adjacent es) (Edge.v1 e) (Edge.v2 e)) as Hedge.
      { apply rtc_once. exists e. split; [apply Hsub; left|]. auto. }
      assert (forall i j, in_range n i -> in_range n j -> same_set uf3 i j -> rtc (adjacent es) i j)
        as Hsound3.
      { intros i j Hi Hj Hs.
        assert (forall k r, in_range n k -> root_of uf2 k r ->
                  root_of uf2 (Edge.v1 e) r -> rtc (adjacent es) k (Edge.v1 e)) as Hto1.
        { intros k r Hk H1 H2. apply Hsound2; try assumption. exists r. auto. }
        assert (forall k r, in_range n k -> root_of uf2 k r ->
                  root_of uf2 (Edge.v2 e) r -> rtc (adjacent es) k (Edge.v2 e)) as Hto2.
        { intros k r Hk H1 H2. apply Hsound2; try assumption. exists r. auto. }
        destruct Hm as [Hm|Hm];
          destruct (merged_sound _ _ _ _ _ _ Hm Hs) as [H|[[Hi' Hj']|[Hi' Hj']]];
          try (apply Hsound2; assumption).
        - eapply rtc_trans; [eapply Hto1; eassumption|].
          eapply rtc_trans; [exact Hedge|]. apply rtc_adjacent_sym. eapply Hto2; eassumption.
        - eapply rtc_trans; [eapply Hto2; eassumption|].
          eapply rtc_trans; [apply rtc_adjacent_sym, Hedge|].
          apply rtc_adjacent_sym. eapply Hto1; eassumption.
        - eapply rtc_trans; [eapply Hto2; eassumption|].
          eapply rtc_trans; [apply rtc_adjacent_sym, Hedge|].
          apply rtc_adjacent_sym. eapply Hto1; eassumption.
        - eapply rtc_trans; [eapply Hto1; eassumption|].
          eapply rtc_trans; [exact Hedge|]. apply rtc_adjacent_sym. eapply Hto2; eassumption. }
      assert (num_roots n uf3 + Z.of_nat (length (mst ++ [e])) = Z.of_nat n) as Hcount3.
      { rewrite length_app. simpl. lia. }
      pose proof (num_roots_pos n uf3 _ Hinv3 Ha) as Hpos3.
      destruct (Z.eqb_spec (Z.of_nat (length (mst ++ [e]))) (Z.of_nat n - 1)) as [Hbrk|Hcont].
      * exists [e], uf3. split; [reflexivity|]. split; [apply sublist_skip, sublist_nil_l|].
        split; [assumption|]. split; [assumption|]. split; [assumption|].
        split; [|left; assumption].
        intros i j Hs. apply Hmono3. apply (same_set_forest _ _ _ _ Hsf), Hs.
      * destruct (IH uf3 (mst ++ [e]) Hinv3 Hsub')
          as (picked & uf' & Hrun & Hpick & Hinv' & Hcount' & Hsound' & Hmono & Hdone);
          try assumption; [lia|].
        exists (e :: picked), uf'.
        replace (mst ++ e :: picked) with ((mst ++ [e]) ++ picked)
          by (rewrite <- app_assoc; reflexivity).
        split; [exact Hrun|]. split; [apply sublist_skip, Hpick|].
        split; [assumption|]. split; [assumption|]. split; [assumption|].
        split.
        { intros i j Hs. apply Hmono, Hmono3. apply (same_set_forest _ _ _ _ Hsf), Hs. }
        destruct Hdone as [Hdone|Hdone]; [left; assumption|right].
        intros e' He'. apply elem_of_cons in He' as [->|He']; [|apply Hdone, He'].
        apply Hmono, Hjoin.
Qed.

End Kruskal.

(** ** The stable sort *)

Section Sorting.

Lemma insert_edge_perm e l : insert_edge e l ≡ₚ e :: l.
Proof.
  induction l as [|h t IH]; simpl; [reflexivity|].
  destruct (Edge.weight e <=? Edge.weight h); [reflexivity|].
  rewrite IH. apply Permutation_swap.
Qed.

Lemma sort_edges_perm l : sort_edges l ≡ₚ l.
Proof.
  induction l as [|e t IH]; simpl; [reflexivity|].
  rewrite insert_edge_perm, IH. reflexivity.
Qed.

Lemma elem_of_sort_edges e l : e ∈ sort_edges l <-> e ∈ l.
Proof. rewrite sort_edges_perm. reflexivity. Qed.

Lemma insert_edge_sorted e l :
  StronglySorted weight_le l -> StronglySorted weight_le (insert_edge e l).
Proof.
  induction 1 as [|h t Ht IH Hh]; simpl.
  - repeat constructor.
  - destruct (Z.leb_spec (Edge.weight e) (Edge.weight h)) as [Hle|Hgt].
    + constructor; [constructor; assumption|].
      constructor; [exact Hle|].
      eapply Forall_impl; [exact Hh|]. unfold weight_le. intros; lia.
    + constructor; [exact IH|].
      rewrite insert_edge_perm. constructor; [unfold weight_le; lia|exact Hh].
Qed.

Lemma sort_edges_sorted l : StronglySorted weight_le (sort_edges l).
Proof.
  induction l as [|e t IH]; simpl; [constructor|]. apply insert_edge_sorted, IH.
Qed.

Lemma of_weight_insert_edge w e l :
  of_weight w (insert_edge e l) = of_weight w (e :: l).
Proof.
  unfold of_weight. induction l as [|h t IH]; simpl; [reflexivity|].
  destruct (Z.leb_spec (Edge.weight e) (Edge.weight h)) as [Hle|Hgt]; [reflexivity|].
  rewrite (filter_cons _ h), IH, !filter_cons.
  destruct (decide (Edge.weight h = w)), (decide (Edge.weight e = w)); try reflexivity. lia.
Qed.

(** Edges of one weight keep their order of insertion. *)
Lemma sort_edges_stable w l : of_weight w (sort_edges l) = of_weight w l.
Proof.
  induction l as [|e t IH]; simpl; [reflexivity|].
  rewrite of_weight_insert_edge. unfold of_weight in *. rewrite !filter_cons, IH. reflexivity.
Qed.

(** A sorted list is determined by its edges of each weight, so every
    stable sort computes [sort_edges]. *)
Lemma stable_sort_unique l1 : forall l2,
  StronglySorted weight_le l1 -> StronglySorted weight_le l2 ->
  (forall w, of_weight w l1 = of_weight w l2) -> l1 = l2.
Proof.
  unfold of_weight.
  induction l1 as [|a t1 IH]; intros l2 H1 H2 Hw.
  - destruct l2 as [|b t2]; [reflexivity|].
    specialize (Hw (Edge.weight b)). rewrite filter_nil, filter_cons_True in Hw by reflexivity.
    discriminate.
  - destruct l2 as [|b t2].
    { specialize (Hw (Edge.weight a)). rewrite filter_nil, filter_cons_True in Hw by reflexivity.
      discriminate. }
    apply StronglySorted_inv in H1 as [H1 Ha]. apply StronglySorted_inv in H2 as [H2 Hb].
    assert (forall (x : Edge.t) (l l' : list Edge.t), x ∈ l ->
      (forall w, filter (fun e => Edge.weight e = w) l = filter (fun e => Edge.weight e = w) l') ->
      x ∈ l') as Hmem.
    { intros x l l' Hx Hf.
      assert (x ∈ filter (fun e => Edge.weight e = Edge.weight x) l) as Hin
        by (apply list_elem_of_filter; auto).
      rewrite Hf in Hin. apply list_elem_of_filter in Hin. tauto. }
    assert (Edge.weight a = Edge.weight b) as Hab.
    { assert (b ∈ a :: t1) as Hb1 by (apply (Hmem b (b :: t2)); [left|auto]).
      assert (a ∈ b :: t2) as Ha2 by (apply (Hmem a (a :: t1)); [left|auto]).
      rewrite Forall_forall in Ha, Hb. unfold weight_le in *.
      apply elem_of_cons in Hb1 as [->|Hb1]; [reflexivity|].
      apply elem_of_cons in Ha2 as [->|Ha2]; [reflexivity|].
      specialize (Ha _ Hb1). specialize (Hb _ Ha2). lia. }
    pose proof (Hw (Edge.weight a)) as Hwa.
    rewrite !filter_cons, decide_True, decide_True in Hwa by auto.
    injection Hwa as -> Ht. f_equal. apply IH; try assumption.
    intros w. destruct (decide (Edge.weight b = w)) as [<-|Hne]; [exact Ht|].
    specialize (Hw w). rewrite !filter_cons, decide_False, decide_False in Hw by assumption.
    exact Hw.
Qed.

End Sorting.

(** ** The solver *)

Section Solver.

Variable n : nat.

Lemma one_root_same_set uf :
  uf_inv n uf -> num_roots n uf = 1 ->
  forall i j, in_range n i -> in_range n j -> same_set uf i j.
Proof.
  intros Hinv Hone i j Hi Hj.
  destruct (root_total n uf i Hinv Hi) as [ri Hri].
  destruct (root_total n uf j Hinv Hj) as [rj Hrj].
  assert (forall k r, in_range n k -> root_of uf k r -> r ∈ roots n uf) as Hin.
  { intros k r Hk Hr. apply elem_of_roots. split.
    - exact (root_of_in_range n uf k r Hinv Hk Hr).
    - exact (root_of_is_root uf k r Hr). }
  pose proof (Hin i ri Hi Hri) as H1. pose proof (Hin j rj Hj Hrj) as H2.
  unfold num_roots in Hone. destruct (roots n uf) as [|a [|b l]]; simpl in Hone; try lia.
  apply list_elem_of_singleton in H1, H2. subst. exists a. auto.
Qed.

Lemma same_set_one_root uf :
  uf_inv n uf ->
  (forall i j, in_range n i -> in_range n j -> same_set uf i j) ->
  num_roots n uf <= 1.
Proof.
  intros Hinv Hall.
  assert (NoDup (roots n uf)) as Hnd by (apply NoDup_filter, NoDup_seqZ).
  assert (forall a b, a ∈ roots n uf -> b ∈ roots n uf -> a = b) as Heq.
  { intros a b Ha Hb. apply elem_of_roots in Ha as [Ha Hpa], Hb as [Hb Hpb].
    destruct (Hall a b Ha Hb) as (r & Hra & Hrb).
    apply (root_of_root _ _ _ Hpa) in Hra. apply (root_of_root _ _ _ Hpb) in Hrb. congruence. }
  unfold num_roots. destruct (roots n uf) as [|a [|b l]]; simpl; try lia.
  exfalso. assert (a = b) as -> by (apply Heq; [left|right; left]).
  apply NoDup_cons in Hnd as [Hnot _]. apply Hnot. left.
Qed.

(** What [findMST] returns on a list of edges between existing vertices. *)
Lemma findMST_on_core fuel es :
  valid_edges n es -> (n <= fuel)%nat ->
  exists res, findMST_on fuel n es = Some res /\
    res `sublist_of` sort_edges es /\
    (Z.of_nat n < 2 -> res = []) /\
    (1 <= Z.of_nat n ->
       Z.of_nat (length res) <= Z.of_nat n - 1 /\
       (Z.of_nat (length res) = Z.of_nat n - 1 <-> graph_connected n es)).
Proof.
  intros Hvalid Hfuel. unfold findMST_on.
  destruct (Z.ltb_spec (Z.of_nat n) 2) as [Hsmall|Hbig].
  - exists []. split; [reflexivity|]. split; [apply sublist_nil_l|]. split; [reflexivity|].
    intros Hn. simpl. split; [lia|]. split; [|lia].
    intros _ i j Hi Hj. unfold in_range in *. assert (i = j) as -> by lia. apply rtc_refl.
  - destruct (mst_loop_spec n fuel es Hfuel Hvalid (sort_edges es) (new_UnionFind n) [])
      as (picked & uf' & Hrun & Hpick & Hinv' & Hcount & Hsound & _ & Hdone).
    + apply new_UnionFind_inv.
    + intros e. apply elem_of_sort_edges.
    + rewrite num_roots_new. simpl. lia.
    + simpl. lia.
    + intros i j Hi Hj Hs. apply same_set_new in Hs; try assumption. subst. apply rtc_refl.
    + simpl in Hrun, Hcount, Hdone. exists picked.
      split; [exact Hrun|]. split; [exact Hpick|]. split; [lia|]. intros _.
      assert (in_range n 0) as H0 by (unfold in_range; lia).
      pose proof (num_roots_pos n uf' 0 Hinv' H0) as Hpos.
      split; [lia|]. split.
      * intros Hlen i j Hi Hj. apply Hsound; try assumption.
        apply one_root_same_set; try assumption. lia.
      * intros Hconn. destruct Hdone as [Hdone|Hdone]; [exact Hdone|].
        assert (forall i j, in_range n i -> rtc (adjacent es) i j ->
                  in_range n j /\ same_set uf' i j) as Hclosed.
        { intros i j Hi Hr. induction Hr as [i|i k j Hik _ IH].
          - split; [assumption|]. apply (same_set_refl n); assumption.
          - destruct Hik as (e & He & Hends).
            destruct (Hvalid e He) as [H1 H2].
            assert (same_set uf' (Edge.v1 e) (Edge.v2 e)) as Hs
              by (apply Hdone, elem_of_sort_edges, He).
            assert (in_range n k /\ same_set uf' i k) as [Hk Hik].
            { destruct Hends as [[<- <-]|[<- <-]]; split; auto using same_set_sym. }
            destruct (IH Hk) as [Hj Hkj]. split; [assumption|].
            eapply same_set_trans; eassumption. }
        pose proof (same_set_one_root uf' Hinv') as Hle.
        assert (num_roots n uf' <= 1); [|lia].
        apply Hle. intros i j Hi Hj. apply Hclosed; auto.
Qed.

End Solver.

(** ** Distances and the separation test *)

Section Distances.

Lemma Qltb_lt a b : Qltb a b = true <-> (a < b)%Q.
Proof. unfold Qltb, Qlt. apply Z.ltb_lt. Qed.

Lemma Q2R_norm2 dx dy : Q2R (norm2 dx dy) = (Q2R dx * Q2R dx + Q2R dy * Q2R dy)%R.
Proof. unfold norm2. rewrite Q2R_plus, !Q2R_mult. reflexivity. Qed.

Lemma norm2_nonneg dx dy : (0 <= Q2R (norm2 dx dy))%R.
Proof. rewrite Q2R_norm2. nra. Qed.

Lemma Q2R_MIN_DISTANCE : Q2R MIN_DISTANCE = 30%R.
Proof. unfold MIN_DISTANCE, Q2R. simpl. lra. Qed.

(** The test on squares decides the comparison of the square root. *)
Lemma sqrt_lt_spec q d :
  (0 <= Q2R q)%R -> (0 <= Q2R d)%R ->
  sqrt_lt q d = true <-> (sqrt (Q2R q) < Q2R d)%R.
Proof.
  intros Hq Hd. unfold sqrt_lt. rewrite Qltb_lt. split.
  - intros H. apply Qlt_Rlt in H. rewrite Q2R_mult in H.
    rewrite <- (sqrt_square (Q2R d)) at 1 by assumption.
    apply sqrt_lt_1_alt. split; assumption.
  - intros H. apply Rlt_Qlt. rewrite Q2R_mult.
    rewrite <- (sqrt_sqrt (Q2R q)) by assumption.
    pose proof (sqrt_pos (Q2R q)).
    apply Rmult_le_0_lt_compat; assumption.
Qed.

Lemma near_spec v x y :
  sqrt_lt (norm2 (Vertex.x v - x) (Vertex.y v - y)) MIN_DISTANCE = true
  <-> (distance v x y < 30)%R.
Proof.
  unfold distance. rewrite <- Q2R_MIN_DISTANCE. apply sqrt_lt_spec.
  - apply norm2_nonneg.
  - rewrite Q2R_MIN_DISTANCE. lra.
Qed.

Lemma tooClose_spec vs x y :
  tooClose vs x y = true <-> exists v, v ∈ vs /\ (distance v x y < 30)%R.
Proof.
  unfold tooClose. rewrite existsb_exists. split; intros (v & Hv & Hd); exists v.
  - split; [apply list_elem_of_In, Hv|apply near_spec, Hd].
  - split; [apply list_elem_of_In, Hv|apply near_spec, Hd].
Qed.

Lemma tooClose_false vs x y :
  tooClose vs x y = false <-> forall v, v ∈ vs -> (30 <= distance v x y)%R.
Proof.
  split.
  - intros Hf v Hv. destruct (Rle_or_lt 30 (distance v x y)) as [|Hlt]; [assumption|].
    assert (tooClose vs x y = true) as Ht by (apply tooClose_spec; eauto). congruence.
  - intros Hall. destruct (tooClose vs x y) eqn:Ht; [|reflexivity].
    apply tooClose_spec in Ht as (v & Hv & Hd). specialize (Hall v Hv). lra.
Qed.

(** [round_sqrt] is [Math.round] of the real square root: the integer
    within one half of it, the upper half excluded. *)
Lemma round_sqrt_spec q :
  (0 <= Q2R q)%R ->
  (IZR (round_sqrt q) - / 2 <= sqrt (Q2R q) < IZR (round_sqrt q) + / 2)%R.
Proof.
  intros Hq. unfold round_sqrt.
  set (m := Qfloor (4 * q)). set (s := Z.sqrt m). set (w := (s + 1) / 2).
  assert (IZR m <= 4 * Q2R q < IZR m + 1)%R as [Hm1 Hm2].
  { pose proof (Qfloor_le (4 * q)) as H1. pose proof (Qlt_floor (4 * q)) as H2.
    apply Qle_Rle in H1. apply Qlt_Rlt in H2. fold m in H1, H2.
    rewrite Q2R_mult in H1, H2.
    replace (Q2R 4) with 4%R in H1, H2 by (unfold Q2R; simpl; lra).
    unfold Q2R in H1 at 1. unfold Q2R in H2 at 2. simpl in H1, H2.
    rewrite plus_IZR in H2. lra. }
  assert (0 <= m) as Hm0.
  { apply le_IZR. apply Rnot_lt_le. intros Hneg.
    assert (IZR m + 1 <= 0)%R; [|lra].
    rewrite <- plus_IZR. apply IZR_le. apply lt_IZR in Hneg. lia. }
  pose proof (Z.sqrt_spec m Hm0) as [Hs1 Hs2]. fold s in Hs1, Hs2.
  pose proof (Z.sqrt_nonneg m) as Hs0. fold s in Hs0.
  assert (2 * w - 1 <= s <= 2 * w) as [Hw1 Hw2].
  { unfold w. pose proof (Z.div_mod (s + 1) 2). pose proof (Z.mod_pos_bound (s + 1) 2). lia. }
  assert (0 <= w) as Hw0 by (unfold w; apply Z.div_pos; lia).
  assert (0 <= sqrt (Q2R q))%R as Hsq by apply sqrt_pos.
  assert (sqrt (Q2R q) * sqrt (Q2R q) = Q2R q)%R as Hsqq by (apply sqrt_sqrt; assumption).
  split.
  - destruct (Z.eq_dec w 0) as [->|Hne]; [simpl; lra|].
    assert ((2 * w - 1) * (2 * w - 1) <= m) as Hz by nia.
    apply IZR_le in Hz. rewrite mult_IZR, minus_IZR, mult_IZR in Hz.
    assert (1 <= IZR w)%R as Hw by (apply IZR_le; lia).
    apply Rnot_lt_le. intros Hlt. nra.
  - assert (m + 1 <= (2 * w + 1) * (2 * w + 1)) as Hz by nia.
    apply IZR_le in Hz. rewrite mult_IZR, !plus_IZR, mult_IZR in Hz.
    assert (0 <= IZR w)%R as Hw by (apply IZR_le; lia).
    apply Rnot_le_lt. intros Hle. nra.
Qed.

End Distances.

(** ** Vertex insertion *)

Lemma double_tooClose_true (vs : list Double.Vertex.t) (x y : PrimFloat.float) :
  Double.tooClose vs x y = true <->
  exists v, v ∈ vs /\ Double.below_MIN_DISTANCE (Double.computed_distance v x y) = true.
Proof.
  unfold Double.tooClose. rewrite existsb_exists.
  split; intros (v & Hv & Hd); exists v; (split; [apply list_elem_of_In, Hv|exact Hd]).
Qed.

Lemma double_tooClose_false (vs : list Double.Vertex.t) (x y : PrimFloat.float) :
  Double.tooClose vs x y = false <->
  forall v, v ∈ vs -> Double.below_MIN_DISTANCE (Double.computed_distance v x y) = false.
Proof.
  split.
  - intros Hf v Hv.
    destruct (Double.below_MIN_DISTANCE (Double.computed_distance v x y)) eqn:Hd; [|reflexivity].
    assert (Double.tooClose vs x y = true) as Ht by (apply double_tooClose_true; eauto).
    congruence.
  - intros Hall. destruct (Double.tooClose vs x y) eqn:Ht; [|reflexivity].
    apply double_tooClose_true in Ht as (v & Hv & Hd). rewrite (Hall v Hv) in Hd. discriminate.
Qed.




(** C10. On an empty vertex list every point is accepted and gets index 0. *)
Theorem addVertex_first (es : list Edge.t) (x y : Q) :
  addVertex {| vertices := []; edges := es |} x y =
    (0, {| vertices := [Vertex.mk x y]; edges := es |}).
Proof. reflexivity. Qed.

(** ** Edge creation *)

Section EdgeCreation.

Lemma edge_exists_spec es a b :
  edge_exists es a b = true <->
  exists e, e ∈ es /\
    ((Edge.v1 e = a /\ Edge.v2 e = b) \/ (Edge.v1 e = b /\ Edge.v2 e = a)).
Proof.
  unfold edge_exists. rewrite existsb_exists.
  split; intros (e & He & H); exists e; (split; [apply list_elem_of_In, He|]).
  - apply orb_true_iff in H as [H|H]; apply andb_true_iff in H as [H1 H2];
      apply Z.eqb_eq in H1, H2; auto.
  - apply orb_true_iff.
    destruct H as [[H1 H2]|[H1 H2]]; [left|right]; apply andb_true_iff;
      split; apply Z.eqb_eq; assumption.
Qed.

Lemma edge_exists_sym es a b : edge_exists es a b = edge_exists es b a.
Proof.
  apply eq_true_iff_eq. rewrite !edge_exists_spec.
  split; intros (e & He & H); exists e; (split; [exact He|tauto]).
Qed.

Lemma vertex_at_Some vs i :
  0 <= i < Z.of_nat (length vs) -> exists v, vertex_at vs i = Some v.
Proof.
  intros Hi. unfold vertex_at. destruct (Z.ltb_spec i 0); [lia|].
  destruct (lookup_lt_is_Some_2 vs (Z.to_nat i)) as [v Hv]; [lia|]. eauto.
Qed.

(** The three ways [addEdge] can end, by the checks that decide them. *)
Lemma addEdge_cases g a b :
  (addEdge g a b = (false, InvalidVertices a b, g) /\
   (a = b \/ ~ (0 <= a < Z.of_nat (length (vertices g)))
          \/ ~ (0 <= b < Z.of_nat (length (vertices g))))) \/
  (addEdge g a b = (false, EdgeAlreadyExists a b, g) /\
   a <> b /\ 0 <= a < Z.of_nat (length (vertices g)) /\
   0 <= b < Z.of_nat (length (vertices g)) /\ edge_exists (edges g) a b = true) \/
  (exists va vb,
     vertex_at (vertices g) a = Some va /\ vertex_at (vertices g) b = Some vb /\
     addEdge g a b =
       (true,
        AddedEdge a b (round_sqrt (norm2 (Vertex.x va - Vertex.x vb) (Vertex.y va - Vertex.y vb))),
        {| vertices := vertices g;
           edges := edges g ++
             [Edge.mk (Z.min a b) (Z.max a b)
                (round_sqrt (norm2 (Vertex.x va - Vertex.x vb) (Vertex.y va - Vertex.y vb)))] |}) /\
     a <> b /\ 0 <= a < Z.of_nat (length (vertices g)) /\
     0 <= b < Z.of_nat (length (vertices g)) /\ edge_exists (edges g) a b = false).
Proof.
  unfold addEdge.
  destruct (Z.eqb_spec a b) as [Hab|Hab]; [left; simpl; auto|].
  destruct (Z.ltb_spec a 0) as [Ha0|Ha0]; [left; simpl; split; [reflexivity|right; left; lia]|].
  destruct (Z.ltb_spec b 0) as [Hb0|Hb0]; [left; simpl; split; [reflexivity|right; right; lia]|].
  unfold Z.geb.
  destruct (Z.compare_spec a (Z.of_nat (length (vertices g)))) as [Ha|Ha|Ha];
    try (left; simpl; split; [reflexivity|right; left; lia]).
  destruct (Z.compare_spec b (Z.of_nat (length (vertices g)))) as [Hb|Hb|Hb];
    try (left; simpl; split; [reflexivity|right; right; lia]).
  simpl. destruct (edge_exists (edges g) a b) eqn:Hex; simpl.
  - right. left. repeat split; auto; lia.
  - right. right.
    destruct (vertex_at_Some (vertices g) a) as [va Hva]; [lia|].
    destruct (vertex_at_Some (vertices g) b) as [vb Hvb]; [lia|].
    exists va, vb. rewrite Hva, Hvb. repeat split; auto; lia.
Qed.


End EdgeCreation.



(** ** The edge list of a graph built by requests *)

Section EdgeInvariant.

Lemma graph_inv_new : graph_inv new_Graph.
Proof. split; simpl; [intros e He; inversion He|constructor]. Qed.

Lemma graph_inv_addVertex g x y : graph_inv g -> graph_inv (snd (addVertex g x y)).
Proof.
  intros [Ho Hn]. unfold addVertex. destruct (tooClose (vertices g) x y); simpl.
  - split; assumption.
  - split; simpl; [|assumption]. intros e He. specialize (Ho e He).
    rewrite length_app. simpl. lia.
Qed.

Lemma graph_inv_addEdge g a b : graph_inv g -> graph_inv (snd (addEdge g a b)).
Proof.
  intros [Ho Hn].
  destruct (addEdge_cases g a b)
    as [[-> _]|[(-> & _)|(va & vb & _ & _ & -> & Hab & Ha & Hb & Hex)]];
    simpl; try (split; assumption).
  split; simpl.
  - intros e He. apply elem_of_app in He as [He|He]; [apply Ho, He|].
    apply list_elem_of_singleton in He. subst e. simpl. lia.
  - rewrite fmap_app. apply NoDup_app. split; [assumption|]. split; [|apply NoDup_singleton].
    intros p Hp Hp'. apply list_elem_of_singleton in Hp'. subst p.
    apply list_elem_of_fmap in Hp as (e & Heq & He). simpl in Heq. injection Heq as H1 H2.
    assert (edge_exists (edges g) a b = true) as Hex'; [|congruence].
    apply edge_exists_spec. exists e. split; [assumption|]. lia.
Qed.

Lemma graph_inv_serve_all rs : forall g, graph_inv g -> graph_inv (serve_all g rs).
Proof.
  unfold serve_all. induction rs as [|r rs IH]; intros g Hg; simpl; [assumption|].
  apply IH. destruct r; simpl; [apply graph_inv_addVertex|apply graph_inv_addEdge]; assumption.
Qed.

Lemma graph_inv_no_self_loop g : graph_inv g -> no_self_loop g.
Proof. intros [Ho _] e He. specialize (Ho e He). lia. Qed.

Lemma graph_inv_no_duplicate_pair g : graph_inv g -> no_duplicate_pair g.
Proof.
  intros [Ho Hn] i j e1 e2 H1 H2 Hij Hsame. apply Hij.
  pose proof (Ho e1 (list_elem_of_lookup_2 _ _ _ H1)) as O1.
  pose proof (Ho e2 (list_elem_of_lookup_2 _ _ _ H2)) as O2.
  assert ((Edge.v1 e1, Edge.v2 e1) = (Edge.v1 e2, Edge.v2 e2)) as Heq.
  { destruct Hsame as [[E1 E2]|[E1 E2]]; [congruence|lia]. }
  eapply (NoDup_lookup _ i j _ Hn).
  - rewrite list_lookup_fmap, H1. reflexivity.
  - rewrite list_lookup_fmap, H2. simpl. rewrite Heq. reflexivity.
Qed.

Lemma graph_inv_valid_edges g : graph_inv g -> valid_edges (length (vertices g)) (edges g).
Proof. intros [Ho _] e He. specialize (Ho e He). unfold in_range. lia. Qed.

(** Once [a]-[b] is stored, asking for [b]-[a] finds it. *)
Lemma addEdge_reversed g a b :
  addEdge_ret g a b = true ->
  addEdge (addEdge_graph g a b) b a =
    (false, EdgeAlreadyExists b a, addEdge_graph g a b).
Proof.
  unfold addEdge_ret, addEdge_graph. intros Hret.
  destruct (addEdge_cases g a b)
    as [[Hr _]|[(Hr & _)|(va & vb & _ & _ & Hr & Hab & Ha & Hb & Hex)]];
    rewrite Hr in Hret |- *; simpl in Hret; try discriminate.
  simpl snd.
  match goal with |- addEdge ?g' b a = _ =>
    destruct (addEdge_cases g' b a)
      as [[_ Hc]|[(Hr' & _)|(_ & _ & _ & _ & _ & _ & _ & _ & Hex')]] end.
  - simpl in Hc. lia.
  - exact Hr'.
  - exfalso. simpl in Hex'.
    match type of Hex' with edge_exists ?l b a = false =>
      assert (edge_exists l b a = true) as Hex''; [|congruence] end.
    apply edge_exists_spec. eexists. split; [apply elem_of_app; right; left|]. simpl. lia.
Qed.

End EdgeInvariant.

(** C8. Whatever requests built the graph, no stored edge is a self-loop and
    no two stored edges join the same unordered pair; after [a]-[b] has been
    created, the request [b]-[a] is refused as already existing and the edge
    list stays as it was. *)
Theorem edges_without_loops_and_duplicates (rs : list Request) (a b : Z) :
  no_self_loop (serve_all new_Graph rs) /\
  no_duplicate_pair (serve_all new_Graph rs) /\
  (addEdge_ret (serve_all new_Graph rs) a b = true ->
   addEdge (addEdge_graph (serve_all new_Graph rs) a b) b a =
     (false, EdgeAlreadyExists b a, addEdge_graph (serve_all new_Graph rs) a b)).
Proof.
  pose proof (graph_inv_serve_all rs new_Graph graph_inv_new) as Hinv.
  split; [apply graph_inv_no_self_loop, Hinv|].
  split; [apply graph_inv_no_duplicate_pair, Hinv|].
  apply addEdge_reversed.
Qed.

Lemma edges_without_loops_and_duplicates_witness :
  addEdge_ret (serve_all new_Graph two_sites) 0 1 = true /\
  addEdge (addEdge_graph (serve_all new_Graph two_sites) 0 1) 1 0 =
    (false, EdgeAlreadyExists 1 0, addEdge_graph (serve_all new_Graph two_sites) 0 1).
Proof.
  split; [vm_compute; reflexivity|].
  apply (proj2 (proj2 (edges_without_loops_and_duplicates two_sites 0 1))).
  vm_compute. reflexivity.
Defined.

(** ** The solver's results *)

Section SolverResults.

Lemma valid_edgesb_sound n es : valid_edgesb n es = true -> valid_edges n es.
Proof.
  unfold valid_edgesb, valid_edges, in_range. rewrite forallb_forall.
  intros H e He. apply list_elem_of_In in He. specialize (H e He).
  repeat (apply andb_true_iff in H as [H ?]). lia.
Qed.

Lemma sublist_of_weight w (l1 l2 : list Edge.t) :
  l1 `sublist_of` l2 -> of_weight w l1 `sublist_of` of_weight w l2.
Proof.
  unfold of_weight. induction 1 as [|e l1 l2 _ IH|e l1 l2 _ IH].
  - constructor.
  - rewrite !filter_cons. destruct (decide (Edge.weight e = w)); [constructor|]; exact IH.
  - rewrite filter_cons. destruct (decide (Edge.weight e = w)); [constructor|]; exact IH.
Qed.

Lemma sublist_sorted (l1 l2 : list Edge.t) :
  l1 `sublist_of` l2 -> StronglySorted weight_le l2 -> StronglySorted weight_le l1.
Proof.
  induction 1 as [|e l1 l2 Hsub IH|e l1 l2 Hsub IH]; intros Hs.
  - constructor.
  - apply StronglySorted_inv in Hs as [Hs He]. constructor; [apply IH, Hs|].
    rewrite Forall_forall in He |- *. intros a Ha. apply He.
    eapply sublist_subseteq; eassumption.
  - apply StronglySorted_inv in Hs as [Hs _]. apply IH, Hs.
Qed.

End SolverResults.

(** C1. On the triangle A=(0,0), B=(10,0), C=(10,10) with the edges A-B,
    B-C, A-C created in that order, the weights are 10, 10 and 14 and
    [findMST] returns A-B then B-C, of total weight 20. *)
Theorem triangle_findMST (k : nat) :
  vertices triangle = [Vertex.mk 0 0; Vertex.mk 10 0; Vertex.mk 10 10] /\
  edges triangle = [Edge.mk 0 1 10; Edge.mk 1 2 10; Edge.mk 0 2 14] /\
  findMST (3 + k) triangle = Some [Edge.mk 0 1 10; Edge.mk 1 2 10] /\
  total_weight [Edge.mk 0 1 10; Edge.mk 1 2 10] = 20.
Proof.
  split; [reflexivity|]. split; [vm_compute; reflexivity|]. split; [|reflexivity].
  vm_compute. reflexivity.
Qed.

(** C2. [findMST] sorts with a stable sort by ascending weight, and in its
    result the edges of any one weight stand in the order in which they
    were inserted in the edge list. *)
Theorem findMST_stable (n fuel : nat) (es : list Edge.t) :
  valid_edges n es -> (n <= fuel)%nat ->
  StronglySorted weight_le (sort_edges es) /\
  (forall w, of_weight w (sort_edges es) = of_weight w es) /\
  exists res, findMST_on fuel n es = Some res /\
    StronglySorted weight_le res /\
    forall w, of_weight w res `sublist_of` of_weight w es.
Proof.
  intros Hvalid Hfuel.
  split; [apply sort_edges_sorted|]. split; [intros w; apply sort_edges_stable|].
  destruct (findMST_on_core n fuel es Hvalid Hfuel) as (res & Hrun & Hsub & _).
  exists res. split; [exact Hrun|]. split.
  - eapply sublist_sorted; [exact Hsub|apply sort_edges_sorted].
  - intros w. rewrite <- (sort_edges_stable w es). apply sublist_of_weight, Hsub.
Qed.

Lemma findMST_stable_witness :
  exists res,
    findMST_on 4 4 [Edge.mk 0 1 7; Edge.mk 2 3 5; Edge.mk 1 2 7; Edge.mk 0 3 5] = Some res /\
    forall w, of_weight w res `sublist_of`
      of_weight w [Edge.mk 0 1 7; Edge.mk 2 3 5; Edge.mk 1 2 7; Edge.mk 0 3 5].
Proof.
  destruct (findMST_stable 4 4 [Edge.mk 0 1 7; Edge.mk 2 3 5; Edge.mk 1 2 7; Edge.mk 0 3 5])
    as (_ & _ & res & Hrun & _ & Hord).
  - apply valid_edgesb_sound. vm_compute. reflexivity.
  - lia.
  - exists res. split; assumption.
Defined.

(** C9, for graphs with at least one vertex. The result has at most [n - 1]
    edges, and exactly [n - 1] if and only if the graph is connected; with
    fewer than two vertices it is empty. *)
Theorem findMST_size (n fuel : nat) (es : list Edge.t) :
  valid_edges n es -> (n <= fuel)%nat ->
  exists res, findMST_on fuel n es = Some res /\
    (Z.of_nat n < 2 -> res = []) /\
    (1 <= Z.of_nat n ->
       Z.of_nat (length res) <= Z.of_nat n - 1 /\
       (Z.of_nat (length res) = Z.of_nat n - 1 <-> graph_connected n es)).
Proof.
  intros Hvalid Hfuel.
  destruct (findMST_on_core n fuel es Hvalid Hfuel) as (res & Hrun & _ & Hsmall & Hsize).
  exists res. auto.
Qed.

Lemma findMST_size_witness :
  exists res,
    findMST_on 4 4 [Edge.mk 0 1 7; Edge.mk 2 3 5] = Some res /\
    Z.of_nat (length res) <= 4 - 1 /\
    (Z.of_nat (length res) = 4 - 1 <-> graph_connected 4 [Edge.mk 0 1 7; Edge.mk 2 3 5]).
Proof.
  destruct (findMST_size 4 4 [Edge.mk 0 1 7; Edge.mk 2 3 5]) as (res & Hrun & _ & Hsize).
  - apply valid_edgesb_sound. vm_compute. reflexivity.
  - lia.
  - exists res. split; [exact Hrun|]. apply Hsize. lia.
Defined.

(** C9 fails as stated at [n = 0]: the result is empty, so its length 0 is
    not at most [n - 1 = -1]. *)
Lemma findMST_size_fails_without_vertices :
  exists res, findMST_on 0 0 [] = Some res /\
    ~ (Z.of_nat (length res) <= Z.of_nat 0 - 1).
Proof. exists []. split; [reflexivity|]. simpl. lia. Qed.

(** ** Union-find: merging twice, and indices out of range *)

(** Every store the class can reach is well formed. *)
Lemma reachable_inv fuel n uf :
  (n <= fuel)%nat -> reachable fuel n uf -> uf_inv n uf.
Proof.
  intros Hfuel. induction 1 as [|uf x r uf' _ IH Hx Hf|uf x y b uf' _ IH Hx Hy Hu].
  - apply new_UnionFind_inv.
  - pose proof (inv_rank _ _ IH x Hx).
    destruct (find_spec n fuel uf x IH Hx) as (r' & uf'' & Hf' & _ & Hinv & _); [lia|].
    rewrite Hf in Hf'. injection Hf' as _ <-. exact Hinv.
  - destruct (union_spec n fuel uf x y IH Hx Hy Hfuel) as (b' & uf'' & _ & _ & Hu' & Hinv & _).
    rewrite Hu in Hu'. injection Hu' as _ <-. exact Hinv.
Qed.

(** C7, as the code has it. After [union(a, b)] returns [true], [find(a)]
    and [find(b)] give the same root; a second [union(a, b)] returns [false],
    leaves the rank array as it was and every element with the root it had;
    the parent array may be rewritten by path compression. *)
Theorem union_twice (n fuel : nat) (uf uf1 : UnionFind) (a b : Z) :
  uf_inv n uf -> in_range n a -> in_range n b -> (n <= fuel)%nat ->
  union fuel uf (JNum a) (JNum b) = Some (true, uf1) ->
  (exists r uf2 uf3,
     find fuel uf1 (JNum a) = Some (JNum r, uf2) /\
     find fuel uf2 (JNum b) = Some (JNum r, uf3)) /\
  exists uf4,
    union fuel uf1 (JNum a) (JNum b) = Some (false, uf4) /\
    rank uf4 = rank uf1 /\
    forall i, in_range n i ->
      exists r u u',
        find fuel uf1 (JNum i) = Some (JNum r, u) /\
        find fuel uf4 (JNum i) = Some (JNum r, u').
Proof.
  intros Hinv Ha Hb Hfuel Hu.
  destruct (union_spec n fuel uf a b Hinv Ha Hb Hfuel)
    as (b0 & uf' & rx & ry & Hu' & Hinv1 & Hrx & Hry & Hcase).
  rewrite Hu in Hu'. injection Hu' as <- <-.
  destruct Hcase as [(Hf & _)|(_ & Hne & _ & Hm)]; [discriminate|].
  assert (same_set uf1 a b) as Hsame.
  { destruct Hm as [Hm|Hm].
    - apply (merged_joined _ _ _ _ _ _ Hm); auto.
    - apply same_set_sym. apply (merged_joined _ _ _ _ _ _ Hm); auto. }
  assert (forall u i, uf_inv n u -> in_range n i -> Z.of_nat n - rkZ u i <= Z.of_nat fuel) as Hf.
  { intros u i Hu0 Hi. pose proof (inv_rank _ _ Hu0 i Hi). lia. }
  split.
  - destruct (find_spec n fuel uf1 a Hinv1 Ha (Hf _ _ Hinv1 Ha))
      as (r & uf2 & Hfa & Hra & Hinv2 & Hsf2).
    destruct (find_spec n fuel uf2 b Hinv2 Hb (Hf _ _ Hinv2 Hb))
      as (r' & uf3 & Hfb & Hrb & _ & _).
    apply (sf_root _ _ Hsf2) in Hrb.
    destruct Hsame as (s & Hsa & Hsb).
    assert (r' = r) as ->.
    { rewrite (root_of_fun _ _ _ _ Hra Hsa). exact (root_of_fun _ _ _ _ Hrb Hsb). }
    exists r, uf2, uf3. auto.
  - destruct (union_spec n fuel uf1 a b Hinv1 Ha Hb Hfuel)
      as (b1 & uf4 & rx' & ry' & Hu4 & Hinv4 & Hrx' & Hry' & Hcase).
    destruct Hcase as [(-> & _ & Hsf)|(_ & Hne' & _)].
    + exists uf4. split; [exact Hu4|]. split; [apply (sf_rank _ _ Hsf)|].
      intros i Hi.
      destruct (find_spec n fuel uf1 i Hinv1 Hi (Hf _ _ Hinv1 Hi)) as (r & u & Hf1 & Hr1 & _).
      destruct (find_spec n fuel uf4 i Hinv4 Hi (Hf _ _ Hinv4 Hi)) as (r' & u' & Hf4 & Hr4 & _).
      apply (sf_root _ _ Hsf) in Hr4. rewrite (root_of_fun _ _ _ _ Hr4 Hr1) in Hf4.
      exists r, u, u'. auto.
    + exfalso. apply Hne'. destruct Hsame as (s & Hsa & Hsb).
      rewrite (root_of_fun _ _ _ _ Hrx' Hsa). exact (root_of_fun _ _ _ _ Hsb Hry').
Qed.

Lemma union_twice_witness :
  exists uf4,
    union 4 (after_union 4 two_pairs 1 3) (JNum 1) (JNum 3) = Some (false, uf4) /\
    rank uf4 = rank (after_union 4 two_pairs 1 3).
Proof.
  destruct (union_twice 4 4 two_pairs (after_union 4 two_pairs 1 3) 1 3)
    as (_ & uf4 & Hu & Hrk & _).
  - unfold two_pairs, after_union.
    destruct (union_spec 4 4 (new_UnionFind 4) 0 1)
      as (b1 & u1 & ? & ? & -> & Hinv1 & _);
      [apply new_UnionFind_inv|unfold in_range; lia|unfold in_range; lia|lia|].
    destruct (union_spec 4 4 u1 2 3)
      as (b2 & u2 & ? & ? & -> & Hinv2 & _);
      [exact Hinv1|unfold in_range; lia|unfold in_range; lia|lia|].
    exact Hinv2.
  - unfold in_range; lia.
  - unfold in_range; lia.
  - lia.
  - vm_compute. reflexivity.
  - exists uf4. split; assumption.
Defined.

(** C7 fails as stated: with 0-1 and 2-3 merged, [union(1, 3)] returns
    [true], and the second [union(1, 3)] returns [false] but moves element 3
    from parent 2 to parent 0. *)
Lemma second_union_rewrites_parent :
  union 4 two_pairs (JNum 1) (JNum 3) = Some (true, after_union 4 two_pairs 1 3) /\
  union 4 (after_union 4 two_pairs 1 3) (JNum 1) (JNum 3)
    = Some (false, after_union 4 (after_union 4 two_pairs 1 3) 1 3) /\
  js_get (parent (after_union 4 two_pairs 1 3)) (JNum 3) = JNum 2 /\
  js_get (parent (after_union 4 (after_union 4 two_pairs 1 3) 1 3)) (JNum 3) = JNum 0 /\
  parent (after_union 4 (after_union 4 two_pairs 1 3) 1 3)
    <> parent (after_union 4 two_pairs 1 3).
Proof.
  split; [vm_compute; reflexivity|]. split; [vm_compute; reflexivity|].
  assert (js_get (parent (after_union 4 two_pairs 1 3)) (JNum 3) = JNum 2) as H1
    by (vm_compute; reflexivity).
  assert (js_get (parent (after_union 4 (after_union 4 two_pairs 1 3) 1 3)) (JNum 3) = JNum 0)
    as H2 by (vm_compute; reflexivity).
  split; [exact H1|]. split; [exact H2|].
  intros Heq. rewrite Heq, H1 in H2. discriminate.
Qed.

Section OutOfRange.

Variable n : nat.

Lemma parent_new_outside x :
  ~ in_range n x -> parent (new_UnionFind n) !! JNum x = None.
Proof.
  intros Hx. unfold new_UnionFind; simpl.
  rewrite lookup_init, decide_False; [reflexivity|]. rewrite elem_of_indices. exact Hx.
Qed.

Lemma parent_new_undefined : parent (new_UnionFind n) !! JUndef = None.
Proof.
  unfold new_UnionFind; simpl. apply not_elem_of_list_to_map_1.
  intros H. apply list_elem_of_fmap in H as ([k v] & Hk & H).
  apply list_elem_of_fmap in H as (i & Hi & _). simpl in Hk. congruence.
Qed.

End OutOfRange.

(** C6, as the code has it. On a fresh union-find over [n] elements, [find]
    of an integer outside [0 .. n-1] raises nothing: it returns [undefined]
    and stores [undefined] as the parent of that index; [union] of two such
    integers returns [false] the same way. *)
Theorem find_outside_range (n fuel : nat) (x y : Z) :
  ~ in_range n x -> ~ in_range n y ->
  find (2 + fuel) (new_UnionFind n) (JNum x)
    = Some (JUndef, set_parent (new_UnionFind n) (JNum x) JUndef) /\
  union (2 + fuel) (new_UnionFind n) (JNum x) (JNum y)
    = Some (false,
            set_parent (set_parent (new_UnionFind n) (JNum x) JUndef) (JNum y) JUndef).
Proof.
  intros Hx Hy.
  assert (forall uf z, js_get (parent uf) (JNum z) = JUndef ->
            js_get (parent uf) JUndef = JUndef ->
            find (2 + fuel) uf (JNum z) = Some (JUndef, set_parent uf (JNum z) JUndef)) as Hfind.
  { intros uf z Hz Hu. simpl. rewrite Hz. simpl. rewrite Hu. reflexivity. }
  assert (js_get (parent (new_UnionFind n)) (JNum x) = JUndef) as Hgx
    by (unfold js_get; rewrite parent_new_outside by assumption; reflexivity).
  assert (js_get (parent (new_UnionFind n)) JUndef = JUndef) as Hgu
    by (unfold js_get; rewrite parent_new_undefined; reflexivity).
  split; [apply Hfind; assumption|].
  unfold union. rewrite (Hfind _ x Hgx Hgu).
  rewrite Hfind; [reflexivity| |].
  - unfold set_parent; cbn [parent]. rewrite js_get_insert.
    destruct (decide (JNum x = JNum y)); [reflexivity|].
    unfold js_get. rewrite parent_new_outside by assumption. reflexivity.
  - unfold set_parent; cbn [parent]. rewrite js_get_insert, decide_False by discriminate.
    exact Hgu.
Qed.

Lemma find_outside_range_witness :
  find 2 (new_UnionFind 3) (JNum 7)
    = Some (JUndef, set_parent (new_UnionFind 3) (JNum 7) JUndef) /\
  union 2 (new_UnionFind 3) (JNum 7) (JNum (-1))
    = Some (false,
            set_parent (set_parent (new_UnionFind 3) (JNum 7) JUndef) (JNum (-1)) JUndef).
Proof.
  apply (find_outside_range 3 0 7 (-1)); unfold in_range; lia.
Defined.

(** C6 fails as stated: on three elements [find(7)] returns a value, and
    [union(7, 0)] returns [true] after overwriting the parent of element 0
    with [undefined]. *)
Lemma find_outside_range_returns :
  (exists res, find 2 (new_UnionFind 3) (JNum 7) = Some res) /\
  exists uf', union 2 (new_UnionFind 3) (JNum 7) (JNum 0) = Some (true, uf') /\
    js_get (parent uf') (JNum 0) = JUndef.
Proof.
  split; [eexists; vm_compute; reflexivity|].
  eexists. split; [vm_compute; reflexivity|]. vm_compute. reflexivity.
Qed.

(** ** The cached tree of the application *)

Section Cache.

Lemma addVertex_edges g x y : edges (snd (addVertex g x y)) = edges g.
Proof. unfold addVertex. destruct (tooClose (vertices g) x y); reflexivity. Qed.

(** A canvas click either leaves the edge list alone, or extends it and
    empties the cached tree. *)
Lemma handleCanvasClick_cache app x y :
  (edges (graph (handleCanvasClick app x y)) = edges (graph app) /\
   (mode app = addBuilding -> mstEdges (handleCanvasClick app x y) = mstEdges app)) \/
  (mode app = addConnection /\ mstEdges (handleCanvasClick app x y) = [] /\
   exists e, edges (graph (handleCanvasClick app x y)) = edges (graph app) ++ [e]).
Proof.
  unfold handleCanvasClick. destruct (mode app) eqn:Hmode.
  - left. destruct (addVertex (graph app) x y) as [i g'] eqn:Hadd. simpl.
    split; [|reflexivity].
    change g' with (snd (i, g')). rewrite <- Hadd. apply addVertex_edges.
  - destruct (findClosestVertex (graph app) x y) as [vertexIndex|];
      [|left; split; [reflexivity|discriminate]].
    destruct (selectedVertex app) as [selected|];
      [|left; split; [reflexivity|discriminate]].
    destruct (selected =? vertexIndex); [left; split; [reflexivity|discriminate]|].
    destruct (edge_exists (edges (graph app)) selected vertexIndex);
      [left; split; [reflexivity|discriminate]|].
    destruct (addEdge_cases (graph app) selected vertexIndex)
      as [[-> _]|[(-> & _)|(va & vb & _ & _ & -> & _)]]; simpl.
    + left. split; [reflexivity|discriminate].
    + left. split; [reflexivity|discriminate].
    + right. split; [reflexivity|]. split; [reflexivity|]. eexists. reflexivity.
Qed.

End Cache.

(** C4, as the code has it. The cached tree is emptied by a reset and by
    every step that adds an edge; a canvas click in building mode, whether
    or not it adds a vertex, leaves the cached tree as it was. *)
Theorem cache_invalidation (fuel : nat) (app app' : PipelineApp) (ev : Event) :
  step fuel app ev = Some app' ->
  (ev = ResetClick -> mstEdges app' = []) /\
  ((length (edges (graph app)) < length (edges (graph app')))%nat -> mstEdges app' = []) /\
  (forall x y, ev = CanvasClick x y -> mode app = addBuilding ->
     mstEdges app' = mstEdges app).
Proof.
  intros Hstep. destruct ev as [x y| | | |]; simpl in Hstep.
  - injection Hstep as <-. split; [discriminate|].
    destruct (handleCanvasClick_cache app x y) as [[He Hm]|(_ & Hm & _)].
    + split; [rewrite He; lia|]. intros x' y' [= <- <-]. exact Hm.
    + split; [intros _; exact Hm|]. intros x' y' [= <- <-] Hmode.
      unfold handleCanvasClick in *. rewrite Hmode.
      destruct (addVertex (graph app) x y). reflexivity.
  - injection Hstep as <-. simpl. split; [discriminate|]. split; [lia|discriminate].
  - destruct (Z.of_nat (length (vertices (graph app))) <? 2); injection Hstep as <-; simpl;
      (split; [discriminate|]); (split; [lia|discriminate]).
  - destruct (Z.of_nat (length (vertices (graph app))) <? 2).
    + injection Hstep as <-. split; [discriminate|]. split; [lia|discriminate].
    + destruct (findMST fuel (graph app)); [|discriminate]. injection Hstep as <-. simpl.
      split; [discriminate|]. split; [lia|discriminate].
  - injection Hstep as <-. simpl. split; [reflexivity|]. split; [reflexivity|discriminate].
Qed.

Lemma cache_invalidation_witness :
  mstEdges (after_events 2 (linked_pair ++ [ResetClick])) = [] /\
  mstEdges (after_events 3 (pending_pipe ++ [CanvasClick 200 16])) = [] /\
  mstEdges (after_events 2 (linked_pair ++ [AddBuildingClick; CanvasClick 200 0]))
    = mstEdges (after_events 2 (linked_pair ++ [AddBuildingClick])).
Proof.
  split; [|split].
  - destruct (cache_invalidation 2 (after_events 2 linked_pair)
                (after_events 2 (linked_pair ++ [ResetClick])) ResetClick) as (H & _ & _);
      [vm_compute; reflexivity|].
    apply H. reflexivity.
  - destruct (cache_invalidation 3 (after_events 3 pending_pipe)
                (after_events 3 (pending_pipe ++ [CanvasClick 200 16]))
                (CanvasClick 200 16)) as (_ & H & _);
      [vm_compute; reflexivity|].
    apply H. vm_compute. lia.
  - destruct (cache_invalidation 2 (after_events 2 (linked_pair ++ [AddBuildingClick]))
                (after_events 2 (linked_pair ++ [AddBuildingClick; CanvasClick 200 0]))
                (CanvasClick 200 0)) as (_ & _ & H);
      [vm_compute; reflexivity|].
    apply (H 200%Q 0%Q); [reflexivity|vm_compute; reflexivity].
Defined.

(** C4 fails as stated: with two linked buildings and their tree cached, a
    click in building mode adds a third building and the cached tree is
    still there. *)
Lemma vertex_insertion_keeps_cache :
  step 2 (after_events 2 (linked_pair ++ [AddBuildingClick])) (CanvasClick 200 0)
    = Some (after_events 2 (linked_pair ++ [AddBuildingClick; CanvasClick 200 0])) /\
  length (vertices (graph (after_events 2 (linked_pair ++ [AddBuildingClick])))) = 2%nat /\
  length (vertices (graph (after_events 2
            (linked_pair ++ [AddBuildingClick; CanvasClick 200 0])))) = 3%nat /\
  mstEdges (after_events 2 (linked_pair ++ [AddBuildingClick])) = [Edge.mk 0 1 100] /\
  mstEdges (after_events 2 (linked_pair ++ [AddBuildingClick; CanvasClick 200 0]))
    = [Edge.mk 0 1 100].
Proof. repeat split; vm_compute; reflexivity. Qed.

(** ** The cached tree after a vertex insertion

    A new vertex has no edge, so the tree cached before it was added is
    still what [findMST] computes. *)

Section OneMoreVertex.

Variable n : nat.

Lemma new_UnionFind_S : new_UnionFind (S n) = extend n (new_UnionFind n).
Proof.
  unfold new_UnionFind, extend, indices; cbn [parent rank].
  rewrite seqZ_S, !fmap_app. cbn [fmap list_fmap]. rewrite Z.add_0_l.
  assert (forall f : Z -> jsval,
            JNum (Z.of_nat n) ∉ ((fun i => (JNum i, f i)) <$> seqZ 0 (Z.of_nat n)).*1) as Hfresh.
  { intros f H. apply list_elem_of_fmap in H as ([k v] & Hk & H).
    apply list_elem_of_fmap in H as (i & Hi & Hin). apply elem_of_seqZ in Hin.
    simpl in Hk. injection Hi as -> _. injection Hk as Hk. lia. }
  rewrite !list_to_map_snoc by apply Hfresh. reflexivity.
Qed.

Lemma set_parent_extend uf i v :
  i <> Z.of_nat n ->
  set_parent (extend n uf) (JNum i) v = extend n (set_parent uf (JNum i) v).
Proof.
  intros Hi. unfold set_parent, extend; cbn [parent rank]. f_equal.
  apply insert_insert_ne. congruence.
Qed.

Lemma set_rank_extend uf i v :
  i <> Z.of_nat n ->
  set_rank (extend n uf) (JNum i) v = extend n (set_rank uf (JNum i) v).
Proof.
  intros Hi. unfold set_rank, extend; cbn [parent rank]. f_equal.
  apply insert_insert_ne. congruence.
Qed.

Lemma get_parent_extend uf i :
  i <> Z.of_nat n -> js_get (parent (extend n uf)) (JNum i) = js_get (parent uf) (JNum i).
Proof.
  intros Hi. unfold extend; cbn [parent]. rewrite js_get_insert, decide_False; congruence.
Qed.

Lemma get_rank_extend uf i :
  i <> Z.of_nat n -> js_get (rank (extend n uf)) (JNum i) = js_get (rank uf) (JNum i).
Proof.
  intros Hi. unfold extend; cbn [rank]. rewrite js_get_insert, decide_False; congruence.
Qed.

Lemma find_extend fuel uf : forall x,
  uf_inv n uf -> in_range n x ->
  find fuel (extend n uf) (JNum x) =
    match find fuel uf (JNum x) with
    | Some (r, u) => Some (r, extend n u)
    | None => None
    end.
Proof.
  induction fuel as [|fuel IH]; intros x Hinv Hx; [reflexivity|].
  pose proof (inv_parent _ _ Hinv x Hx) as Hp.
  assert (x <> Z.of_nat n) as Hxn by (unfold in_range in Hx; lia).
  cbn [find]. rewrite get_parent_extend by assumption.
  rewrite get_parent by apply Hp.
  destruct (js_strict_eq (JNum (parZ uf x)) (JNum x)); [reflexivity|].
  rewrite (IH (parZ uf x) Hinv Hp).
  destruct (find fuel uf (JNum (parZ uf x))) as [[r u]|]; [|reflexivity].
  rewrite set_parent_extend by assumption. reflexivity.
Qed.

Lemma union_extend fuel uf x y :
  uf_inv n uf -> in_range n x -> in_range n y -> (n <= fuel)%nat ->
  union fuel (extend n uf) (JNum x) (JNum y) =
    match union fuel uf (JNum x) (JNum y) with
    | Some (b, u) => Some (b, extend n u)
    | None => None
    end.
Proof.
  intros Hinv Hx Hy Hfuel.
  pose proof (inv_rank _ _ Hinv x Hx) as Hrx0.
  destruct (find_spec n fuel uf x Hinv Hx) as (rx & uf1 & Hf1 & Hrx & Hinv1 & Hsf1); [lia|].
  pose proof (inv_rank _ _ Hinv1 y Hy) as Hry0.
  destruct (find_spec n fuel uf1 y Hinv1 Hy) as (ry & uf2 & Hf2 & Hry & Hinv2 & Hsf2); [lia|].
  assert (in_range n rx) as Hrxr by exact (root_of_in_range n uf x rx Hinv Hx Hrx).
  assert (in_range n ry) as Hryr by exact (root_of_in_range n uf1 y ry Hinv1 Hy Hry).
  assert (rx <> Z.of_nat n) as Hrxn by (unfold in_range in Hrxr; lia).
  assert (ry <> Z.of_nat n) as Hryn by (unfold in_range in Hryr; lia).
  unfold union.
  rewrite (find_extend fuel uf x Hinv Hx), Hf1.
  rewrite (find_extend fuel uf1 y Hinv1 Hy), Hf2.
  destruct (js_strict_eq (JNum rx) (JNum ry)); [reflexivity|].
  rewrite !get_rank_extend by assumption.
  destruct (js_lt (js_get (rank uf2) (JNum rx)) (js_get (rank uf2) (JNum ry))).
  { rewrite set_parent_extend by assumption. reflexivity. }
  destruct (js_lt (js_get (rank uf2) (JNum ry)) (js_get (rank uf2) (JNum rx))).
  { rewrite set_parent_extend by assumption. reflexivity. }
  cbv zeta. rewrite set_parent_extend by assumption.
  rewrite get_rank_extend by assumption.
  rewrite set_rank_extend by assumption. reflexivity.
Qed.

Variable fuel : nat.
Hypothesis Hfuel : (n <= fuel)%nat.

(** Once one set is left, the loop picks nothing more. *)
Lemma mst_loop_saturated : forall rest uf mst,
  uf_inv n uf -> valid_edges n rest -> num_roots n uf = 1 ->
  Z.of_nat (length mst) < Z.of_nat n ->
  mst_loop fuel (S n) (extend n uf) mst rest = Some mst.
Proof.
  induction rest as [|e rest IH]; intros uf mst Hinv Hvalid Hone Hlen; [reflexivity|].
  destruct (Hvalid e) as [Ha Hb]; [left|].
  pose proof (inv_rank _ _ Hinv _ Ha) as Hra0.
  destruct (find_spec n fuel uf _ Hinv Ha) as (r1 & uf1 & Hf1 & Hr1 & Hinv1 & Hsf1); [lia|].
  pose proof (inv_rank _ _ Hinv1 _ Hb) as Hrb0.
  destruct (find_spec n fuel uf1 _ Hinv1 Hb) as (r2 & uf2 & Hf2 & Hr2 & Hinv2 & Hsf2); [lia|].
  pose proof (same_forest_trans _ _ _ Hsf1 Hsf2) as Hsf.
  cbn [mst_loop].
  rewrite (find_extend fuel uf _ Hinv Ha), Hf1.
  rewrite (find_extend fuel uf1 _ Hinv1 Hb), Hf2.
  assert (r1 = r2) as ->.
  { destruct (one_root_same_set n uf Hinv Hone _ _ Ha Hb) as (s & Hsa & Hsb).
    apply (sf_root _ _ Hsf1) in Hr2.
    rewrite (root_of_fun _ _ _ _ Hr1 Hsa). exact (root_of_fun _ _ _ _ Hsb Hr2). }
  rewrite js_strict_eq_num, bool_decide_eq_true_2 by reflexivity. cbn [negb].
  apply IH; try assumption.
  - intros e' He'. apply Hvalid. right. exact He'.
  - unfold num_roots. rewrite (roots_ext n uf uf2); [exact Hone|]. apply (sf_is_root _ _ Hsf).
Qed.

Lemma mst_loop_extend : forall sorted uf mst,
  uf_inv n uf -> valid_edges n sorted ->
  num_roots n uf + Z.of_nat (length mst) = Z.of_nat n ->
  Z.of_nat (length mst) < Z.of_nat n - 1 ->
  mst_loop fuel (S n) (extend n uf) mst sorted = mst_loop fuel n uf mst sorted.
Proof.
  induction sorted as [|e rest IH]; intros uf mst Hinv Hvalid Hcount Hlen; [reflexivity|].
  destruct (Hvalid e) as [Ha Hb]; [left|].
  assert (valid_edges n rest) as Hvalid' by (intros e' He'; apply Hvalid; right; exact He').
  pose proof (inv_rank _ _ Hinv _ Ha) as Hra0.
  destruct (find_spec n fuel uf _ Hinv Ha) as (r1 & uf1 & Hf1 & Hr1 & Hinv1 & Hsf1); [lia|].
  pose proof (inv_rank _ _ Hinv1 _ Hb) as Hrb0.
  destruct (find_spec n fuel uf1 _ Hinv1 Hb) as (r2 & uf2 & Hf2 & Hr2 & Hinv2 & Hsf2); [lia|].
  pose proof (same_forest_trans _ _ _ Hsf1 Hsf2) as Hsf.
  assert (num_roots n uf2 = num_roots n uf) as Hnr2.
  { unfold num_roots. rewrite (roots_ext n uf uf2); [reflexivity|]. apply (sf_is_root _ _ Hsf). }
  cbn [mst_loop].
  rewrite (find_extend fuel uf _ Hinv Ha), Hf1.
  rewrite (find_extend fuel uf1 _ Hinv1 Hb), Hf2.
  destruct (negb (js_strict_eq (JNum r1) (JNum r2))) eqn:Hneq.
  - rewrite (union_extend fuel uf2 _ _ Hinv2 Ha Hb Hfuel).
    destruct (union_spec n fuel uf2 _ _ Hinv2 Ha Hb Hfuel)
      as (b & uf3 & rx & ry & Hu & Hinv3 & Hrx & Hry & Hcase).
    rewrite Hu.
    assert (num_roots n uf3 = num_roots n uf - 1) as Hnr3.
    { destruct Hcase as [(_ & Heq & _)|(_ & _ & Hnr3 & _)]; [|lia].
      exfalso. subst ry.
      apply (sf_root _ _ Hsf) in Hrx. apply (sf_root _ _ Hsf1) in Hr2.
      apply (sf_root _ _ Hsf) in Hry.
      rewrite (root_of_fun _ _ _ _ Hr1 Hrx), (root_of_fun _ _ _ _ Hr2 Hry) in Hneq.
      rewrite js_strict_eq_num, bool_decide_eq_true_2 in Hneq by reflexivity. discriminate. }
    pose proof (num_roots_pos n uf3 _ Hinv3 Ha) as Hpos.
    assert (Z.of_nat (length (mst ++ [e])) = Z.of_nat (length mst) + 1) as Hl
      by (rewrite length_app; simpl; lia).
    destruct (Z.eqb_spec (Z.of_nat (length (mst ++ [e]))) (Z.of_nat (S n) - 1)) as [Habs|_]; [lia|].
    destruct (Z.eqb_spec (Z.of_nat (length (mst ++ [e]))) (Z.of_nat n - 1)) as [Hbrk|Hcont].
    + apply mst_loop_saturated; try assumption; lia.
    + apply IH; try assumption; lia.
  - apply IH; try assumption. lia.
Qed.

End OneMoreVertex.

(** With two or more vertices, one more vertex and the same edges give the
    same tree. *)
Lemma findMST_on_S (n fuel : nat) (es : list Edge.t) :
  valid_edges n es -> 2 <= Z.of_nat n -> (n <= fuel)%nat ->
  findMST_on fuel (S n) es = findMST_on fuel n es.
Proof.
  intros Hvalid Hn Hfuel. unfold findMST_on.
  destruct (Z.ltb_spec (Z.of_nat (S n)) 2); [lia|].
  destruct (Z.ltb_spec (Z.of_nat n) 2); [lia|].
  rewrite new_UnionFind_S. apply mst_loop_extend.
  - exact Hfuel.
  - apply new_UnionFind_inv.
  - intros e He. apply Hvalid. apply elem_of_sort_edges, He.
  - rewrite num_roots_new. simpl. lia.
  - simpl. lia.
Qed.

(** A vertex insertion does not change what [findMST] returns. *)
Lemma findMST_addVertex (fuel : nat) (g : Graph) (x y : Q) :
  graph_inv g -> 2 <= Z.of_nat (length (vertices g)) ->
  (length (vertices g) <= fuel)%nat ->
  findMST fuel (snd (addVertex g x y)) = findMST fuel g.
Proof.
  intros Hinv Hn Hfuel. unfold findMST, addVertex.
  destruct (tooClose (vertices g) x y); [reflexivity|].
  cbn [snd vertices edges]. rewrite length_app. cbn [length].
  rewrite Nat.add_1_r. apply findMST_on_S; try assumption.
  apply graph_inv_valid_edges, Hinv.
Qed.

(** ** More on the union-find *)

Section UnionFindUse.

Variables fuel n : nat.
Hypothesis Hfuel : (n <= fuel)%nat.

Lemma find_fuel_ok uf i :
  uf_inv n uf -> in_range n i -> Z.of_nat n - rkZ uf i <= Z.of_nat fuel.
Proof. intros Hinv Hi. pose proof (inv_rank _ _ Hinv i Hi). lia. Qed.

Lemma find_result uf x r uf' :
  uf_inv n uf -> in_range n x -> find fuel uf (JNum x) = Some (r, uf') ->
  exists r0, r = JNum r0 /\ root_of uf x r0 /\ in_range n r0 /\
    uf_inv n uf' /\ same_forest uf uf' /\ parZ uf' r0 = r0.
Proof.
  intros Hinv Hx Hf.
  destruct (find_spec n fuel uf x Hinv Hx (find_fuel_ok uf x Hinv Hx))
    as (r0 & u & Hf' & Hr & Hinv' & Hsf).
  rewrite Hf in Hf'. injection Hf' as -> ->.
  exists r0. split; [reflexivity|]. split; [exact Hr|].
  split; [exact (root_of_in_range n uf x r0 Hinv Hx Hr)|].
  split; [exact Hinv'|]. split; [exact Hsf|].
  apply (sf_is_root _ _ Hsf). exact (root_of_is_root uf x r0 Hr).
Qed.

Lemma find_same_root uf uf' i :
  uf_inv n uf -> uf_inv n uf' -> same_forest uf uf' -> in_range n i ->
  exists s u1 u2,
    find fuel uf (JNum i) = Some (s, u1) /\ find fuel uf' (JNum i) = Some (s, u2).
Proof.
  intros Hinv Hinv' Hsf Hi.
  destruct (find_spec n fuel uf i Hinv Hi (find_fuel_ok uf i Hinv Hi))
    as (r & u1 & Hf1 & Hr1 & _).
  destruct (find_spec n fuel uf' i Hinv' Hi (find_fuel_ok uf' i Hinv' Hi))
    as (r' & u2 & Hf2 & Hr2 & _).
  apply (sf_root _ _ Hsf) in Hr2. rewrite (root_of_fun _ _ _ _ Hr2 Hr1) in Hf2.
  exists (JNum r), u1, u2. auto.
Qed.

Lemma union_result uf x y b uf' :
  uf_inv n uf -> in_range n x -> in_range n y ->
  union fuel uf (JNum x) (JNum y) = Some (b, uf') ->
  uf_inv n uf' /\
  exists rx ry, root_of uf x rx /\ root_of uf y ry /\
    ((b = false /\ rx = ry /\ same_forest uf uf') \/
     (b = true /\ rx <> ry /\ num_roots n uf' = num_roots n uf - 1 /\
      (merged uf uf' rx ry \/ merged uf uf' ry rx))).
Proof.
  intros Hinv Hx Hy Hu.
  destruct (union_spec n fuel uf x y Hinv Hx Hy Hfuel)
    as (b0 & u & rx & ry & Hu' & Hinv' & Hrx & Hry & Hcase).
  rewrite Hu in Hu'. injection Hu' as <- <-.
  split; [exact Hinv'|]. exists rx, ry. auto.
Qed.

Lemma reachable_after_union uf x y :
  reachable fuel n uf -> in_range n x -> in_range n y ->
  reachable fuel n (after_union fuel uf x y).
Proof.
  intros Hr Hx Hy. unfold after_union.
  destruct (union fuel uf (JNum x) (JNum y)) as [[b u]|] eqn:E; [|exact Hr].
  exact (reach_union fuel n uf x y b u Hr Hx Hy E).
Qed.

End UnionFindUse.

Lemma two_pairs_reachable : reachable 4 4 two_pairs.
Proof.
  unfold two_pairs.
  repeat (apply reachable_after_union; [| unfold in_range; lia | unfold in_range; lia]).
  apply reach_new.
Qed.

(** X1. On every store the class can reach, [find] of an element of
    [0 .. n-1] returns within [n] nested calls, and what it returns is an
    element of [0 .. n-1] that is its own parent. *)
Theorem find_returns_root (fuel n : nat) (uf : UnionFind) (x : Z) :
  (n <= fuel)%nat -> reachable fuel n uf -> in_range n x ->
  exists r uf',
    find fuel uf (JNum x) = Some (JNum r, uf') /\ in_range n r /\
    js_get (parent uf') (JNum r) = JNum r.
Proof.
  intros Hfuel Hreach Hx.
  pose proof (reachable_inv fuel n uf Hfuel Hreach) as Hinv.
  destruct (find_spec n fuel uf x Hinv Hx (find_fuel_ok fuel n Hfuel uf x Hinv Hx))
    as (r & uf' & Hf & Hr & Hinv' & Hsf).
  exists r, uf'. split; [exact Hf|].
  assert (in_range n r) as Hrr by exact (root_of_in_range n uf x r Hinv Hx Hr).
  split; [exact Hrr|].
  assert (parZ uf' r = r) as Hp
    by (apply (sf_is_root _ _ Hsf); exact (root_of_is_root uf x r Hr)).
  rewrite get_parent; [congruence|]. rewrite Hp. unfold in_range in Hrr. lia.
Qed.

Lemma find_returns_root_witness :
  exists r uf',
    find 4 two_pairs (JNum 3) = Some (JNum r, uf') /\ in_range 4 r /\
    js_get (parent uf') (JNum r) = JNum r.
Proof.
  apply (find_returns_root 4 4 two_pairs 3).
  - lia.
  - apply two_pairs_reachable.
  - unfold in_range. lia.
Defined.

(** X2. [find] is idempotent: calling it on the value it returned gives that
    value again and leaves the store as it is. *)
Theorem find_idempotent (fuel n : nat) (uf uf' : UnionFind) (x : Z) (r : jsval) :
  (n <= fuel)%nat -> reachable fuel n uf -> in_range n x ->
  find fuel uf (JNum x) = Some (r, uf') ->
  find fuel uf' r = Some (r, uf').
Proof.
  intros Hfuel Hreach Hx Hf.
  pose proof (reachable_inv fuel n uf Hfuel Hreach) as Hinv.
  destruct (find_result fuel n Hfuel uf x r uf' Hinv Hx Hf)
    as (r0 & -> & _ & Hr0 & _ & _ & Hp).
  destruct fuel as [|fuel']; [unfold in_range in Hx; lia|].
  cbn [find]. rewrite get_parent by (rewrite Hp; unfold in_range in Hr0; lia).
  rewrite Hp, js_strict_eq_num, bool_decide_eq_true_2 by reflexivity. reflexivity.
Qed.

Lemma find_idempotent_witness :
  exists r uf',
    find 3 (new_UnionFind 3) (JNum 2) = Some (r, uf') /\ find 3 uf' r = Some (r, uf').
Proof.
  exists (JNum 2), (new_UnionFind 3). split; [vm_compute; reflexivity|].
  apply (find_idempotent 3 3 (new_UnionFind 3) (new_UnionFind 3) 2 (JNum 2)).
  - lia.
  - apply reach_new.
  - unfold in_range. lia.
  - vm_compute. reflexivity.
Defined.

(** X3. [find] only reads the partition: it leaves the rank array as it is,
    and every element has the same representative after it as before. *)
Theorem find_keeps_partition (fuel n : nat) (uf uf' : UnionFind) (x : Z) (r : jsval) :
  (n <= fuel)%nat -> reachable fuel n uf -> in_range n x ->
  find fuel uf (JNum x) = Some (r, uf') ->
  rank uf' = rank uf /\
  forall i, in_range n i ->
    exists s u1 u2,
      find fuel uf (JNum i) = Some (s, u1) /\ find fuel uf' (JNum i) = Some (s, u2).
Proof.
  intros Hfuel Hreach Hx Hf.
  pose proof (reachable_inv fuel n uf Hfuel Hreach) as Hinv.
  destruct (find_result fuel n Hfuel uf x r uf' Hinv Hx Hf)
    as (r0 & -> & _ & _ & Hinv' & Hsf & _).
  split; [apply (sf_rank _ _ Hsf)|].
  intros i Hi. apply (find_same_root fuel n Hfuel); assumption.
Qed.

Lemma find_keeps_partition_witness :
  exists uf', find 4 (after_union 4 two_pairs 1 3) (JNum 3) = Some (JNum 0, uf') /\
    rank uf' = rank (after_union 4 two_pairs 1 3).
Proof.
  eexists. split; [vm_compute; reflexivity|].
  refine (proj1 (find_keeps_partition 4 4 (after_union 4 two_pairs 1 3) _ 3 (JNum 0) _ _ _ _)).
  - lia.
  - apply reachable_after_union; [apply two_pairs_reachable| |]; unfold in_range; lia.
  - unfold in_range. lia.
  - vm_compute. reflexivity.
Defined.

(** X4. Path compression: after [find(x)] the parent of [x] is the returned
    root, so a second [find(x)] returns it within two nested calls and
    leaves the store as it is. *)
Theorem find_compresses (fuel n : nat) (uf uf' : UnionFind) (x : Z) (r : jsval) :
  (n <= fuel)%nat -> reachable fuel n uf -> in_range n x ->
  find fuel uf (JNum x) = Some (r, uf') ->
  js_get (parent uf') (JNum x) = r /\ find 2 uf' (JNum x) = Some (r, uf').
Proof.
  intros Hfuel Hreach Hx Hf.
  pose proof (reachable_inv fuel n uf Hfuel Hreach) as Hinv.
  destruct (find_result fuel n Hfuel uf x r uf' Hinv Hx Hf)
    as (r0 & -> & Hroot & Hr0 & Hinv' & Hsf & Hp).
  assert (js_get (parent uf') (JNum x) = JNum r0) as Hget.
  { destruct fuel as [|fuel']; [discriminate|]. cbn [find] in Hf.
    destruct (js_strict_eq (js_get (parent uf) (JNum x)) (JNum x)) eqn:Heq.
    - injection Hf as <- <-.
      pose proof (inv_parent _ _ Hinv x Hx) as Hpx.
      rewrite get_parent in Heq |- * by apply Hpx.
      rewrite js_strict_eq_num in Heq. apply bool_decide_eq_true_1 in Heq. congruence.
    - destruct (find fuel' uf (js_get (parent uf) (JNum x))) as [[r1 u1]|]; [|discriminate].
      injection Hf as -> <-. unfold set_parent; cbn [parent].
      rewrite js_get_insert, decide_True; reflexivity. }
  split; [exact Hget|].
  cbn [find]. rewrite Hget, js_strict_eq_num.
  destruct (bool_decide_reflect (r0 = x)) as [->|Hne]; [reflexivity|].
  rewrite get_parent by (rewrite Hp; unfold in_range in Hr0; lia).
  rewrite Hp, js_strict_eq_num, bool_decide_eq_true_2 by reflexivity.
  f_equal. f_equal. destruct uf' as [p rk]. unfold set_parent; cbn [parent rank] in *.
  f_equal. apply insert_id. unfold js_get in Hget.
  destruct (p !! JNum x) as [v|]; simpl in Hget; [congruence|discriminate].
Qed.

Lemma find_compresses_witness :
  exists uf',
    find 4 (after_union 4 two_pairs 1 3) (JNum 3) = Some (JNum 0, uf') /\
    js_get (parent uf') (JNum 3) = JNum 0 /\ find 2 uf' (JNum 3) = Some (JNum 0, uf').
Proof.
  eexists. split; [vm_compute; reflexivity|].
  refine (find_compresses 4 4 (after_union 4 two_pairs 1 3) _ 3 (JNum 0) _ _ _ _).
  - lia.
  - apply reachable_after_union; [apply two_pairs_reachable| |]; unfold in_range; lia.
  - unfold in_range. lia.
  - vm_compute. reflexivity.
Defined.

(** X5. [union(x, y)] returns [false] exactly when [x] and [y] were already
    in one set, and then it changes neither the ranks nor the partition; it
    lowers the number of sets by one exactly when it returns [true]. *)
Theorem union_result_meaning (fuel n : nat) (uf uf' : UnionFind) (x y : Z) (b : bool) :
  (n <= fuel)%nat -> reachable fuel n uf -> in_range n x -> in_range n y ->
  union fuel uf (JNum x) (JNum y) = Some (b, uf') ->
  (b = false <-> same_set uf x y) /\
  (b = false -> rank uf' = rank uf /\ forall i j, same_set uf' i j <-> same_set uf i j) /\
  num_roots n uf' = num_roots n uf - (if b then 1 else 0).
Proof.
  intros Hfuel Hreach Hx Hy Hu.
  pose proof (reachable_inv fuel n uf Hfuel Hreach) as Hinv.
  destruct (union_result fuel n Hfuel uf x y b uf' Hinv Hx Hy Hu)
    as (Hinv' & rx & ry & Hrx & Hry & Hcase).
  destruct Hcase as [(-> & <- & Hsf)|(-> & Hne & Hnr & _)].
  - split; [split; [intros _; exists rx; auto|reflexivity]|].
    split.
    + intros _. split; [apply (sf_rank _ _ Hsf)|]. intros i j. apply same_set_forest, Hsf.
    + unfold num_roots. rewrite (roots_ext n uf uf'); [lia|]. apply (sf_is_root _ _ Hsf).
  - split; [|split; [discriminate|exact Hnr]].
    split; [discriminate|]. intros (s & Hsx & Hsy). exfalso. apply Hne.
    rewrite (root_of_fun _ _ _ _ Hrx Hsx). exact (root_of_fun _ _ _ _ Hsy Hry).
Qed.

Lemma union_result_meaning_witness :
  exists uf',
    union 4 two_pairs (JNum 1) (JNum 3) = Some (true, uf') /\
    num_roots 4 uf' = num_roots 4 two_pairs - 1.
Proof.
  eexists. split; [vm_compute; reflexivity|].
  refine (proj2 (proj2 (union_result_meaning 4 4 two_pairs _ 1 3 true _ _ _ _ _))).
  - lia.
  - apply two_pairs_reachable.
  - unfold in_range. lia.
  - unfold in_range. lia.
  - vm_compute. reflexivity.
Defined.

(** X6. A [union(x, y)] that returns [true] joins the set of [x] with the
    set of [y] and nothing else: two elements share a set afterwards exactly
    when they did before, or one was with [x] and the other with [y]. *)
Theorem union_joins_two_sets (fuel n : nat) (uf uf' : UnionFind) (x y : Z) :
  (n <= fuel)%nat -> reachable fuel n uf -> in_range n x -> in_range n y ->
  union fuel uf (JNum x) (JNum y) = Some (true, uf') ->
  forall i j, in_range n i -> in_range n j ->
    (same_set uf' i j <->
     same_set uf i j \/ (same_set uf i x /\ same_set uf j y)
                     \/ (same_set uf i y /\ same_set uf j x)).
Proof.
  intros Hfuel Hreach Hx Hy Hu i j Hi Hj.
  pose proof (reachable_inv fuel n uf Hfuel Hreach) as Hinv.
  destruct (union_result fuel n Hfuel uf x y true uf' Hinv Hx Hy Hu)
    as (Hinv' & rx & ry & Hrx & Hry & Hcase).
  destruct Hcase as [(Hb & _)|(_ & Hne & _ & Hm)]; [discriminate|].
  assert (forall a b, same_set uf a b -> same_set uf' a b) as Hmono
    by (intros a b; destruct Hm as [Hm|Hm]; apply (merged_mono _ _ _ _ _ _ Hm)).
  assert (same_set uf' x y) as Hxy.
  { destruct Hm as [Hm|Hm].
    - apply (merged_joined _ _ _ _ _ _ Hm); auto.
    - apply same_set_sym. apply (merged_joined _ _ _ _ _ _ Hm); auto. }
  split.
  - intros Hs.
    destruct Hm as [Hm|Hm];
      destruct (merged_sound _ _ _ _ _ _ Hm Hs) as [H|[[H1 H2]|[H1 H2]]];
      try (left; exact H).
    + right. left. split; [exists rx|exists ry]; auto.
    + right. right. split; [exists ry|exists rx]; auto.
    + right. right. split; [exists ry|exists rx]; auto.
    + right. left. split; [exists rx|exists ry]; auto.
  - intros [H|[[H1 H2]|[H1 H2]]].
    + apply Hmono, H.
    + eapply same_set_trans; [apply Hmono, H1|].
      eapply same_set_trans; [exact Hxy|]. apply same_set_sym, Hmono, H2.
    + eapply same_set_trans; [apply Hmono, H1|].
      eapply same_set_trans; [apply same_set_sym, Hxy|]. apply same_set_sym, Hmono, H2.
Qed.

Lemma union_joins_two_sets_witness :
  same_set (after_union 4 two_pairs 1 3) 0 2 <->
  same_set two_pairs 0 2 \/ (same_set two_pairs 0 1 /\ same_set two_pairs 2 3)
                         \/ (same_set two_pairs 0 3 /\ same_set two_pairs 2 1).
Proof.
  apply (union_joins_two_sets 4 4 two_pairs (after_union 4 two_pairs 1 3) 1 3).
  - lia.
  - apply two_pairs_reachable.
  - unfold in_range. lia.
  - unfold in_range. lia.
  - vm_compute. reflexivity.
  - unfold in_range. lia.
  - unfold in_range. lia.
Defined.

(** X7. On every store the class can reach, each rank is an integer between
    0 and [n - 1], and the rank of a non-root element is below its
    parent's. *)
Theorem ranks_grow_to_the_root (fuel n : nat) (uf : UnionFind) (i : Z) :
  (n <= fuel)%nat -> reachable fuel n uf -> in_range n i ->
  exists p r,
    js_get (parent uf) (JNum i) = JNum p /\ in_range n p /\
    js_get (rank uf) (JNum i) = JNum r /\ 0 <= r <= Z.of_nat n - 1 /\
    (p <> i -> exists rp, js_get (rank uf) (JNum p) = JNum rp /\ r < rp).
Proof.
  intros Hfuel Hreach Hi.
  pose proof (reachable_inv fuel n uf Hfuel Hreach) as Hinv.
  pose proof (inv_parent _ _ Hinv i Hi) as Hp.
  pose proof (inv_rank _ _ Hinv i Hi) as Hr.
  pose proof (inv_rank_bound _ _ Hinv i Hi) as Hb.
  pose proof (num_roots_pos n uf i Hinv Hi) as Hpos.
  exists (parZ uf i), (rkZ uf i).
  split; [apply get_parent; unfold in_range in Hp; lia|]. split; [exact Hp|].
  split; [apply get_rank, Hr|]. split; [lia|].
  intros Hne. exists (rkZ uf (parZ uf i)).
  split; [apply get_rank, (inv_rank _ _ Hinv _ Hp)|]. apply (inv_rank_inc _ _ Hinv i Hi Hne).
Qed.

Lemma ranks_grow_to_the_root_witness :
  exists p r,
    js_get (parent two_pairs) (JNum 3) = JNum p /\ in_range 4 p /\
    js_get (rank two_pairs) (JNum 3) = JNum r /\ 0 <= r <= Z.of_nat 4 - 1 /\
    (p <> 3 -> exists rp, js_get (rank two_pairs) (JNum p) = JNum rp /\ r < rp).
Proof.
  apply (ranks_grow_to_the_root 4 4 two_pairs 3).
  - lia.
  - apply two_pairs_reachable.
  - unfold in_range. lia.
Defined.

(** X8. The tie-break on a fresh store: [union(x, y)] of two different
    elements returns [true], puts [y] under [x] and raises the rank of [x]
    to 1, touching nothing else. *)
Theorem union_fresh (fuel n : nat) (x y : Z) :
  in_range n x -> in_range n y -> x <> y ->
  union (S fuel) (new_UnionFind n) (JNum x) (JNum y) =
    Some (true,
          set_rank (set_parent (new_UnionFind n) (JNum y) (JNum x)) (JNum x) (JNum 1)).
Proof.
  intros Hx Hy Hne.
  assert (forall i, in_range n i ->
            find (S fuel) (new_UnionFind n) (JNum i) = Some (JNum i, new_UnionFind n)) as Hfind.
  { intros i Hi. cbn [find]. rewrite get_parent by (rewrite parZ_new by assumption; apply Hi).
    rewrite parZ_new, js_strict_eq_num, bool_decide_eq_true_2 by (assumption || reflexivity).
    reflexivity. }
  unfold union. rewrite (Hfind x Hx), (Hfind y Hy).
  rewrite js_strict_eq_num, bool_decide_eq_false_2 by assumption.
  rewrite !get_rank by (rewrite rkZ_new by assumption; lia).
  rewrite !rkZ_new by assumption. cbn [js_lt]. rewrite Z.ltb_irrefl. cbv zeta.
  change (rank (set_parent (new_UnionFind n) (JNum y) (JNum x))) with (rank (new_UnionFind n)).
  rewrite get_rank by (rewrite rkZ_new by assumption; lia).
  rewrite rkZ_new by assumption. reflexivity.
Qed.

Lemma union_fresh_witness :
  union 1 (new_UnionFind 2) (JNum 1) (JNum 0) =
    Some (true,
          set_rank (set_parent (new_UnionFind 2) (JNum 0) (JNum 1)) (JNum 1) (JNum 1)).
Proof. apply (union_fresh 0 2 1 0); unfold in_range; lia. Defined.

(** ** More on the graph store *)

Section Store.

Lemma distance_sym va vb :
  distance va (Vertex.x vb) (Vertex.y vb) = distance vb (Vertex.x va) (Vertex.y va).
Proof.
  unfold distance. f_equal. rewrite !Q2R_norm2, !Q2R_minus. ring.
Qed.

Lemma round_sqrt_sym xa ya xb yb :
  round_sqrt (norm2 (xa - xb) (ya - yb)) = round_sqrt (norm2 (xb - xa) (yb - ya)).
Proof.
  unfold round_sqrt. f_equal. f_equal. f_equal. apply Qfloor_comp.
  unfold norm2. ring.
Qed.

Lemma vertex_at_lookup vs i v :
  vertex_at vs i = Some v <-> 0 <= i /\ vs !! Z.to_nat i = Some v.
Proof.
  unfold vertex_at. destruct (Z.ltb_spec i 0); split.
  - discriminate.
  - intros [? _]. lia.
  - auto.
  - tauto.
Qed.

Lemma vertex_at_app vs vs' i v :
  vertex_at vs i = Some v -> vertex_at (vs ++ vs') i = Some v.
Proof.
  rewrite !vertex_at_lookup. intros [H0 Hl]. split; [assumption|].
  apply lookup_app_l_Some, Hl.
Qed.

Lemma store_inv_new : store_inv new_Graph.
Proof.
  split.
  - apply graph_inv_new.
  - intros i j vi vj Hi. simpl in Hi. rewrite lookup_nil in Hi. discriminate.
  - intros e He. inversion He.
Qed.

Lemma store_inv_addVertex g x y : store_inv g -> store_inv (snd (addVertex g x y)).
Proof.
  intros [Hg Hs Hw]. split; [apply graph_inv_addVertex, Hg| |].
  - unfold addVertex. destruct (tooClose (vertices g) x y) eqn:Hc; [exact Hs|].
    cbn [snd vertices]. pose proof (proj1 (tooClose_false _ _ _) Hc) as Hfar.
    intros i j vi vj Hi Hj Hij.
    apply lookup_snoc_Some in Hi as [[Hil Hi]|[Hil <-]];
      apply lookup_snoc_Some in Hj as [[Hjl Hj]|[Hjl <-]].
    + exact (Hs i j vi vj Hi Hj Hij).
    + cbn [Vertex.x Vertex.y]. apply Hfar. eapply list_elem_of_lookup_2, Hi.
    + rewrite distance_sym. cbn [Vertex.x Vertex.y]. apply Hfar.
      eapply list_elem_of_lookup_2, Hj.
    + lia.
  - unfold addVertex. destruct (tooClose (vertices g) x y); [exact Hw|].
    cbn [snd vertices edges]. intros e He.
    destruct (Hw e He) as (va & vb & Ha & Hb & Hd).
    exists va, vb. split; [apply vertex_at_app, Ha|]. split; [apply vertex_at_app, Hb|exact Hd].
Qed.

Lemma store_inv_addEdge g a b : store_inv g -> store_inv (snd (addEdge g a b)).
Proof.
  intros [Hg Hs Hw]. split; [apply graph_inv_addEdge, Hg| |];
    destruct (addEdge_cases g a b)
      as [[-> _]|[(-> & _)|(va & vb & Hva & Hvb & -> & Hab & Ha & Hb & Hex)]];
    cbn [snd vertices edges]; try assumption.
  intros e He. apply elem_of_app in He as [He|He]; [apply Hw, He|].
  apply list_elem_of_singleton in He. subst e. unfold weight_of_distance.
  cbn [Edge.v1 Edge.v2 Edge.weight].
  pose proof (round_sqrt_spec (norm2 (Vertex.x va - Vertex.x vb) (Vertex.y va - Vertex.y vb))
                (norm2_nonneg _ _)) as Hround.
  destruct (Z.lt_ge_cases a b) as [Hlt|Hge].
  - rewrite Z.min_l, Z.max_r by lia. exists va, vb. auto.
  - rewrite Z.min_r, Z.max_l by lia. exists vb, va. split; [assumption|].
    split; [assumption|]. rewrite distance_sym. exact Hround.
Qed.


Lemma serve_prefix g r :
  vertices g `prefix_of` vertices (serve g r) /\ edges g `prefix_of` edges (serve g r).
Proof.
  destruct r as [x y|a b]; simpl.
  - unfold addVertex. destruct (tooClose (vertices g) x y); simpl.
    + split; reflexivity.
    + split; [apply prefix_app_r|]; reflexivity.
  - destruct (addEdge_cases g a b)
      as [[-> _]|[(-> & _)|(va & vb & _ & _ & -> & _)]]; simpl.
    + split; reflexivity.
    + split; reflexivity.
    + split; [|apply prefix_app_r]; reflexivity.
Qed.

End Store.

(** X10. The store only appends: whatever requests follow, the vertices and
    the edges already stored keep their positions and their contents. *)
Theorem store_is_append_only (g : Graph) (rs : list Request) :
  vertices g `prefix_of` vertices (serve_all g rs) /\
  edges g `prefix_of` edges (serve_all g rs).
Proof.
  unfold serve_all. revert g. induction rs as [|r rs IH]; intros g; simpl.
  - split; reflexivity.
  - destruct (serve_prefix g r) as [Hv He]. destruct (IH (serve g r)) as [Hv' He'].
    split; etransitivity; eassumption.
Qed.



(** X13. The order of the two arguments of [addEdge] does not matter: both
    orders return the same boolean and leave the same graph. *)
Theorem addEdge_symmetric (g : Graph) (a b : Z) :
  addEdge_ret g a b = addEdge_ret g b a /\ addEdge_graph g a b = addEdge_graph g b a.
Proof.
  unfold addEdge_ret, addEdge_graph.
  destruct (addEdge_cases g a b)
    as [[Hr Hc]|[(Hr & Hab & Ha & Hb & Hex)|(va & vb & Hva & Hvb & Hr & Hab & Ha & Hb & Hex)]];
    destruct (addEdge_cases g b a)
      as [[Hr' Hc']|[(Hr' & Hab' & Ha' & Hb' & Hex')
                    |(vb' & va' & Hvb' & Hva' & Hr' & Hab' & Ha' & Hb' & Hex')]];
    rewrite Hr, Hr'; cbn [fst snd]; try (split; reflexivity);
    try (exfalso; lia); try (rewrite edge_exists_sym in Hex; congruence).
  split; [reflexivity|].
  rewrite Hva in Hva'. rewrite Hvb in Hvb'. injection Hva' as <-. injection Hvb' as <-.
  rewrite (Z.min_comm b a), (Z.max_comm b a).
  rewrite (round_sqrt_sym (Vertex.x vb) (Vertex.y vb) (Vertex.x va) (Vertex.y va)).
  reflexivity.
Qed.

(** X14. Called with two integers, as the click handler calls it with the
    indices [findClosestVertex] returned, [addEdge] never reaches its
    [catch] block: the range test has made sure that both vertices exist
    before they are read.  (An argument that is not an integer passes the
    range test and is caught: see [addEdge_number] below.) *)
Theorem addEdge_never_catches (g : Graph) (a b : Z) :
  addEdge_log g a b <> ErrorAddingEdge.
Proof.
  unfold addEdge_log.
  destruct (addEdge_cases g a b)
    as [[-> _]|[(-> & _)|(va & vb & _ & _ & -> & _)]]; discriminate.
Qed.

(** X15. Asking for the same edge twice is the same as asking once: the
    second [addEdge(a, b)] returns [false] and leaves the graph as the first
    one left it. *)
Theorem addEdge_twice (g : Graph) (a b : Z) :
  addEdge_ret (addEdge_graph g a b) a b = false /\
  addEdge_graph (addEdge_graph g a b) a b = addEdge_graph g a b.
Proof.
  unfold addEdge_ret, addEdge_graph.
  destruct (addEdge_cases g a b)
    as [[Hr Hc]|[(Hr & Hab & Ha & Hb & Hex)|(va & vb & Hva & Hvb & Hr & Hab & Ha & Hb & Hex)]];
    rewrite Hr; cbn [fst snd]; try (rewrite Hr; split; reflexivity).
  match goal with |- context [addEdge ?g' a b] =>
    destruct (addEdge_cases g' a b)
      as [[Hr' _]|[(Hr' & _)|(_ & _ & _ & _ & _ & _ & _ & _ & Hex')]] end;
    try (rewrite Hr'; split; reflexivity).
  exfalso. cbn [edges] in Hex'.
  match type of Hex' with edge_exists ?l a b = false =>
    assert (edge_exists l a b = true) as Hex''; [|congruence] end.
  apply edge_exists_spec. eexists. split; [apply elem_of_app; right; left|].
  cbn [Edge.v1 Edge.v2]. lia.
Qed.

(** ** More on the solver: the result is a spanning forest *)

Section SpanningForest.

Variable n : nat.
Variable fuel : nat.
Hypothesis Hfuel : (n <= fuel)%nat.

(** Edges whose ends share a set cannot lead out of a set. *)
Lemma same_set_closed uf (l : list Edge.t) :
  uf_inv n uf ->
  (forall e, e ∈ l ->
     in_range n (Edge.v1 e) /\ in_range n (Edge.v2 e) /\
     same_set uf (Edge.v1 e) (Edge.v2 e)) ->
  forall i j, in_range n i -> rtc (adjacent l) i j -> in_range n j /\ same_set uf i j.
Proof.
  intros Hinv Hl i j Hi Hr. induction Hr as [i|i k j Hik _ IH].
  - split; [assumption|]. apply (same_set_refl n); assumption.
  - destruct Hik as (e & He & Hends). destruct (Hl e He) as (H1 & H2 & Hs).
    assert (in_range n k /\ same_set uf i k) as [Hk Hik].
    { destruct Hends as [[<- <-]|[<- <-]]; split; auto using same_set_sym. }
    destruct (IH Hk) as [Hj Hkj]. split; [assumption|].
    eapply same_set_trans; eassumption.
Qed.

Lemma mst_loop_forest : forall sorted uf mst,
  uf_inv n uf -> valid_edges n sorted ->
  num_roots n uf + Z.of_nat (length mst) = Z.of_nat n ->
  Z.of_nat (length mst) < Z.of_nat n - 1 ->
  forest mst ->
  (forall i j, in_range n i -> in_range n j -> same_set uf i j -> rtc (adjacent mst) i j) ->
  (forall e, e ∈ mst ->
     in_range n (Edge.v1 e) /\ in_range n (Edge.v2 e) /\
     same_set uf (Edge.v1 e) (Edge.v2 e)) ->
  exists picked uf',
    mst_loop fuel n uf mst sorted = Some (mst ++ picked) /\
    uf_inv n uf' /\ forest (mst ++ picked) /\
    num_roots n uf' + Z.of_nat (length (mst ++ picked)) = Z.of_nat n /\
    (forall i j, in_range n i -> in_range n j -> same_set uf' i j ->
       rtc (adjacent (mst ++ picked)) i j) /\
    (forall i j, same_set uf i j -> same_set uf' i j) /\
    (Z.of_nat (length (mst ++ picked)) = Z.of_nat n - 1 \/
     forall e, e ∈ sorted -> same_set uf' (Edge.v1 e) (Edge.v2 e)).
Proof.
  induction sorted as [|e rest IH];
    intros uf mst Hinv Hvalid Hcount Hlen Hforest Hsound Hclosed.
  - exists [], uf. rewrite app_nil_r. simpl.
    split; [reflexivity|]. split; [assumption|]. split; [assumption|].
    split; [assumption|]. split; [assumption|]. split; [auto|].
    right. intros e He. inversion He.
  - destruct (Hvalid e) as [Ha Hb]; [left|].
    assert (valid_edges n rest) as Hvalid' by (intros e' He'; apply Hvalid; right; exact He').
    pose proof (inv_rank _ _ Hinv _ Ha) as Hra0.
    destruct (find_spec n fuel uf _ Hinv Ha) as (r1 & uf1 & Hf1 & Hr1 & Hinv1 & Hsf1); [lia|].
    pose proof (inv_rank _ _ Hinv1 _ Hb) as Hrb0.
    destruct (find_spec n fuel uf1 _ Hinv1 Hb) as (r2 & uf2 & Hf2 & Hr2 & Hinv2 & Hsf2); [lia|].
    pose proof (same_forest_trans _ _ _ Hsf1 Hsf2) as Hsf.
    assert (root_of uf2 (Edge.v1 e) r1) as Hr1' by (apply (sf_root _ _ Hsf), Hr1).
    assert (root_of uf2 (Edge.v2 e) r2) as Hr2' by (apply (sf_root _ _ Hsf2), Hr2).
    assert (num_roots n uf2 = num_roots n uf) as Hnr2.
    { unfold num_roots. rewrite (roots_ext n uf uf2); [reflexivity|]. apply (sf_is_root _ _ Hsf). }
    assert (forall i j, in_range n i -> in_range n j -> same_set uf2 i j ->
              rtc (adjacent mst) i j) as Hsound2.
    { intros i j Hi Hj Hs. apply Hsound; try assumption.
      apply (same_set_forest _ _ _ _ Hsf), Hs. }
    assert (forall e', e' ∈ mst ->
              in_range n (Edge.v1 e') /\ in_range n (Edge.v2 e') /\
              same_set uf2 (Edge.v1 e') (Edge.v2 e')) as Hclosed2.
    { intros e' He'. destruct (Hclosed e' He') as (H1 & H2 & Hs).
      split; [assumption|]. split; [assumption|]. apply (same_set_forest _ _ _ _ Hsf), Hs. }
    cbn [mst_loop]. rewrite Hf1, Hf2, js_strict_eq_num.
    destruct (bool_decide_reflect (r1 = r2)) as [Heq|Hne]; cbn [negb].
    + destruct (IH uf2 mst Hinv2 Hvalid')
        as (picked & uf' & Hrun & Hinv' & Hfor & Hcount' & Hsound' & Hmono & Hdone);
        try assumption; [lia|].
      exists picked, uf'. split; [exact Hrun|]. split; [assumption|]. split; [assumption|].
      split; [assumption|]. split; [assumption|].
      split.
      { intros i j Hs. apply Hmono. apply (same_set_forest _ _ _ _ Hsf), Hs. }
      destruct Hdone as [Hdone|Hdone]; [left; assumption|right].
      intros e' He'. apply elem_of_cons in He' as [->|He']; [|apply Hdone, He'].
      apply Hmono. exists r1. subst r2. auto.
    + destruct (union_spec n fuel uf2 _ _ Hinv2 Ha Hb Hfuel)
        as (b & uf3 & rx & ry & Hu & Hinv3 & Hrx & Hry & Hcase).
      rewrite Hu.
      assert (rx = r1) as -> by (eapply root_of_fun; eassumption).
      assert (ry = r2) as -> by (eapply root_of_fun; eassumption).
      destruct Hcase as [(_ & Heq & _)|(_ & _ & Hnr3 & Hm)]; [contradiction|].
      assert (forall i j, same_set uf2 i j -> same_set uf3 i j) as Hmono3.
      { intros i j. destruct Hm as [Hm|Hm]; apply (merged_mono _ _ _ _ _ _ Hm). }
      assert (same_set uf3 (Edge.v1 e) (Edge.v2 e)) as Hjoin.
      { destruct Hm as [Hm|Hm].
        - apply (merged_joined _ _ _ _ _ _ Hm); auto.
        - apply same_set_sym. apply (merged_joined _ _ _ _ _ _ Hm); auto. }
      assert (forall i j, rtc (adjacent mst) i j -> rtc (adjacent (mst ++ [e])) i j) as Hgrow.
      { intros i j. apply rtc_subrel. intros x y. apply adjacent_subseteq.
        intros e' He'. apply elem_of_app. left. exact He'. }
      assert (rtc (adjacent (mst ++ [e])) (Edge.v1 e) (Edge.v2 e)) as Hedge.
      { apply rtc_once. exists e. split; [apply elem_of_app; right; left|]. auto. }
      assert (forest (mst ++ [e])) as Hforest3.
      { apply forest_snoc; [assumption|]. intros Hpath.
        destruct (same_set_closed uf2 mst Hinv2 Hclosed2 _ _ Ha Hpath) as [_ (s & Hs1 & Hs2)].
        apply Hne. rewrite (root_of_fun _ _ _ _ Hr1' Hs1). exact (root_of_fun _ _ _ _ Hs2 Hr2'). }
      assert (forall i j, in_range n i -> in_range n j -> same_set uf3 i j ->
                rtc (adjacent (mst ++ [e])) i j) as Hsound3.
      { intros i j Hi Hj Hs.
        assert (forall k r, in_range n k -> root_of uf2 k r ->
                  root_of uf2 (Edge.v1 e) r -> rtc (adjacent (mst ++ [e])) k (Edge.v1 e)) as Hto1.
        { intros k r Hk H1 H2. apply Hgrow, Hsound2; try assumption. exists r. auto. }
        assert (forall k r, in_range n k -> root_of uf2 k r ->
                  root_of uf2 (Edge.v2 e) r -> rtc (adjacent (mst ++ [e])) k (Edge.v2 e)) as Hto2.
        { intros k r Hk H1 H2. apply Hgrow, Hsound2; try assumption. exists r. auto. }
        destruct Hm as [Hm|Hm];
          destruct (merged_sound _ _ _ _ _ _ Hm Hs) as [H|[[Hi' Hj']|[Hi' Hj']]];
          try (apply Hgrow, Hsound2; assumption).
        - eapply rtc_trans; [eapply Hto1; eassumption|].
          eapply rtc_trans; [exact Hedge|]. apply rtc_adjacent_sym. eapply Hto2; eassumption.
        - eapply rtc_trans; [eapply Hto2; eassumption|].
          eapply rtc_trans; [apply rtc_adjacent_sym, Hedge|].
          apply rtc_adjacent_sym. eapply Hto1; eassumption.
        - eapply rtc_trans; [eapply Hto2; eassumption|].
          eapply rtc_trans; [apply rtc_adjacent_sym, Hedge|].
          apply rtc_adjacent_sym. eapply Hto1; eassumption.
        - eapply rtc_trans; [eapply Hto1; eassumption|].
          eapply rtc_trans; [exact Hedge|]. apply rtc_adjacent_sym. eapply Hto2; eassumption. }
      assert (forall e', e' ∈ mst ++ [e] ->
                in_range n (Edge.v1 e') /\ in_range n (Edge.v2 e') /\
                same_set uf3 (Edge.v1 e') (Edge.v2 e')) as Hclosed3.
      { intros e' He'. apply elem_of_app in He' as [He'|He'].
        - destruct (Hclosed2 e' He') as (H1 & H2 & Hs). auto.
        - apply list_elem_of_singleton in He'. subst e'. auto. }
      assert (num_roots n uf3 + Z.of_nat (length (mst ++ [e])) = Z.of_nat n) as Hcount3.
      { rewrite length_app. simpl. lia. }
      pose proof (num_roots_pos n uf3 _ Hinv3 Ha) as Hpos3.
      destruct (Z.eqb_spec (Z.of_nat (length (mst ++ [e]))) (Z.of_nat n - 1)) as [Hbrk|Hcont].
      * exists [e], uf3. split; [reflexivity|]. split; [assumption|]. split; [assumption|].
        split; [assumption|]. split; [assumption|].
        split; [|left; assumption].
        intros i j Hs. apply Hmono3. apply (same_set_forest _ _ _ _ Hsf), Hs.
      * destruct (IH uf3 (mst ++ [e]) Hinv3 Hvalid')
          as (picked & uf' & Hrun & Hinv' & Hfor & Hcount' & Hsound' & Hmono & Hdone);
          try assumption; [lia|].
        exists (e :: picked), uf'.
        replace (mst ++ e :: picked) with ((mst ++ [e]) ++ picked)
          by (rewrite <- app_assoc; reflexivity).
        split; [exact Hrun|]. split; [assumption|]. split; [assumption|].
        split; [assumption|]. split; [assumption|].
        split.
        { intros i j Hs. apply Hmono, Hmono3. apply (same_set_forest _ _ _ _ Hsf), Hs. }
        destruct Hdone as [Hdone|Hdone]; [left; assumption|right].
        intros e' He'. apply elem_of_cons in He' as [->|He']; [|apply Hdone, He'].
        apply Hmono, Hjoin.
Qed.

(** The result of [findMST], with what the loop keeps. *)
Lemma findMST_on_forest es :
  valid_edges n es ->
  exists res, findMST_on fuel n es = Some res /\
    res `sublist_of` sort_edges es /\ forest res /\
    forall i j, in_range n i -> in_range n j ->
      (rtc (adjacent es) i j <-> rtc (adjacent res) i j).
Proof.
  intros Hvalid.
  destruct (findMST_on_core n fuel es Hvalid Hfuel) as (res & Hrun & Hsub & Hsmall & _).
  exists res. split; [exact Hrun|]. split; [exact Hsub|].
  assert (forall i j, rtc (adjacent res) i j -> rtc (adjacent es) i j) as Hback.
  { intros i j. apply rtc_subrel. intros x y. apply adjacent_subseteq.
    intros e He. apply elem_of_sort_edges. eapply sublist_subseteq; eassumption. }
  unfold findMST_on in Hrun.
  destruct (Z.ltb_spec (Z.of_nat n) 2) as [Hlt|Hbig].
  - injection Hrun as <-. split; [constructor|].
    intros i j Hi Hj. unfold in_range in *. assert (i = j) as -> by lia.
    split; intros _; apply rtc_refl.
  - destruct (mst_loop_forest (sort_edges es) (new_UnionFind n) [])
      as (picked & uf' & Hrun' & Hinv' & Hfor & Hcount & Hsound & _ & Hdone).
    + apply new_UnionFind_inv.
    + intros e He. apply Hvalid, elem_of_sort_edges, He.
    + rewrite num_roots_new. simpl. lia.
    + simpl. lia.
    + constructor.
    + intros i j Hi Hj Hs. apply same_set_new in Hs; try assumption. subst. apply rtc_refl.
    + intros e He. inversion He.
    + rewrite Hrun in Hrun'. injection Hrun' as ->. cbn [app] in *.
      split; [exact Hfor|]. intros i j Hi Hj. split; [|apply Hback].
      intros Hpath. apply Hsound; try assumption.
      destruct Hdone as [Hdone|Hdone].
      * apply (one_root_same_set n); try assumption. lia.
      * eapply (same_set_closed uf' es Hinv'); [|exact Hi|exact Hpath].
        intros e He. destruct (Hvalid e He) as [H1 H2].
        split; [assumption|]. split; [assumption|]. apply Hdone, elem_of_sort_edges, He.
Qed.

End SpanningForest.

(** X16. Every edge [findMST] returns is an edge of the graph, and the
    result has no cycle: each returned edge joins two vertices that the
    edges returned before it leave apart. *)
Theorem findMST_is_forest (n fuel : nat) (es : list Edge.t) :
  valid_edges n es -> (n <= fuel)%nat ->
  exists res, findMST_on fuel n es = Some res /\
    (forall e, e ∈ res -> e ∈ es) /\ forest res.
Proof.
  intros Hvalid Hfuel.
  destruct (findMST_on_forest n fuel Hfuel es Hvalid) as (res & Hrun & Hsub & Hfor & _).
  exists res. split; [exact Hrun|]. split; [|exact Hfor].
  intros e He. apply elem_of_sort_edges. eapply sublist_subseteq; eassumption.
Qed.

Lemma findMST_is_forest_witness :
  exists res, findMST_on 3 3 (edges triangle) = Some res /\
    (forall e, e ∈ res -> e ∈ edges triangle) /\ forest res.
Proof.
  apply (findMST_is_forest 3 3 (edges triangle)).
  - apply valid_edgesb_sound. vm_compute. reflexivity.
  - lia.
Defined.

(** X17. The result spans the graph: two vertices are joined by a path of
    returned edges exactly when they are joined by a path of edges of the
    graph. *)
Theorem findMST_spans (n fuel : nat) (es : list Edge.t) :
  valid_edges n es -> (n <= fuel)%nat ->
  exists res, findMST_on fuel n es = Some res /\
    forall i j, in_range n i -> in_range n j ->
      (rtc (adjacent es) i j <-> rtc (adjacent res) i j).
Proof.
  intros Hvalid Hfuel.
  destruct (findMST_on_forest n fuel Hfuel es Hvalid) as (res & Hrun & _ & _ & Hspan).
  exists res. split; assumption.
Qed.

Lemma findMST_spans_witness :
  exists res, findMST_on 4 4 [Edge.mk 0 1 7; Edge.mk 2 3 5] = Some res /\
    forall i j, in_range 4 i -> in_range 4 j ->
      (rtc (adjacent [Edge.mk 0 1 7; Edge.mk 2 3 5]) i j <-> rtc (adjacent res) i j).
Proof.
  apply (findMST_spans 4 4 [Edge.mk 0 1 7; Edge.mk 2 3 5]).
  - apply valid_edgesb_sound. vm_compute. reflexivity.
  - lia.
Defined.

(** X18. A vertex insertion does not change what [findMST] returns: on a
    graph built by requests with at least two vertices, the result after
    [addVertex] is the result before it. *)
Theorem findMST_unchanged_by_addVertex (fuel : nat) (rs : list Request) (x y : Q) :
  2 <= Z.of_nat (length (vertices (serve_all new_Graph rs))) ->
  (length (vertices (serve_all new_Graph rs)) <= fuel)%nat ->
  findMST fuel (snd (addVertex (serve_all new_Graph rs) x y))
    = findMST fuel (serve_all new_Graph rs).
Proof.
  intros Hn Hfuel. apply findMST_addVertex; try assumption.
  apply graph_inv_serve_all, graph_inv_new.
Qed.

Lemma findMST_unchanged_by_addVertex_witness :
  findMST 2 (snd (addVertex (serve_all new_Graph (two_sites ++ [ReqEdge 0 1])) 200 0))
    = findMST 2 (serve_all new_Graph (two_sites ++ [ReqEdge 0 1])).
Proof.
  apply (findMST_unchanged_by_addVertex 2 (two_sites ++ [ReqEdge 0 1]) 200 0).
  - vm_compute. discriminate.
  - vm_compute. lia.
Defined.

(** ** More on the application *)

Section Application.

Lemma closest_from_spec x y : forall vs index closestDist closestIndex,
  (closest_from index vs x y closestDist closestIndex = closestIndex /\
   forall v, v ∈ vs -> (closestDist <= base_dist2 v x y)%Q) \/
  (exists (k : nat) v,
     closest_from index vs x y closestDist closestIndex = Some (index + Z.of_nat k) /\
     vs !! k = Some v /\ (base_dist2 v x y < closestDist)%Q /\
     (forall w, w ∈ vs -> (base_dist2 v x y <= base_dist2 w x y)%Q) /\
     (forall (k' : nat) w, (k' < k)%nat -> vs !! k' = Some w ->
        (base_dist2 v x y < base_dist2 w x y)%Q)).
Proof.
  induction vs as [|v rest IH]; intros index d ci.
  - left. split; [reflexivity|]. intros v Hv. inversion Hv.
  - cbn [closest_from]. fold (base_dist2 v x y).
    destruct (Qltb (base_dist2 v x y) d) eqn:Hlt.
    + apply Qltb_lt in Hlt. right.
      destruct (IH (index + 1) (base_dist2 v x y) (Some index))
        as [[-> Hall]|(k & w & -> & Hk & Hw & Hmin & Hfirst)].
      * exists 0%nat, v. rewrite Z.add_0_r. split; [reflexivity|]. split; [reflexivity|].
        split; [exact Hlt|]. split; [|intros k' w Hk'; lia].
        intros w Hw. apply elem_of_cons in Hw as [->|Hw].
        -- apply Qle_refl.
        -- apply Hall, Hw.
      * exists (S k), w. split; [f_equal; lia|]. split; [exact Hk|].
        split; [eapply Qlt_trans; eassumption|]. split.
        -- intros u Hu. apply elem_of_cons in Hu as [->|Hu].
           ++ apply Qlt_le_weak, Hw.
           ++ apply Hmin, Hu.
        -- intros [|k'] u Hk' Hu.
           ++ injection Hu as <-. exact Hw.
           ++ apply (Hfirst k' u); [lia|exact Hu].
    + assert (d <= base_dist2 v x y)%Q as Hge.
      { apply Qnot_lt_le. intros H. apply Qltb_lt in H. congruence. }
      destruct (IH (index + 1) d ci)
        as [[-> Hall]|(k & w & -> & Hk & Hw & Hmin & Hfirst)].
      * left. split; [reflexivity|]. intros u Hu. apply elem_of_cons in Hu as [->|Hu].
        -- exact Hge.
        -- apply Hall, Hu.
      * right. exists (S k), w. split; [f_equal; lia|]. split; [exact Hk|].
        split; [exact Hw|]. split.
        -- intros u Hu. apply elem_of_cons in Hu as [->|Hu].
           ++ apply Qlt_le_weak. eapply Qlt_le_trans; eassumption.
           ++ apply Hmin, Hu.
        -- intros [|k'] u Hk' Hu.
           ++ injection Hu as <-. eapply Qlt_le_trans; eassumption.
           ++ apply (Hfirst k' u); [lia|exact Hu].
Qed.

Lemma findClosestVertex_cases g x y :
  (findClosestVertex g x y = None /\
   forall v, v ∈ vertices g -> (40 * 40 <= base_dist2 v x y)%Q) \/
  (exists i v,
     findClosestVertex g x y = Some i /\ vertex_at (vertices g) i = Some v /\
     0 <= i < Z.of_nat (length (vertices g)) /\
     (base_dist2 v x y < 40 * 40)%Q /\
     (forall w, w ∈ vertices g -> (base_dist2 v x y <= base_dist2 w x y)%Q) /\
     (forall j w, 0 <= j < i -> vertex_at (vertices g) j = Some w ->
        (base_dist2 v x y < base_dist2 w x y)%Q)).
Proof.
  unfold findClosestVertex.
  destruct (closest_from_spec x y (vertices g) 0 (40 * 40)%Q None)
    as [[-> Hall]|(k & v & -> & Hk & Hv & Hmin & Hfirst)].
  - left. auto.
  - right. exists (0 + Z.of_nat k), v. split; [reflexivity|].
    pose proof (lookup_lt_Some _ _ _ Hk) as Hlen.
    split; [apply vertex_at_lookup; split; [lia|]|].
    + rewrite Z.add_0_l, Nat2Z.id. exact Hk.
    + split; [lia|]. split; [assumption|]. split; [assumption|].
      intros j w Hj Hw. apply vertex_at_lookup in Hw as [_ Hw].
      apply (Hfirst (Z.to_nat j) w); [lia|exact Hw].
Qed.

Variable fuel : nat.

Lemma findMST_total g :
  graph_inv g -> (length (vertices g) <= fuel)%nat ->
  exists mst, findMST fuel g = Some mst /\ forall e, e ∈ mst -> e ∈ edges g.
Proof.
  intros Hg Hfuel. unfold findMST.
  destruct (findMST_on_core (length (vertices g)) fuel (edges g)
              (graph_inv_valid_edges g Hg) Hfuel) as (res & Hrun & Hsub & _).
  exists res. split; [exact Hrun|].
  intros e He. apply elem_of_sort_edges. eapply sublist_subseteq; eassumption.
Qed.

Lemma findMST_small g :
  Z.of_nat (length (vertices g)) < 2 -> findMST fuel g = Some [].
Proof.
  intros Hn. unfold findMST, findMST_on.
  destruct (Z.ltb_spec (Z.of_nat (length (vertices g))) 2); [reflexivity|lia].
Qed.

(** One event keeps what the application relies on, and adds at most one
    vertex. *)
Lemma step_inv app ev :
  app_inv fuel app -> (length (vertices (graph app)) < fuel)%nat ->
  exists app', step fuel app ev = Some app' /\ app_inv fuel app' /\
    (length (vertices (graph app')) <= S (length (vertices (graph app))))%nat.
Proof.
  intros Hinv Hfuel. pose proof Hinv as [Hg Hb Hc Hs Hm].
  destruct ev as [x y| | | |]; cbn [step].
  - eexists. split; [reflexivity|]. unfold handleCanvasClick.
    destruct (mode app) eqn:Hmode.
    + (* a building *)
      destruct (addVertex (graph app) x y) as [i g'] eqn:Hadd.
      assert (g' = snd (addVertex (graph app) x y)) as Hg' by (rewrite Hadd; reflexivity).
      assert (length (vertices g') <= S (length (vertices (graph app))))%nat as Hlen.
      { rewrite Hg'. unfold addVertex. destruct (tooClose (vertices (graph app)) x y);
          cbn [snd vertices]; [lia|]. rewrite length_app. simpl. lia. }
      split; [|exact Hlen]. split; cbn [graph selectedVertex mode mstEdges].
      * rewrite Hg'. apply store_inv_addVertex, Hg.
      * intros _. apply Hb. reflexivity.
      * try rewrite Hmode; discriminate.
      * rewrite (Hb eq_refl). discriminate.
      * destruct Hm as [Hm|Hm]; [left; exact Hm|].
        destruct (Z.lt_ge_cases (Z.of_nat (length (vertices (graph app)))) 2) as [Hsmall|Hbig].
        -- left. rewrite (findMST_small _ Hsmall) in Hm. congruence.
        -- right. rewrite Hg'. rewrite findMST_addVertex; try assumption; try lia.
           apply (si_graph _ Hg).
    + (* a connection *)
      destruct (findClosestVertex_cases (graph app) x y)
        as [[-> _]|(v & vv & -> & _ & Hv & _)].
      { split; [exact Hinv|lia]. }
      assert (app_inv fuel (with_selected app None)) as Hnone.
      { split; cbn [with_selected graph selectedVertex mode mstEdges].
        - exact (ai_graph _ _ Hinv).
        - reflexivity.
        - exact (ai_connection _ _ Hinv).
        - discriminate.
        - exact (ai_cache _ _ Hinv). }
      destruct (selectedVertex app) as [s|] eqn:Hsel.
      * destruct (s =? v); [split; [exact Hnone|cbn; lia]|].
        destruct (edge_exists (edges (graph app)) s v); [split; [exact Hnone|cbn; lia]|].
        destruct (addEdge_cases (graph app) s v)
          as [[Hr _]|[(Hr & _)|(va & vb & _ & _ & Hr & _)]]; rewrite Hr; cbn [fst snd].
        -- split; [|cbn; lia].
           split; cbn [graph selectedVertex mode mstEdges].
           ++ exact (ai_graph _ _ Hinv).
           ++ reflexivity.
           ++ intros _. exact (ai_connection _ _ Hinv Hmode).
           ++ discriminate.
           ++ exact (ai_cache _ _ Hinv).
        -- split; [|cbn; lia].
           split; cbn [graph selectedVertex mode mstEdges].
           ++ exact (ai_graph _ _ Hinv).
           ++ reflexivity.
           ++ intros _. exact (ai_connection _ _ Hinv Hmode).
           ++ discriminate.
           ++ exact (ai_cache _ _ Hinv).
        -- split; [|cbn; lia].
           pose proof (store_inv_addEdge (graph app) s v Hg) as Hg'. rewrite Hr in Hg'.
           cbn [snd] in Hg'.
           split; cbn [graph selectedVertex mode mstEdges vertices].
           ++ exact Hg'.
           ++ reflexivity.
           ++ intros _. exact (ai_connection _ _ Hinv Hmode).
           ++ discriminate.
           ++ left. reflexivity.
      * split; [|cbn; lia].
        split; cbn [with_selected graph selectedVertex mode mstEdges].
        -- exact (ai_graph _ _ Hinv).
        -- intros Hbad. rewrite Hbad in Hmode. discriminate.
        -- exact (ai_connection _ _ Hinv).
        -- intros s [= <-]. exact Hv.
        -- exact (ai_cache _ _ Hinv).
  - eexists. split; [reflexivity|]. split; [|cbn; lia].
    split; cbn [graph selectedVertex mode mstEdges]; try assumption.
    + reflexivity.
    + discriminate.
    + discriminate.
  - destruct (Z.ltb_spec (Z.of_nat (length (vertices (graph app)))) 2) as [Hsmall|Hbig].
    + eexists. split; [reflexivity|]. split; [exact Hinv|lia].
    + eexists. split; [reflexivity|]. split; [|cbn; lia].
      split; cbn [graph selectedVertex mode mstEdges]; try assumption.
      * discriminate.
      * intros _. exact Hbig.
      * discriminate.
  - destruct (Z.ltb_spec (Z.of_nat (length (vertices (graph app)))) 2) as [Hsmall|Hbig].
    + eexists. split; [reflexivity|]. split; [exact Hinv|lia].
    + destruct (findMST_total (graph app) (si_graph _ Hg)) as (mst & Hrun & _); [lia|].
      rewrite Hrun. eexists. split; [reflexivity|]. split; [|cbn; lia].
      split; cbn [graph selectedVertex mode mstEdges]; try assumption.
      right. exact Hrun.
  - eexists. split; [reflexivity|]. split; [|cbn; lia].
    split; cbn [graph selectedVertex mode mstEdges].
    + apply store_inv_new.
    + reflexivity.
    + discriminate.
    + discriminate.
    + left. reflexivity.
Qed.

Lemma run_inv evs : forall app,
  app_inv fuel app -> (length (vertices (graph app)) + length evs <= fuel)%nat ->
  exists app', run fuel app evs = Some app' /\ app_inv fuel app' /\
    (length (vertices (graph app')) <= length (vertices (graph app)) + length evs)%nat.
Proof.
  induction evs as [|ev evs IH]; intros app Hinv Hfuel.
  - exists app. split; [reflexivity|]. split; [assumption|]. simpl. lia.
  - simpl in Hfuel. destruct (step_inv app ev Hinv) as (app1 & Hstep & Hinv1 & Hlen1); [lia|].
    destruct (IH app1 Hinv1) as (app' & Hrun & Hinv' & Hlen'); [lia|].
    exists app'. cbn [run]. rewrite Hstep. split; [exact Hrun|]. split; [assumption|].
    simpl. lia.
Qed.

Lemma app_inv_new : app_inv fuel new_PipelineApp.
Proof.
  split; cbn.
  - apply store_inv_new.
  - reflexivity.
  - discriminate.
  - discriminate.
  - left. reflexivity.
Qed.

Lemma run_new_inv evs :
  (length evs <= fuel)%nat ->
  exists app, run fuel new_PipelineApp evs = Some app /\ app_inv fuel app /\
    (length (vertices (graph app)) <= fuel)%nat.
Proof.
  intros Hfuel. destruct (run_inv evs new_PipelineApp app_inv_new) as (app & Hrun & Hinv & Hlen).
  - simpl. lia.
  - exists app. split; [assumption|]. split; [assumption|]. simpl in Hlen. lia.
Qed.

End Application.

(** X20. The cached tree is never stale: after any events, either nothing
    is cached or the cached list is what [findMST] returns on the graph as
    it is now. *)
Theorem cache_is_never_stale (fuel : nat) (evs : list Event) :
  (length evs <= fuel)%nat ->
  exists app, run fuel new_PipelineApp evs = Some app /\
    (mstEdges app = [] \/ findMST fuel (graph app) = Some (mstEdges app)).
Proof.
  intros Hfuel. destruct (run_new_inv fuel evs Hfuel) as (app & Hrun & Hinv & _).
  exists app. split; [exact Hrun|]. apply (ai_cache _ _ Hinv).
Qed.

Lemma cache_is_never_stale_witness :
  exists app,
    run 8 new_PipelineApp (linked_pair ++ [AddBuildingClick; CanvasClick 200 0]) = Some app /\
    (mstEdges app = [] \/ findMST 8 (graph app) = Some (mstEdges app)).
Proof.
  apply (cache_is_never_stale 8 (linked_pair ++ [AddBuildingClick; CanvasClick 200 0])).
  vm_compute. lia.
Defined.

(** X21. After any events, a building is selected only in connection mode,
    the selected index names a stored building, and connection mode is only
    on with at least two buildings. *)
Theorem selection_is_valid (fuel : nat) (evs : list Event) :
  (length evs <= fuel)%nat ->
  exists app, run fuel new_PipelineApp evs = Some app /\
    (mode app = addBuilding -> selectedVertex app = None) /\
    (forall s, selectedVertex app = Some s ->
       exists v, vertex_at (vertices (graph app)) s = Some v) /\
    (mode app = addConnection -> 2 <= Z.of_nat (length (vertices (graph app)))).
Proof.
  intros Hfuel. destruct (run_new_inv fuel evs Hfuel) as (app & Hrun & Hinv & _).
  exists app. split; [exact Hrun|]. split; [apply (ai_building _ _ Hinv)|].
  split; [|apply (ai_connection _ _ Hinv)].
  intros s Hs. apply vertex_at_Some. apply (ai_selected _ _ Hinv s Hs).
Qed.

Lemma selection_is_valid_witness :
  exists app, run 8 new_PipelineApp pending_pipe = Some app /\
    (mode app = addBuilding -> selectedVertex app = None) /\
    (forall s, selectedVertex app = Some s ->
       exists v, vertex_at (vertices (graph app)) s = Some v) /\
    (mode app = addConnection -> 2 <= Z.of_nat (length (vertices (graph app)))).
Proof. apply (selection_is_valid 8 pending_pipe). vm_compute. lia. Defined.

(** X22. Whatever the user clicks, the graph of the application has no
    self-loop and no two edges on the same pair of buildings. *)
Theorem application_graph_is_sound (fuel : nat) (evs : list Event) :
  (length evs <= fuel)%nat ->
  exists app, run fuel new_PipelineApp evs = Some app /\
    no_self_loop (graph app) /\ no_duplicate_pair (graph app).
Proof.
  intros Hfuel. destruct (run_new_inv fuel evs Hfuel) as (app & Hrun & Hinv & _).
  pose proof (ai_graph _ _ Hinv) as [Hg _ _].
  exists app. split; [exact Hrun|]. split; [apply graph_inv_no_self_loop, Hg|].
  apply graph_inv_no_duplicate_pair, Hg.
Qed.

Lemma application_graph_is_sound_witness :
  exists app, run 8 new_PipelineApp pending_pipe = Some app /\
    no_self_loop (graph app) /\ no_duplicate_pair (graph app).
Proof. apply (application_graph_is_sound 8 pending_pipe). vm_compute. lia. Defined.

(** X23. The click handler's "Failed to create connection" branch is never
    taken: after any events, when a second building is clicked that differs
    from the selected one and is not yet linked to it, [addEdge] returns
    [true]. *)
Theorem connection_never_fails (fuel : nat) (evs : list Event) (x y : Q) (s v : Z) :
  (length evs <= fuel)%nat ->
  exists app, run fuel new_PipelineApp evs = Some app /\
    (selectedVertex app = Some s -> findClosestVertex (graph app) x y = Some v ->
     s <> v -> edge_exists (edges (graph app)) s v = false ->
     addEdge_ret (graph app) s v = true).
Proof.
  intros Hfuel. destruct (run_new_inv fuel evs Hfuel) as (app & Hrun & Hinv & _).
  exists app. split; [exact Hrun|]. intros Hsel Hclose Hne Hex.
  pose proof (ai_selected _ _ Hinv s Hsel) as Hs.
  destruct (findClosestVertex_cases (graph app) x y)
    as [[Hnone _]|(i & vv & Hsome & _ & Hi & _)]; [congruence|].
  rewrite Hclose in Hsome. injection Hsome as <-.
  unfold addEdge_ret.
  destruct (addEdge_cases (graph app) s v)
    as [[_ Hc]|[(_ & _ & _ & _ & Hex')|(va & vb & _ & _ & -> & _)]].
  - exfalso. lia.
  - congruence.
  - reflexivity.
Qed.

Lemma connection_never_fails_witness :
  exists app, run 8 new_PipelineApp pending_pipe = Some app /\
    addEdge_ret (graph app) 1 2 = true.
Proof.
  destruct (connection_never_fails 8 pending_pipe 200 16 1 2) as (app & Hrun & H).
  - vm_compute. lia.
  - exists app. split; [exact Hrun|].
    vm_compute in Hrun. injection Hrun as <-.
    apply H; [reflexivity|vm_compute; reflexivity|lia|vm_compute; reflexivity].
Defined.

(** X24. The drawing code marks as part of the tree exactly the edges
    [findMST] returned: for an edge of a graph built by requests, the
    [isMST] test holds if and only if the edge is in the result. *)
Theorem isMST_marks_the_tree (fuel : nat) (rs : list Request) (mst : list Edge.t)
  (edge : Edge.t) :
  (length (vertices (serve_all new_Graph rs)) <= fuel)%nat ->
  findMST fuel (serve_all new_Graph rs) = Some mst ->
  edge ∈ edges (serve_all new_Graph rs) ->
  (isMST mst edge = true <-> edge ∈ mst).
Proof.
  intros Hfuel Hrun Hedge.
  pose proof (graph_inv_serve_all rs new_Graph graph_inv_new) as Hg.
  destruct (findMST_total fuel _ Hg Hfuel) as (mst' & Hrun' & Hsub).
  rewrite Hrun in Hrun'. injection Hrun' as <-.
  unfold isMST. rewrite existsb_exists. split.
  - intros (e & He & Hpair). apply list_elem_of_In in He.
    assert (e = edge); [|subst; exact He].
    pose proof (gi_ordered _ Hg e (Hsub e He)) as Oe.
    pose proof (gi_ordered _ Hg edge Hedge) as Oedge.
    assert ((Edge.v1 e, Edge.v2 e) = (Edge.v1 edge, Edge.v2 edge)) as Heq.
    { apply orb_true_iff in Hpair as [H|H]; apply andb_true_iff in H as [H1 H2];
        apply Z.eqb_eq in H1, H2; [congruence|lia]. }
    apply list_elem_of_lookup in He as Hl. pose proof (Hsub e He) as He'.
    apply list_elem_of_lookup in He' as [i Hi]. apply list_elem_of_lookup in Hedge as [j Hj].
    assert (i = j) as ->.
    { eapply (NoDup_lookup _ i j _ (gi_nodup _ Hg)).
      - rewrite list_lookup_fmap, Hi. reflexivity.
      - rewrite list_lookup_fmap, Hj. simpl. rewrite Heq. reflexivity. }
    congruence.
  - intros He. exists edge. split; [apply list_elem_of_In, He|].
    rewrite !Z.eqb_refl. reflexivity.
Qed.

Lemma isMST_marks_the_tree_witness :
  isMST [Edge.mk 0 1 100] (Edge.mk 0 1 100) = true <-> Edge.mk 0 1 100 ∈ [Edge.mk 0 1 100].
Proof.
  apply (isMST_marks_the_tree 2 (two_sites ++ [ReqEdge 1 0]) [Edge.mk 0 1 100] (Edge.mk 0 1 100)).
  - vm_compute. lia.
  - vm_compute. reflexivity.
  - vm_compute. left.
Defined.

(** ** Doubles: order, separation and the nearest building *)

Section DoubleOrder.

Import PrimFloat FloatOps FloatAxioms SpecFloat.

Lemma SFltb_trans a b c : SFltb a b = true -> SFltb b c = true -> SFltb a c = true.
Proof.
  unfold SFltb, SFcompare.
  destruct a as [sa|sa| |sa ma ea], b as [sb|sb| |sb mb eb], c as [sc|sc| |sc mc ec];
    try destruct sa; try destruct sb; try destruct sc; try discriminate; try reflexivity;
    rewrite ?Pos.compare_cont_spec; unfold Pos.switch_Eq;
    destruct (Z.compare_spec ea eb), (Z.compare_spec eb ec), (Z.compare_spec ea ec);
    try discriminate; try reflexivity; try lia; subst;
    destruct (Pos.compare_spec ma mb), (Pos.compare_spec mb mc), (Pos.compare_spec ma mc);
    simpl; try discriminate; try reflexivity; try lia.
Qed.

Lemma SFleb_ltb_trans a b c : SFleb a b = true -> SFltb b c = true -> SFltb a c = true.
Proof.
  unfold SFleb, SFltb, SFcompare.
  destruct a as [sa|sa| |sa ma ea], b as [sb|sb| |sb mb eb], c as [sc|sc| |sc mc ec];
    try destruct sa; try destruct sb; try destruct sc; try discriminate; try reflexivity;
    rewrite ?Pos.compare_cont_spec; unfold Pos.switch_Eq;
    destruct (Z.compare_spec ea eb), (Z.compare_spec eb ec), (Z.compare_spec ea ec);
    try discriminate; try reflexivity; try lia; subst;
    destruct (Pos.compare_spec ma mb), (Pos.compare_spec mb mc), (Pos.compare_spec ma mc);
    simpl; try discriminate; try reflexivity; try lia.
Qed.

Lemma SFltb_irrefl a : SFltb a a = false.
Proof.
  unfold SFltb, SFcompare. destruct a as [sa|sa| |sa ma ea]; try destruct sa; try reflexivity;
    rewrite Z.compare_refl, Pos.compare_cont_spec, Pos.compare_refl; reflexivity.
Qed.

(** [<] on doubles is transitive and irreflexive, NaN included. *)
Lemma double_lt_trans (a b c : float) :
  Double.lt a b = true -> Double.lt b c = true -> Double.lt a c = true.
Proof. unfold Double.lt. rewrite !ltb_spec. apply SFltb_trans. Qed.

Lemma double_le_lt_trans (a b c : float) :
  Double.le a b = true -> Double.lt b c = true -> Double.lt a c = true.
Proof. unfold Double.le, Double.lt. rewrite leb_spec, !ltb_spec. apply SFleb_ltb_trans. Qed.

Lemma double_lt_irrefl (a : float) : Double.lt a a = false.
Proof. unfold Double.lt. rewrite ltb_spec. apply SFltb_irrefl. Qed.

End DoubleOrder.

Section DoubleStore.

Lemma passes_test_nil : passes_test [].
Proof. intros i j vi vj _ Hi. rewrite lookup_nil in Hi. discriminate. Qed.

Lemma passes_test_addVertex vs x y :
  passes_test vs -> passes_test (snd (Double.addVertex vs x y)).
Proof.
  intros Hvs. unfold Double.addVertex.
  destruct (Double.tooClose vs x y) eqn:Ht; [exact Hvs|].
  cbv zeta. cbn [snd]. intros i j vi vj Hij Hi Hj.
  pose proof (proj1 (double_tooClose_false vs x y) Ht) as Hall.
  destruct (decide (j < length vs)%nat) as [Hlt|Hge].
  - rewrite lookup_app_l in Hi, Hj by lia. exact (Hvs i j vi vj Hij Hi Hj).
  - assert (j = length vs) as ->.
    { apply lookup_lt_Some in Hj. rewrite length_app in Hj. simpl in Hj. lia. }
    rewrite lookup_app_l in Hi by lia.
    rewrite lookup_app_r, Nat.sub_diag in Hj by lia. injection Hj as <-.
    cbn [Double.Vertex.x Double.Vertex.y].
    apply Hall. apply list_elem_of_lookup. exists i. exact Hi.
Qed.

Lemma passes_test_insert_all pts vs :
  passes_test vs -> passes_test (Double.insert_all vs pts).
Proof.
  unfold Double.insert_all. revert vs.
  induction pts as [|p pts IH]; intros vs Hvs; simpl; [exact Hvs|].
  apply IH. apply passes_test_addVertex. exact Hvs.
Qed.

End DoubleStore.

Section DoubleClosest.

Variables x y : PrimFloat.float.

Lemma closest_state_answer pre cd ci :
  closest_state x y pre cd ci -> closest_answer x y pre ci.
Proof.
  intros [Hall Hci]. destruct ci as [i|]; simpl in *.
  - destruct Hci as (v & Hi & Hv & -> & Hnear & Hfirst).
    exists v. repeat (split; [assumption|]). assumption.
  - subst cd. exact Hall.
Qed.

Lemma double_closest_from_cons index v rest cd ci :
  Double.closest_from index (v :: rest) x y cd ci =
    if Double.lt (Double.base_dist2 v x y) cd
    then Double.closest_from (index + 1) rest x y (Double.base_dist2 v x y) (Some index)
    else Double.closest_from (index + 1) rest x y cd ci.
Proof. reflexivity. Qed.

Lemma double_closest_from_spec vs : forall pre cd ci,
  closest_state x y pre cd ci ->
  closest_answer x y (pre ++ vs)
    (Double.closest_from (Z.of_nat (length pre)) vs x y cd ci).
Proof.
  induction vs as [|v rest IH]; intros pre cd ci Hst.
  - simpl. rewrite app_nil_r. eapply closest_state_answer; eassumption.
  - rewrite double_closest_from_cons.
    replace (Z.of_nat (length pre) + 1) with (Z.of_nat (length (pre ++ [v])))
      by (rewrite length_app; simpl; lia).
    replace (pre ++ v :: rest) with ((pre ++ [v]) ++ rest)
      by (rewrite <- app_assoc; reflexivity).
    destruct Hst as [Hall Hci].
    destruct (Double.lt (Double.base_dist2 v x y) cd) eqn:Hlt; apply IH.
    + split.
      * intros w Hw. apply elem_of_app in Hw as [Hw|Hw].
        -- destruct (Double.lt (Double.base_dist2 w x y) (Double.base_dist2 v x y)) eqn:Hwv;
             [|reflexivity].
           rewrite <- (Hall w Hw). symmetry. eapply double_lt_trans; eassumption.
        -- apply list_elem_of_singleton in Hw. subst w. apply double_lt_irrefl.
      * exists v. split; [lia|]. rewrite Nat2Z.id.
        split; [rewrite lookup_app_r, Nat.sub_diag by lia; reflexivity|].
        split; [reflexivity|]. split.
        -- destruct ci as [i|].
           ++ destruct Hci as (v0 & _ & _ & -> & Hnear & _).
              eapply double_lt_trans; eassumption.
           ++ subst cd. exact Hlt.
        -- intros j w Hj Hw. rewrite lookup_app_l in Hw by assumption.
           destruct (Double.le (Double.base_dist2 w x y) (Double.base_dist2 v x y)) eqn:Hwv;
             [|reflexivity].
           assert (w ∈ pre) as Hin by (apply list_elem_of_lookup; eauto).
           rewrite <- (Hall w Hin). symmetry. eapply double_le_lt_trans; eassumption.
    + split.
      * intros w Hw. apply elem_of_app in Hw as [Hw|Hw]; [apply Hall, Hw|].
        apply list_elem_of_singleton in Hw. subst w. exact Hlt.
      * destruct ci as [i|]; [|exact Hci].
        destruct Hci as (v0 & Hi & Hv0 & Hcd & Hnear & Hfirst).
        assert (Z.to_nat i < length pre)%nat as Hlen by (eapply lookup_lt_Some; eassumption).
        exists v0. split; [assumption|].
        split; [rewrite lookup_app_l by assumption; assumption|].
        split; [assumption|]. split; [assumption|].
        intros j w Hj Hw. rewrite lookup_app_l in Hw by lia. eapply Hfirst; eassumption.
Qed.

End DoubleClosest.

(** X9. Of the vertices stored by any sequence of [addVertex] calls, each
    one passed the test against every vertex stored before it: the distance
    between the two, as the code computes it in doubles, is not below 30. *)
Theorem stored_vertices_pass_the_test (pts : list (PrimFloat.float * PrimFloat.float))
  (i j : nat) (vi vj : Double.Vertex.t) :
  (i < j)%nat ->
  Double.insert_all [] pts !! i = Some vi ->
  Double.insert_all [] pts !! j = Some vj ->
  Double.below_MIN_DISTANCE
    (Double.computed_distance vi (Double.Vertex.x vj) (Double.Vertex.y vj)) = false.
Proof. apply (passes_test_insert_all pts [] passes_test_nil). Qed.

(** Three calls, the second too close to the first: two vertices stay, and
    the computed distance between them is 100. *)
Lemma stored_vertices_pass_the_test_witness :
  Double.below_MIN_DISTANCE
    (Double.computed_distance (Double.Vertex.mk Double.zero Double.zero)
       Double.hundred Double.zero) = false.
Proof.
  apply (stored_vertices_pass_the_test
           [(Double.zero, Double.zero); (Double.sixteen, Double.zero);
            (Double.hundred, Double.zero)]
           0 1 (Double.Vertex.mk Double.zero Double.zero)
           (Double.Vertex.mk Double.hundred Double.zero)).
  - lia.
  - vm_compute. reflexivity.
  - vm_compute. reflexivity.
Defined.

(** X19. [findClosestVertex], on the squared distances to the bases (16
    below each vertex) as the code computes them in doubles.  It returns
    [null] exactly when no computed squared distance is below 40 * 40.
    Otherwise it returns the index of a stored building whose computed
    squared distance is below 40 * 40, that no building's computed squared
    distance is below, and that is the first such: every building before it
    has a computed squared distance that is neither below nor equal. *)
Theorem findClosestVertex_computed_nearest (vs : list Double.Vertex.t)
  (x y : PrimFloat.float) :
  match Double.findClosestVertex vs x y with
  | None =>
      forall w, w ∈ vs -> Double.lt (Double.base_dist2 w x y) Double.maxDistance2 = false
  | Some i =>
      exists v, 0 <= i /\ vs !! Z.to_nat i = Some v /\
        Double.lt (Double.base_dist2 v x y) Double.maxDistance2 = true /\
        (forall w, w ∈ vs ->
           Double.lt (Double.base_dist2 w x y) (Double.base_dist2 v x y) = false) /\
        (forall j w, (j < Z.to_nat i)%nat -> vs !! j = Some w ->
           Double.le (Double.base_dist2 w x y) (Double.base_dist2 v x y) = false)
  end.
Proof.
  unfold Double.findClosestVertex.
  apply (double_closest_from_spec x y vs [] Double.maxDistance2 None).
  split; [|reflexivity]. intros w Hw. apply elem_of_nil in Hw. contradiction.
Qed.

(** ** [addEdge] with numbers that are not indices *)

Section NumberIndices.

Lemma Qeq_bool_inject a b : Qeq_bool (inject_Z a) (inject_Z b) = (a =? b).
Proof.
  apply eq_true_iff_eq. rewrite Qeq_bool_iff, Z.eqb_eq. unfold Qeq. simpl. lia.
Qed.

Lemma Qltb_inject_0 a : Qltb (inject_Z a) 0 = (a <? 0).
Proof. unfold Qltb. simpl. f_equal; lia. Qed.

Lemma Qle_bool_inject n a : Qle_bool (inject_Z n) (inject_Z a) = (a >=? n).
Proof.
  apply eq_true_iff_eq. rewrite Qle_bool_iff, Z.geb_le. unfold Qle. simpl. lia.
Qed.

Lemma Qfloor_inject a : Qfloor (inject_Z a) = a.
Proof. apply Qfloor_Z. Qed.

Lemma is_integer_inject a : is_integer (inject_Z a) = true.
Proof. unfold is_integer. rewrite Qfloor_inject. apply Qeq_bool_iff. reflexivity. Qed.

Lemma is_integer_eq k q : Qeq_bool (inject_Z k) q = true -> is_integer q = true.
Proof.
  intros H. apply Qeq_bool_iff in H. unfold is_integer. apply Qeq_bool_iff.
  rewrite <- H. rewrite Qfloor_inject. reflexivity.
Qed.

Lemma number_vertex_at_inject vs a : number_vertex_at vs (inject_Z a) = vertex_at vs a.
Proof. unfold number_vertex_at. rewrite is_integer_inject, Qfloor_inject. reflexivity. Qed.

Lemma edge_exists_number_inject es a b :
  edge_exists_number es (inject_Z a) (inject_Z b) = edge_exists es a b.
Proof.
  unfold edge_exists_number, edge_exists. induction es as [|e es IH]; [reflexivity|].
  simpl. rewrite IH, !Qeq_bool_inject. reflexivity.
Qed.

(** No stored edge has an end that is not an integer. *)
Lemma edge_exists_number_fraction es v1 v2 :
  is_integer v1 = false \/ is_integer v2 = false -> edge_exists_number es v1 v2 = false.
Proof.
  intros H. unfold edge_exists_number. induction es as [|e es IH]; [reflexivity|].
  simpl. rewrite IH, orb_false_r.
  destruct (Qeq_bool (inject_Z (Edge.v1 e)) v1) eqn:E11;
    destruct (Qeq_bool (inject_Z (Edge.v2 e)) v2) eqn:E22;
    destruct (Qeq_bool (inject_Z (Edge.v1 e)) v2) eqn:E12;
    destruct (Qeq_bool (inject_Z (Edge.v2 e)) v1) eqn:E21;
    try reflexivity; exfalso;
    repeat match goal with
      | E : Qeq_bool (inject_Z _) _ = true |- _ => apply is_integer_eq in E
      end;
    destruct H; congruence.
Qed.

(** On integers [addEdge_number] is [addEdge]. *)
Lemma addEdge_number_integers (g : Graph) (a b : Z) :
  addEdge_number g (inject_Z a) (inject_Z b) =
    (addEdge_ret g a b, branch_of (addEdge_log g a b), addEdge_graph g a b).
Proof.
  unfold addEdge_ret, addEdge_log, addEdge_graph, addEdge_number, addEdge.
  rewrite Qeq_bool_inject, !Qltb_inject_0, !Qle_bool_inject, edge_exists_number_inject,
    !number_vertex_at_inject, !Qfloor_inject.
  destruct ((a =? b) || (a <? 0) || (b <? 0)
            || (a >=? Z.of_nat (length (vertices g)))
            || (b >=? Z.of_nat (length (vertices g)))); [reflexivity|].
  destruct (negb (edge_exists (edges g) a b)); [|reflexivity].
  destruct (vertex_at (vertices g) a); [|reflexivity].
  destruct (vertex_at (vertices g) b); reflexivity.
Qed.

Lemma number_vertex_at_None (vs : list Vertex.t) (q : Q) :
  (0 <= q)%Q -> (q < inject_Z (Z.of_nat (length vs)))%Q ->
  number_vertex_at vs q = None -> is_integer q = false.
Proof.
  intros H0 Hlen. unfold number_vertex_at.
  destruct (is_integer q) eqn:Hint; [|reflexivity]. intros Hnone. exfalso.
  apply Qeq_bool_iff in Hint. rewrite Hint in H0, Hlen.
  change 0%Q with (inject_Z 0) in H0.
  rewrite <- Zle_Qle in H0. rewrite <- Zlt_Qlt in Hlen.
  destruct (vertex_at_Some vs (Qfloor q)) as [w Hw]; [lia|congruence].
Qed.

End NumberIndices.

(** X25. [addEdge] called with two numbers reaches its [catch] block,
    returning [false] with the graph as it was, exactly when the numbers
    differ, both are at least 0 and below the number of vertices, and one of
    them is not an integer. *)
Theorem addEdge_catches_fractions (g : Graph) (v1 v2 : Q) :
  addEdge_number g v1 v2 = (false, Caught, g) <->
  ~ (v1 == v2)%Q /\
  (0 <= v1)%Q /\ (v1 < inject_Z (Z.of_nat (length (vertices g))))%Q /\
  (0 <= v2)%Q /\ (v2 < inject_Z (Z.of_nat (length (vertices g))))%Q /\
  (is_integer v1 = false \/ is_integer v2 = false).
Proof.
  unfold addEdge_number.
  destruct (Qeq_bool v1 v2) eqn:Eeq.
  { simpl. split; [discriminate|]. intros (Hne & _). apply Qeq_bool_iff in Eeq. contradiction. }
  apply Qeq_bool_neq in Eeq.
  destruct (Qltb v1 0) eqn:E1.
  { simpl. split; [discriminate|]. intros (_ & H & _). apply Qltb_lt in E1.
    exfalso. apply (Qlt_not_le _ _ E1 H). }
  destruct (Qltb v2 0) eqn:E2.
  { simpl. split; [discriminate|]. intros (_ & _ & _ & H & _). apply Qltb_lt in E2.
    exfalso. apply (Qlt_not_le _ _ E2 H). }
  destruct (Qle_bool (inject_Z (Z.of_nat (length (vertices g)))) v1) eqn:E3.
  { simpl. split; [discriminate|]. intros (_ & _ & H & _). apply Qle_bool_iff in E3.
    exfalso. apply (Qlt_not_le _ _ H E3). }
  destruct (Qle_bool (inject_Z (Z.of_nat (length (vertices g)))) v2) eqn:E4.
  { simpl. split; [discriminate|]. intros (_ & _ & _ & _ & H & _). apply Qle_bool_iff in E4.
    exfalso. apply (Qlt_not_le _ _ H E4). }
  cbn [orb].
  assert (0 <= v1)%Q as H1.
  { apply Qnot_lt_le. intros H. apply Qltb_lt in H. congruence. }
  assert (0 <= v2)%Q as H2.
  { apply Qnot_lt_le. intros H. apply Qltb_lt in H. congruence. }
  assert (v1 < inject_Z (Z.of_nat (length (vertices g))))%Q as H3.
  { apply Qnot_le_lt. intros H. apply Qle_bool_iff in H. congruence. }
  assert (v2 < inject_Z (Z.of_nat (length (vertices g))))%Q as H4.
  { apply Qnot_le_lt. intros H. apply Qle_bool_iff in H. congruence. }
  split.
  - intros Hrun. repeat (split; [assumption|]).
    destruct (negb (edge_exists_number (edges g) v1 v2)); [|discriminate].
    destruct (number_vertex_at (vertices g) v1) eqn:Ea.
    + destruct (number_vertex_at (vertices g) v2) eqn:Eb; [discriminate|].
      right. eapply number_vertex_at_None; eassumption.
    + left. eapply number_vertex_at_None; eassumption.
  - intros (_ & _ & _ & _ & _ & Hfrac).
    rewrite (edge_exists_number_fraction (edges g) v1 v2 Hfrac). cbn [negb].
    unfold number_vertex_at. destruct Hfrac as [-> | ->]; [reflexivity|].
    destruct (is_integer v1); [|reflexivity].
    destruct (vertex_at (vertices g) (Qfloor v1)); reflexivity.
Qed.

(** [addEdge(0.5, 1)] on two stored vertices is caught. *)
Lemma addEdge_catches_fractions_witness :
  addEdge_number (serve_all new_Graph two_sites) (1 # 2) 1 =
    (false, Caught, serve_all new_Graph two_sites).
Proof.
  apply (proj2 (addEdge_catches_fractions (serve_all new_Graph two_sites) (1 # 2) 1)).
  vm_compute. intuition discriminate.
Defined.
